(** * Verification of the CryptographProcessor pipeline (node-crypto-memo)

    The TypeScript class [CryptographProcessor] generates a password, a salt
    and an initialization vector, derives a common key with scrypt, encrypts
    a string with AES-256-CBC and decrypts it again.  This development embeds
    the class and the parts of the Node.js [crypto] and [Buffer] interfaces
    that it calls, and proves properties of the embedding.

    Data representation
    - a byte is an [N] below 256, a [Buffer] is a list of bytes;
    - a JavaScript string is the list of its UTF-16 code units ([N] below
      65536);
    - exceptions are the [Throw] case of [outcome];
    - the random source, the scrypt function and the console live in an
      explicit process state threaded through the pipeline. *)

From Stdlib Require Import String Ascii List NArith ZArith Lia Bool Ring.
Import ListNotations.
Local Open Scope N_scope.

Ltac Zify.zify_convert_to_euclidean_division_equations_flag ::= constr:(true).

(* ================================================================= *)
(** ** Bytes and JavaScript strings *)

(** A [Buffer]: a sequence of octets. *)
Definition Buffer := list N.

(** A JavaScript string: a sequence of UTF-16 code units. *)
Definition jsstring := list N.

Definition is_bytes (l : list N) : Prop := Forall (fun b => b < 256) l.

(** Every element is a 16-bit code unit. *)
Definition is_jsstring (s : jsstring) : Prop := Forall (fun u => u < 65536) s.

(** An ASCII literal of the source as a JavaScript string. *)
Definition lit (s : string) : jsstring :=
  map N_of_ascii (list_ascii_of_string s).

(** [String.prototype.substring(start, end)] for non-negative integer
    arguments: the arguments are swapped when [start > end] and clamped to
    the length of the string. *)
Definition substring (s : jsstring) (i j : nat) : jsstring :=
  firstn (Nat.max i j - Nat.min i j) (skipn (Nat.min i j) s).

(* ================================================================= *)
(** ** Hexadecimal encoding ([Buffer] <-> 'hex') *)

Module Hex.

Definition digit (d : N) : N := if d <? 10 then 48 + d else 87 + d.

Definition of_byte (b : N) : jsstring := [digit (b / 16); digit (b mod 16)].

(** [buf.toString('hex')]: two lower-case digits per byte. *)
Definition encode (b : Buffer) : jsstring := flat_map of_byte b.

(** Value of a hexadecimal digit; both letter cases are accepted. *)
Definition value (c : N) : option N :=
  if (48 <=? c) && (c <=? 57) then Some (c - 48)
  else if (97 <=? c) && (c <=? 102) then Some (c - 87)
  else if (65 <=? c) && (c <=? 70) then Some (c - 55)
  else None.

(** The bytes of a string argument given with the encoding 'hex': of every
    code unit only the low 8 bits are looked at, and decoding stops at the
    first pair that is not made of two hexadecimal digits.  A single last
    character is not decoded; [update] refuses a string of odd length before
    it comes to decoding (see [Crypto.validateEncoding]). *)
Fixpoint decode (s : jsstring) : Buffer :=
  match s with
  | h :: l :: rest =>
      match value (h mod 256), value (l mod 256) with
      | Some a, Some b => (16 * a + b) :: decode rest
      | _, _ => []
      end
  | _ => []
  end.

End Hex.

(* ================================================================= *)
(** ** Base64 encoding ([buf.toString('base64')]) *)

Module Base64.

Definition alphabet : jsstring :=
  lit "ABCDEFGHIJKLMNOPQRSTUVWXYZabcdefghijklmnopqrstuvwxyz0123456789+/".

(** The padding character '='. *)
Definition pad : N := 61.

Definition char (v : N) : N := nth (N.to_nat v) alphabet 65.

Fixpoint encode (b : Buffer) : jsstring :=
  match b with
  | [] => []
  | [x] => [char (x / 4); char ((x mod 4) * 16); pad; pad]
  | [x; y] =>
      [char (x / 4); char ((x mod 4) * 16 + y / 16); char ((y mod 16) * 4); pad]
  | x :: y :: z :: rest =>
      char (x / 4) :: char ((x mod 4) * 16 + y / 16)
        :: char ((y mod 16) * 4 + z / 64) :: char (z mod 64) :: encode rest
  end.

End Base64.

(* ================================================================= *)
(** ** UTF-8 ([Buffer.from(s, 'utf8')] and the 'utf8' [StringDecoder]) *)

Module Utf8.

Definition replacement : N := 0xFFFD.

Definition is_high_surrogate (u : N) : bool := (0xD800 <=? u) && (u <=? 0xDBFF).
Definition is_low_surrogate (u : N) : bool := (0xDC00 <=? u) && (u <=? 0xDFFF).

Definition of_code_point (cp : N) : Buffer :=
  if cp <? 0x80 then [cp]
  else if cp <? 0x800 then [0xC0 + cp / 64; 0x80 + cp mod 64]
  else if cp <? 0x10000 then
    [0xE0 + cp / 4096; 0x80 + (cp / 64) mod 64; 0x80 + cp mod 64]
  else
    [0xF0 + cp / 262144; 0x80 + (cp / 4096) mod 64;
     0x80 + (cp / 64) mod 64; 0x80 + cp mod 64].

(** [Buffer.from(s, 'utf8')]: a surrogate pair is one code point of four
    bytes; a surrogate that is not part of a pair is written as U+FFFD. *)
Fixpoint encode (s : jsstring) : Buffer :=
  match s with
  | [] => []
  | u :: rest =>
      if is_high_surrogate u then
        match rest with
        | l :: rest' =>
            if is_low_surrogate l then
              of_code_point (0x10000 + (u - 0xD800) * 1024 + (l - 0xDC00))
                ++ encode rest'
            else of_code_point replacement ++ encode rest
        | [] => of_code_point replacement
        end
      else if is_low_surrogate u then of_code_point replacement ++ encode rest
      else of_code_point u ++ encode rest
  end.

(** The code units of a code point. *)
Definition units (cp : N) : jsstring :=
  if cp <? 0x10000 then [cp]
  else [0xD800 + (cp - 0x10000) / 1024; 0xDC00 + (cp - 0x10000) mod 1024].

(** State of the decoder between two bytes: [Idle], or inside a sequence with
    [need] continuation bytes to come, the bits read so far and the range
    allowed for the next byte. *)
Inductive state : Type :=
| Idle
| Pending (need : nat) (acc lo hi : N).

Definition start (b : N) : jsstring * state :=
  if b <? 0x80 then ([b], Idle)
  else if (0xC2 <=? b) && (b <=? 0xDF) then ([], Pending 1 (b - 0xC0) 0x80 0xBF)
  else if (0xE0 <=? b) && (b <=? 0xEF) then
    ([], Pending 2 (b - 0xE0)
           (if b =? 0xE0 then 0xA0 else 0x80)
           (if b =? 0xED then 0x9F else 0xBF))
  else if (0xF0 <=? b) && (b <=? 0xF4) then
    ([], Pending 3 (b - 0xF0)
           (if b =? 0xF0 then 0x90 else 0x80)
           (if b =? 0xF4 then 0x8F else 0xBF))
  else ([replacement], Idle).

Definition step (st : state) (b : N) : jsstring * state :=
  match st with
  | Idle => start b
  | Pending need acc lo hi =>
      if (lo <=? b) && (b <=? hi) then
        let acc' := acc * 64 + (b - 0x80) in
        match need with
        | S (S n) => ([], Pending (S n) acc' 0x80 0xBF)
        | _ => (units acc', Idle)
        end
      else
        let (out, st') := start b in (replacement :: out, st')
  end.

(** [StringDecoder.prototype.write]: the characters completed by the chunk;
    an unfinished sequence stays in the decoder. *)
Fixpoint write (st : state) (chunk : Buffer) : jsstring * state :=
  match chunk with
  | [] => ([], st)
  | b :: rest =>
      let (o1, st1) := step st b in
      let (o2, st2) := write st1 rest in
      (o1 ++ o2, st2)
  end.

Definition flush (st : state) : jsstring :=
  match st with
  | Idle => []
  | Pending _ _ _ _ => [replacement]
  end.

(** [StringDecoder.prototype.end]: an unfinished sequence becomes U+FFFD. *)
Definition finish (st : state) (chunk : Buffer) : jsstring :=
  let (o, st') := write st chunk in o ++ flush st'.

(** [buf.toString('utf8')]. *)
Definition decode (b : Buffer) : jsstring := finish Idle b.

(** No surrogate outside a pair, every unit a 16-bit number. *)
Fixpoint well_formed (s : jsstring) : bool :=
  match s with
  | [] => true
  | u :: rest =>
      if is_high_surrogate u then
        match rest with
        | l :: rest' => is_low_surrogate l && well_formed rest'
        | [] => false
        end
      else negb (is_low_surrogate u) && (u <? 0x10000) && well_formed rest
  end.

End Utf8.

(* ================================================================= *)
(** ** AES-256, the block cipher behind 'aes-256-cbc' (FIPS 197) *)

Module AES.

Definition sbox_table : list N :=
  [ 99; 124; 119; 123; 242; 107; 111; 197; 48; 1; 103; 43; 254; 215; 171; 118;
    202; 130; 201; 125; 250; 89; 71; 240; 173; 212; 162; 175; 156; 164; 114; 192;
    183; 253; 147; 38; 54; 63; 247; 204; 52; 165; 229; 241; 113; 216; 49; 21;
    4; 199; 35; 195; 24; 150; 5; 154; 7; 18; 128; 226; 235; 39; 178; 117;
    9; 131; 44; 26; 27; 110; 90; 160; 82; 59; 214; 179; 41; 227; 47; 132;
    83; 209; 0; 237; 32; 252; 177; 91; 106; 203; 190; 57; 74; 76; 88; 207;
    208; 239; 170; 251; 67; 77; 51; 133; 69; 249; 2; 127; 80; 60; 159; 168;
    81; 163; 64; 143; 146; 157; 56; 245; 188; 182; 218; 33; 16; 255; 243; 210;
    205; 12; 19; 236; 95; 151; 68; 23; 196; 167; 126; 61; 100; 93; 25; 115;
    96; 129; 79; 220; 34; 42; 144; 136; 70; 238; 184; 20; 222; 94; 11; 219;
    224; 50; 58; 10; 73; 6; 36; 92; 194; 211; 172; 98; 145; 149; 228; 121;
    231; 200; 55; 109; 141; 213; 78; 169; 108; 86; 244; 234; 101; 122; 174; 8;
    186; 120; 37; 46; 28; 166; 180; 198; 232; 221; 116; 31; 75; 189; 139; 138;
    112; 62; 181; 102; 72; 3; 246; 14; 97; 53; 87; 185; 134; 193; 29; 158;
    225; 248; 152; 17; 105; 217; 142; 148; 155; 30; 135; 233; 206; 85; 40; 223;
    140; 161; 137; 13; 191; 230; 66; 104; 65; 153; 45; 15; 176; 84; 187; 22 ].

Definition inv_sbox_table : list N :=
  [ 82; 9; 106; 213; 48; 54; 165; 56; 191; 64; 163; 158; 129; 243; 215; 251;
    124; 227; 57; 130; 155; 47; 255; 135; 52; 142; 67; 68; 196; 222; 233; 203;
    84; 123; 148; 50; 166; 194; 35; 61; 238; 76; 149; 11; 66; 250; 195; 78;
    8; 46; 161; 102; 40; 217; 36; 178; 118; 91; 162; 73; 109; 139; 209; 37;
    114; 248; 246; 100; 134; 104; 152; 22; 212; 164; 92; 204; 93; 101; 182; 146;
    108; 112; 72; 80; 253; 237; 185; 218; 94; 21; 70; 87; 167; 141; 157; 132;
    144; 216; 171; 0; 140; 188; 211; 10; 247; 228; 88; 5; 184; 179; 69; 6;
    208; 44; 30; 143; 202; 63; 15; 2; 193; 175; 189; 3; 1; 19; 138; 107;
    58; 145; 17; 65; 79; 103; 220; 234; 151; 242; 207; 206; 240; 180; 230; 115;
    150; 172; 116; 34; 231; 173; 53; 133; 226; 249; 55; 232; 28; 117; 223; 110;
    71; 241; 26; 113; 29; 41; 197; 137; 111; 183; 98; 14; 170; 24; 190; 27;
    252; 86; 62; 75; 198; 210; 121; 32; 154; 219; 192; 254; 120; 205; 90; 244;
    31; 221; 168; 51; 136; 7; 199; 49; 177; 18; 16; 89; 39; 128; 236; 95;
    96; 81; 127; 169; 25; 181; 74; 13; 45; 229; 122; 159; 147; 201; 156; 239;
    160; 224; 59; 77; 174; 42; 245; 176; 200; 235; 187; 60; 131; 83; 153; 97;
    23; 43; 4; 126; 186; 119; 214; 38; 225; 105; 20; 99; 85; 33; 12; 125 ].

Definition sbox (b : N) : N := nth (N.to_nat b) sbox_table 0.
Definition inv_sbox (b : N) : N := nth (N.to_nat b) inv_sbox_table 0.

(** Exclusive or of two octets. *)
Definition xor8 (a b : N) : N := N.lxor a b mod 256.

(** Exclusive or of a block with a key block; a short key counts as
    extended with zeros. *)
Fixpoint xor_block (a k : list N) : list N :=
  match a with
  | [] => []
  | x :: a' => xor8 x (hd 0 k) :: xor_block a' (tl k)
  end.

(** Multiplication by x in GF(2^8) modulo x^8 + x^4 + x^3 + x + 1. *)
Definition xtime (b : N) : N :=
  if b <? 128 then 2 * b else N.lxor (2 * b - 256) 27.

Definition gmul2 (b : N) : N := xtime b.
Definition gmul3 (b : N) : N := N.lxor (xtime b) b.
Definition gmul9 (b : N) : N := N.lxor (xtime (xtime (xtime b))) b.
Definition gmul11 (b : N) : N :=
  N.lxor (N.lxor (xtime (xtime (xtime b))) (xtime b)) b.
Definition gmul13 (b : N) : N :=
  N.lxor (N.lxor (xtime (xtime (xtime b))) (xtime (xtime b))) b.
Definition gmul14 (b : N) : N :=
  N.lxor (N.lxor (xtime (xtime (xtime b))) (xtime (xtime b))) (xtime b).

Definition sub_bytes (s : list N) : list N := map sbox s.
Definition inv_sub_bytes (s : list N) : list N := map inv_sbox s.

(** The state is stored column by column: byte [r + 4 * c] is row [r] of
    column [c]. *)
Definition shift_rows (s : list N) : list N :=
  match s with
  | [s0; s1; s2; s3; s4; s5; s6; s7; s8; s9; s10; s11; s12; s13; s14; s15] =>
      [s0; s5; s10; s15; s4; s9; s14; s3; s8; s13; s2; s7; s12; s1; s6; s11]
  | _ => s
  end.

Definition inv_shift_rows (s : list N) : list N :=
  match s with
  | [s0; s1; s2; s3; s4; s5; s6; s7; s8; s9; s10; s11; s12; s13; s14; s15] =>
      [s0; s13; s10; s7; s4; s1; s14; s11; s8; s5; s2; s15; s12; s9; s6; s3]
  | _ => s
  end.

Definition mix_column (a b c d : N) : list N :=
  [ N.lxor (N.lxor (N.lxor (gmul2 a) (gmul3 b)) c) d;
    N.lxor (N.lxor (N.lxor a (gmul2 b)) (gmul3 c)) d;
    N.lxor (N.lxor (N.lxor a b) (gmul2 c)) (gmul3 d);
    N.lxor (N.lxor (N.lxor (gmul3 a) b) c) (gmul2 d) ].

Definition inv_mix_column (a b c d : N) : list N :=
  [ N.lxor (N.lxor (N.lxor (gmul14 a) (gmul11 b)) (gmul13 c)) (gmul9 d);
    N.lxor (N.lxor (N.lxor (gmul9 a) (gmul14 b)) (gmul11 c)) (gmul13 d);
    N.lxor (N.lxor (N.lxor (gmul13 a) (gmul9 b)) (gmul14 c)) (gmul11 d);
    N.lxor (N.lxor (N.lxor (gmul11 a) (gmul13 b)) (gmul9 c)) (gmul14 d) ].

Fixpoint mix_columns (s : list N) : list N :=
  match s with
  | a :: b :: c :: d :: rest => mix_column a b c d ++ mix_columns rest
  | _ => []
  end.

Fixpoint inv_mix_columns (s : list N) : list N :=
  match s with
  | a :: b :: c :: d :: rest => inv_mix_column a b c d ++ inv_mix_columns rest
  | _ => []
  end.

Definition rot_word (w : list N) : list N :=
  match w with
  | [a; b; c; d] => [b; c; d; a]
  | _ => w
  end.

Definition sub_word (w : list N) : list N := map sbox w.

Definition rcon (i : nat) : N := nth i [0; 1; 2; 4; 8; 16; 32; 64] 0.

Fixpoint words (bs : list N) : list (list N) :=
  match bs with
  | a :: b :: c :: d :: rest => [a; b; c; d] :: words rest
  | _ => []
  end.

(** Key expansion for Nk = 8: word [i] is word [i - 8] xor a function of
    word [i - 1]. [ws] holds the [i] words computed so far. *)
Fixpoint expand (n i : nat) (ws : list (list N)) : list (list N) :=
  match n with
  | O => ws
  | S n' =>
      let prev := nth (i - 1) ws [] in
      let temp :=
        if (i mod 8 =? 0)%nat then
          xor_block (sub_word (rot_word prev)) [rcon (i / 8)]
        else if (i mod 8 =? 4)%nat then sub_word prev
        else prev in
      expand n' (S i) (ws ++ [xor_block (nth (i - 8) ws []) temp])
  end.

Fixpoint round_keys_of (ws : list (list N)) : list (list N) :=
  match ws with
  | w0 :: w1 :: w2 :: w3 :: rest => (w0 ++ w1 ++ w2 ++ w3) :: round_keys_of rest
  | _ => []
  end.

(** The fifteen round keys of a 32-byte key. *)
Definition key_expansion (key : list N) : list (list N) :=
  round_keys_of (expand 52 8 (words key)).

Definition add_round_key (s k : list N) : list N := xor_block s k.

Definition round (s k : list N) : list N :=
  add_round_key (mix_columns (shift_rows (sub_bytes s))) k.
Definition final_round (s k : list N) : list N :=
  add_round_key (shift_rows (sub_bytes s)) k.
Definition inv_round (s k : list N) : list N :=
  inv_sub_bytes (inv_shift_rows (inv_mix_columns (add_round_key s k))).
Definition inv_final_round (s k : list N) : list N :=
  inv_sub_bytes (inv_shift_rows (add_round_key s k)).

(** All rounds after the initial key addition; the last one has no
    MixColumns. *)
Fixpoint rounds (ks : list (list N)) (s : list N) : list N :=
  match ks with
  | [] => s
  | k :: ks' =>
      match ks' with
      | [] => final_round s k
      | _ => rounds ks' (round s k)
      end
  end.

Fixpoint inv_rounds (ks : list (list N)) (s : list N) : list N :=
  match ks with
  | [] => s
  | k :: ks' =>
      match ks' with
      | [] => inv_final_round s k
      | _ => inv_round (inv_rounds ks' s) k
      end
  end.

Definition cipher (ks : list (list N)) (s : list N) : list N :=
  match ks with
  | [] => s
  | k0 :: ks' => rounds ks' (add_round_key s k0)
  end.

Definition inv_cipher (ks : list (list N)) (s : list N) : list N :=
  match ks with
  | [] => s
  | k0 :: ks' => add_round_key (inv_rounds ks' s) k0
  end.

Definition encrypt_block (key block : list N) : list N :=
  cipher (key_expansion key) block.
Definition decrypt_block (key block : list N) : list N :=
  inv_cipher (key_expansion key) block.

End AES.

(* ================================================================= *)
(** ** Exceptions and the process state *)

(** The exceptions of Node.js that the calls made by the class can raise; the
    class defines no error of its own.  The failures of the random source and
    of scrypt carry the code reported by the provider. *)
Inductive NodeError : Type :=
| RandomBytesFailed (code : N)  (* crypto.randomBytes: error of the entropy source *)
| ScryptFailed (code : N)       (* crypto.scryptSync: error of the derivation *)
| UnknownCipher                 (* createCipheriv: ERR_CRYPTO_UNKNOWN_CIPHER *)
| InvalidIV                     (* createCipheriv: TypeError ERR_CRYPTO_INVALID_IV *)
| InvalidKeyLength              (* createCipheriv: RangeError ERR_CRYPTO_INVALID_KEYLEN *)
| InvalidArgValue               (* update: TypeError ERR_INVALID_ARG_VALUE,
                                   hexadecimal data of odd length *)
| WrongFinalBlockLength         (* final: wrong final block length *)
| BadDecrypt.                   (* final: bad decrypt, the padding check failed *)

Inductive outcome (A : Type) : Type :=
| Ok (a : A)
| Throw (e : NodeError).
Arguments Ok {A} a.
Arguments Throw {A} e.

(** What the platform supplies and the repository does not contain: the
    entropy source behind [crypto.randomBytes] and the scrypt function behind
    [crypto.scryptSync] (with Node's default cost parameters).  Both report a
    failure as [inl code]. *)
Class CryptoProvider : Type := {
  Entropy : Type;
  entropy_read : nat -> Entropy -> N + (Buffer * Entropy);
  scrypt : Buffer -> Buffer -> nat -> N + Buffer
}.

Section Process.

Context {provider : CryptoProvider}.

(** The state a run of the program acts on: the entropy source and the lines
    written to the console so far. *)
Record Process : Type := {
  entropy : Entropy;
  console : list jsstring
}.

(** A computation that may read and change the process state and may throw;
    the state reached before a throw is kept. *)
Definition M (A : Type) : Type := Process -> outcome A * Process.

Definition ret {A} (a : A) : M A := fun p => (Ok a, p).

Definition bind {A B} (m : M A) (k : A -> M B) : M B :=
  fun p =>
    match m p with
    | (Ok a, p') => k a p'
    | (Throw e, p') => (Throw e, p')
    end.

(** A call that does not touch the process state. *)
Definition lift {A} (o : outcome A) : M A := fun p => (o, p).

(** [console.log(line)]. *)
Definition console_log (line : jsstring) : M unit :=
  fun p => (Ok tt, {| entropy := entropy p; console := console p ++ [line] |}).

End Process.

Notation "x <- m ;; k" := (bind m (fun x => k))
  (at level 61, m at next level, right associativity).
Notation "m ;;; k" := (bind m (fun _ => k))
  (at level 61, right associativity).

(* ================================================================= *)
(** ** The Node.js [crypto] interface used by the class *)

Module Crypto.

Section WithProvider.

Context {provider : CryptoProvider}.

(** [crypto.randomBytes(size)]. *)
Definition randomBytes (size : nat) : M Buffer :=
  fun p =>
    match entropy_read size (entropy p) with
    | inr (bytes, e') => (Ok bytes, {| entropy := e'; console := console p |})
    | inl code => (Throw (RandomBytesFailed code), p)
    end.

(** [crypto.scryptSync(password, salt, keylen)]; strings are taken as their
    UTF-8 encoding. *)
Definition scryptSync (password salt : jsstring) (keylen : nat) : outcome Buffer :=
  match scrypt (Utf8.encode password) (Utf8.encode salt) keylen with
  | inr key => Ok key
  | inl code => Throw (ScryptFailed code)
  end.

End WithProvider.

(** The encodings named by the class. *)
Inductive Encoding : Type := utf8 | hex.

(** A string argument of [update] as bytes. *)
Definition from_string (s : jsstring) (e : Encoding) : Buffer :=
  match e with
  | utf8 => Utf8.encode s
  | hex => Hex.decode s
  end.

(** The output side of [update] and [final] is a [StringDecoder]; only the
    'utf8' decoder keeps state between calls. *)
Definition decoder_write (e : Encoding) (st : Utf8.state) (b : Buffer)
  : jsstring * Utf8.state :=
  match e with
  | utf8 => Utf8.write st b
  | hex => (Hex.encode b, st)
  end.

Definition decoder_end (e : Encoding) (st : Utf8.state) (b : Buffer) : jsstring :=
  match e with
  | utf8 => Utf8.finish st b
  | hex => Hex.encode b
  end.

(** Cuts [acc ++ data] into 16-byte blocks; [acc] is the block being filled.
    Returns the complete blocks and the bytes left over. *)
Fixpoint split_blocks (acc data : list N) : list (list N) * list N :=
  match data with
  | [] => ([], acc)
  | b :: rest =>
      let acc' := acc ++ [b] in
      if (length acc' =? 16)%nat then
        let (bs, r) := split_blocks [] rest in (acc' :: bs, r)
      else split_blocks acc' rest
  end.

(** Cipher block chaining over a block cipher: each plaintext block is xored
    with the previous ciphertext block (first the IV) and encrypted.  Returns
    the ciphertext blocks and the new chaining block. *)
Section Chaining.

Variables encrypt_block decrypt_block : list N -> list N -> list N.

Fixpoint cbc_encrypt_with (key chain : list N) (blocks : list (list N))
  : list (list N) * list N :=
  match blocks with
  | [] => ([], chain)
  | p :: ps =>
      let c := encrypt_block key (AES.xor_block p chain) in
      let (cs, chain') := cbc_encrypt_with key c ps in
      (c :: cs, chain')
  end.

Fixpoint cbc_decrypt_with (key chain : list N) (blocks : list (list N))
  : list (list N) * list N :=
  match blocks with
  | [] => ([], chain)
  | c :: cs =>
      let p := AES.xor_block (decrypt_block key c) chain in
      let (ps, chain') := cbc_decrypt_with key c cs in
      (p :: ps, chain')
  end.

End Chaining.

Definition cbc_encrypt := cbc_encrypt_with AES.encrypt_block.
Definition cbc_decrypt := cbc_decrypt_with AES.decrypt_block.

(** PKCS#7: [n] bytes of value [n] fill the last block, [1 <= n <= 16]. *)
Definition pkcs7_pad (partial : list N) : list N :=
  partial ++ repeat (N.of_nat (16 - length partial)) (16 - length partial).

(** The check made on the last decrypted block; [None] when the padding is
    malformed. *)
Definition pkcs7_unpad (block : list N) : option (list N) :=
  let n := last block 0 in
  if (n =? 0) || (16 <? n) then None
  else if forallb (N.eqb n) (skipn (16 - N.to_nat n) block)
  then Some (firstn (16 - N.to_nat n) block)
  else None.

(** A [crypto.Cipher] for 'aes-256-cbc'. *)
Record Cipher : Type := {
  cipher_key : list N;
  cipher_chain : list N;            (* previous ciphertext block, first the IV *)
  cipher_partial : list N;          (* bytes of an incomplete block *)
  cipher_decoder : Utf8.state
}.

(** A [crypto.Decipher] for 'aes-256-cbc'. *)
Record Decipher : Type := {
  decipher_key : list N;
  decipher_chain : list N;
  decipher_partial : list N;
  decipher_held : option (list N);  (* last decrypted block, kept for [final] *)
  decipher_decoder : Utf8.state
}.

(** The checks of [createCipheriv] and [createDecipheriv]: the algorithm must
    be known, the IV must have the block size, the key 32 bytes. *)
Definition check_init (algorithm : string) (key iv : jsstring)
  : outcome (list N * list N) :=
  if negb (String.eqb algorithm "aes-256-cbc") then Throw UnknownCipher
  else if negb (length (Utf8.encode iv) =? 16)%nat then Throw InvalidIV
  else if negb (length (Utf8.encode key) =? 32)%nat then Throw InvalidKeyLength
  else Ok (Utf8.encode key, Utf8.encode iv).

(** [crypto.createCipheriv(algorithm, key, iv)] with string key and IV. *)
Definition createCipheriv (algorithm : string) (key iv : jsstring) : outcome Cipher :=
  match check_init algorithm key iv with
  | Ok (k, v) =>
      Ok {| cipher_key := k; cipher_chain := v; cipher_partial := [];
            cipher_decoder := Utf8.Idle |}
  | Throw e => Throw e
  end.

(** [crypto.createDecipheriv(algorithm, key, iv)]. *)
Definition createDecipheriv (algorithm : string) (key iv : jsstring) : outcome Decipher :=
  match check_init algorithm key iv with
  | Ok (k, v) =>
      Ok {| decipher_key := k; decipher_chain := v; decipher_partial := [];
            decipher_held := None; decipher_decoder := Utf8.Idle |}
  | Throw e => Throw e
  end.

(** [validateEncoding(data, inputEncoding)], the first step of [update] on a
    string: hexadecimal data must have an even number of code units. *)
Definition validateEncoding (data : jsstring) (input : Encoding) : outcome unit :=
  match input with
  | hex => if Nat.even (length data) then Ok tt else Throw InvalidArgValue
  | utf8 => Ok tt
  end.

(** What [cipher.update] does with data that passed the check: every
    complete block is encrypted and returned, the rest waits in the
    object. *)
Definition cipher_handle_update (c : Cipher) (data : jsstring)
    (input output : Encoding) : jsstring * Cipher :=
  let (blocks, rest) := split_blocks (cipher_partial c) (from_string data input) in
  let (out, chain) := cbc_encrypt (cipher_key c) (cipher_chain c) blocks in
  let (text, dec) := decoder_write output (cipher_decoder c) (concat out) in
  (text, {| cipher_key := cipher_key c; cipher_chain := chain;
            cipher_partial := rest; cipher_decoder := dec |}).

(** [cipher.update(data, inputEncoding, outputEncoding)]. *)
Definition cipher_update (c : Cipher) (data : jsstring) (input output : Encoding)
  : outcome (jsstring * Cipher) :=
  match validateEncoding data input with
  | Ok _ => Ok (cipher_handle_update c data input output)
  | Throw e => Throw e
  end.

(** [cipher.final(outputEncoding)]: the padded last block. *)
Definition cipher_final (c : Cipher) (output : Encoding) : jsstring :=
  let (out, _) :=
    cbc_encrypt (cipher_key c) (cipher_chain c) [pkcs7_pad (cipher_partial c)] in
  decoder_end output (cipher_decoder c) (concat out).

(** What [decipher.update] does with data that passed the check: every
    complete block is decrypted; when the data ends on a block boundary the
    last decrypted block is held back, because it may be the padding
    block. *)
Definition decipher_handle_update (d : Decipher) (data : jsstring)
    (input output : Encoding) : jsstring * Decipher :=
  match from_string data input with
  | [] => ([], d)
  | bytes =>
      let (blocks, rest) := split_blocks (decipher_partial d) bytes in
      let (plain, chain) := cbc_decrypt (decipher_key d) (decipher_chain d) blocks in
      let all := match decipher_held d with Some h => h :: plain | None => plain end in
      let emitted := match rest with [] => removelast all | _ => all end in
      let held := match rest with [] => Some (last all []) | _ => None end in
      let (text, dec) := decoder_write output (decipher_decoder d) (concat emitted) in
      (text, {| decipher_key := decipher_key d; decipher_chain := chain;
                decipher_partial := rest; decipher_held := held;
                decipher_decoder := dec |})
  end.

(** [decipher.update(data, inputEncoding, outputEncoding)]: a hexadecimal
    string of odd length is refused before anything is decrypted. *)
Definition decipher_update (d : Decipher) (data : jsstring) (input output : Encoding)
  : outcome (jsstring * Decipher) :=
  match validateEncoding data input with
  | Ok _ => Ok (decipher_handle_update d data input output)
  | Throw e => Throw e
  end.

(** [decipher.final(outputEncoding)]: fails unless exactly one block is held
    and its padding is well formed; returns the block without the padding. *)
Definition decipher_final (d : Decipher) (output : Encoding) : outcome jsstring :=
  match decipher_partial d, decipher_held d with
  | [], Some block =>
      match pkcs7_unpad block with
      | Some bytes => Ok (decoder_end output (decipher_decoder d) bytes)
      | None => Throw BadDecrypt
      end
  | _, _ => Throw WrongFinalBlockLength
  end.

End Crypto.

(* ================================================================= *)
(** ** The value objects of [./domainObject] *)

(** Modelled from the spec: the classes [Password], [Salt],
    [InitializationVector] and [CommonKey] are imported from
    [./domainObject/], which is not part of the sources at hand.  The spec
    describes them as trivial typed wrappers, immutable once constructed; the
    class reads them back through [value].  Each is a record with that one
    field. *)
Record Password : Type := new_Password { Password_value : jsstring }.
Record Salt : Type := new_Salt { Salt_value : jsstring }.
Record InitializationVector : Type :=
  new_InitializationVector { InitializationVector_value : jsstring }.
Record CommonKey : Type := new_CommonKey { CommonKey_value : jsstring }.

(* ================================================================= *)
(** ** The class [CryptographProcessor] *)

Module CryptographProcessor.

Definition algorithm : string := "aes-256-cbc".
Definition keyLength : nat := 32.
Definition inputEncoding : Crypto.Encoding := Crypto.utf8.
Definition outputEncoding : Crypto.Encoding := Crypto.hex.

(** The labels of the two last console lines. *)
Definition label_encrypted : jsstring :=
  [26263; 21495; 21270; 12375; 12383; 12487; 12540; 12479; 58; 32].
Definition label_decrypted : jsstring :=
  [35079; 21512; 21270; 12375; 12383; 12487; 12540; 12479; 58; 32].

Section WithProvider.

Context {provider : CryptoProvider}.

(** [crypto.randomBytes(size).toString('base64').substring(0, size)] *)
Definition createRandomBytes (size : nat) : M jsstring :=
  bytes <- Crypto.randomBytes size ;;
  ret (substring (Base64.encode bytes) 0 size).

(** [crypto.scryptSync(password.value, salt.value, this.keyLength)
       .toString('base64').substring(0, this.keyLength)] *)
Definition createCommonKey (password : Password) (salt : Salt) : M CommonKey :=
  derived <- lift (Crypto.scryptSync (Password_value password)
                     (Salt_value salt) keyLength) ;;
  let key := substring (Base64.encode derived) 0 keyLength in
  let commonKey := new_CommonKey key in
  ret commonKey.

Definition createCipher (commonKey : CommonKey) (iv : InitializationVector)
  : M Crypto.Cipher :=
  lift (Crypto.createCipheriv algorithm (CommonKey_value commonKey)
          (InitializationVector_value iv)).

Definition createDecipher (commonKey : CommonKey) (iv : InitializationVector)
  : M Crypto.Decipher :=
  lift (Crypto.createDecipheriv algorithm (CommonKey_value commonKey)
          (InitializationVector_value iv)).

(** [update] followed by [final] on the same cipher object. *)
Definition encryption (cipher : Crypto.Cipher) (target : jsstring) : M jsstring :=
  updated <- lift (Crypto.cipher_update cipher target inputEncoding outputEncoding) ;;
  let (encryptionedData, cipher') := updated in
  ret (encryptionedData ++ Crypto.cipher_final cipher' outputEncoding).

(** [update] followed by [final] on the same decipher object; [update]
    throws on a text of odd length and [final] is then not reached. *)
Definition decryption (decipher : Crypto.Decipher) (target : jsstring) : M jsstring :=
  updated <- lift (Crypto.decipher_update decipher target outputEncoding inputEncoding) ;;
  let (decryptionData, decipher') := updated in
  tail <- lift (Crypto.decipher_final decipher' inputEncoding) ;;
  ret (decryptionData ++ tail).

Definition main (target : jsstring) : M (list jsstring) :=
  r1 <- createRandomBytes 16 ;;
  let password := new_Password r1 in
  r2 <- createRandomBytes 16 ;;
  let salt := new_Salt r2 in
  r3 <- createRandomBytes 16 ;;
  let iv := new_InitializationVector r3 in
  console_log (lit "password.value: " ++ Password_value password) ;;;
  console_log (lit "salt.value: " ++ Salt_value salt) ;;;
  console_log (lit "iv.value: " ++ InitializationVector_value iv) ;;;
  commonKey <- createCommonKey password salt ;;
  console_log (lit "commonKey: " ++ CommonKey_value commonKey) ;;;
  cipher <- createCipher commonKey iv ;;
  encryptionedData <- encryption cipher target ;;
  decipher <- createDecipher commonKey iv ;;
  decryptionedData <- decryption decipher encryptionedData ;;
  console_log (label_encrypted ++ encryptionedData) ;;;
  console_log (label_decrypted ++ decryptionedData) ;;;
  ret [encryptionedData; decryptionedData].

End WithProvider.

End CryptographProcessor.

(* ================================================================= *)
(** ** The program [index.ts] *)

Module Index.

Definition input : jsstring := lit "test".

(** The label of the first console line. *)
Definition label_input : jsstring :=
  [26263; 21495; 21270; 12377; 12427; 25991; 23383; 21015; 58; 32].

(** An array in a template literal: its elements joined by commas. *)
Fixpoint join (l : list jsstring) : jsstring :=
  match l with
  | [] => []
  | x :: rest =>
      match rest with
      | [] => x
      | _ => x ++ 44 :: join rest
      end
  end.

Definition run {provider : CryptoProvider} : M unit :=
  console_log (label_input ++ input) ;;;
  result <- CryptographProcessor.main input ;;
  console_log (lit "result: " ++ join result).

End Index.

(* ================================================================= *)
(** ** Providers used to run the model *)

(** A reproducible provider in the sense of the spec's test doubles: the
    entropy source is a counter, the key derivation mixes password, salt and
    position.  Neither ever fails. *)
Definition counter_bytes (n start : nat) : Buffer :=
  map (fun i => N.of_nat ((37 * (start + i) + 11) mod 256)) (seq 0 n).

Definition mix_kdf (password salt : Buffer) (n : nat) : Buffer :=
  map (fun i => (nth i password 0 + 3 * nth i salt 0 + 7 * N.of_nat i) mod 256)
      (seq 0 n).

#[local] Instance counter_provider : CryptoProvider := {|
  Entropy := nat;
  entropy_read n e := inr (counter_bytes n e, (e + n)%nat);
  scrypt p s n := inr (mix_kdf p s n)
|}.


Definition start_process {provider : CryptoProvider} (e : Entropy) : Process :=
  {| entropy := e; console := [] |}.

(* ================================================================= *)
(** ** Vocabulary of the statements *)

(** A character of the Base64 alphabet (the 64 symbols, not the padding). *)
Definition base64_char (c : N) : Prop := In c Base64.alphabet.

(** A Unicode scalar value: a code point that is not a surrogate. *)
Definition scalar (cp : N) : Prop :=
  cp < 0x110000 /\ (cp < 0xD800 \/ 0xDFFF < cp).

(** A string with every surrogate that is not part of a pair replaced by
    U+FFFD. *)
Fixpoint scrub (s : jsstring) : jsstring :=
  match s with
  | [] => []
  | u :: rest =>
      if Utf8.is_high_surrogate u then
        match rest with
        | l :: rest' =>
            if Utf8.is_low_surrogate l then u :: l :: scrub rest'
            else Utf8.replacement :: scrub rest
        | [] => [Utf8.replacement]
        end
      else if Utf8.is_low_surrogate u then Utf8.replacement :: scrub rest
      else u :: scrub rest
  end.

(** A string in which the replacement character U+FFFD does not occur. *)
Definition clean (s : jsstring) : Prop := ~ In Utf8.replacement s.

(** The 256 octets. *)
Definition all_bytes : list N := map N.of_nat (seq 0 256).

(** A function on octets that distributes over exclusive or. *)
Definition additive (f : N -> N) : Prop :=
  forall a b, a < 256 -> b < 256 -> f (N.lxor a b) = N.lxor (f a) (f b).

Definition block_sized (b : list N) : Prop := length b = 16%nat.

(** A block of the cipher: 16 octets. *)
Definition is_block (s : list N) : Prop := length s = 16%nat /\ is_bytes s.

(** The bytes that 'aes-256-cbc' produces for a plaintext: the chained
    encryption of its complete blocks followed by the padded last block. *)
Definition cbc_pkcs7 (key iv : list N) (plain : Buffer) : Buffer :=
  let (blocks, rest) := Crypto.split_blocks [] plain in
  concat (fst (Crypto.cbc_encrypt key iv (blocks ++ [Crypto.pkcs7_pad rest]))).

(** A cipher object on which neither [update] nor [final] has been called. *)
Definition fresh_cipher (key iv : list N) : Crypto.Cipher :=
  {| Crypto.cipher_key := key; Crypto.cipher_chain := iv;
     Crypto.cipher_partial := []; Crypto.cipher_decoder := Utf8.Idle |}.

Definition fresh_decipher (key iv : list N) : Crypto.Decipher :=
  {| Crypto.decipher_key := key; Crypto.decipher_chain := iv;
     Crypto.decipher_partial := []; Crypto.decipher_held := None;
     Crypto.decipher_decoder := Utf8.Idle |}.


(** A lower-case hexadecimal digit. *)
Definition hex_char (c : N) : Prop := In c (lit "0123456789abcdef").

(** An ASCII string: every code unit below 128. *)
Definition ascii_string (s : jsstring) : Prop := Forall (fun c => c < 128) s.

(** The upper-case form of a code unit that is an ASCII letter; every other
    code unit is left as it is.  On a string of ASCII characters, mapping it
    over the string is [String.prototype.toUpperCase]. *)
Definition ascii_upper (c : N) : N :=
  if (97 <=? c) && (c <=? 122) then c - 32 else c.

(** A string key and a string IV that [createCipheriv] accepts. *)
Definition valid_pair (commonKey : CommonKey) (iv : InitializationVector) : Prop :=
  length (Utf8.encode (CommonKey_value commonKey)) = 32%nat /\
  length (Utf8.encode (InitializationVector_value iv)) = 16%nat.

(** The six console lines of a run. *)
Definition log_lines (password salt iv key encrypted decrypted : jsstring)
  : list jsstring :=
  [ lit "password.value: " ++ password;
    lit "salt.value: " ++ salt;
    lit "iv.value: " ++ iv;
    lit "commonKey: " ++ key;
    CryptographProcessor.label_encrypted ++ encrypted;
    CryptographProcessor.label_decrypted ++ decrypted ].

(** What the theorems assume of the provider, where they need it. *)
Section Provider_contract.

Context {provider : CryptoProvider}.

(** [crypto.randomBytes(n)] returns [n] bytes. *)
Definition entropy_sized : Prop :=
  forall n e bytes e', entropy_read n e = inr (bytes, e') -> length bytes = n.

(** The entropy source does not fail. *)
Definition entropy_available : Prop :=
  forall n e, exists bytes e', entropy_read n e = inr (bytes, e').

(** [crypto.scryptSync(_, _, n)] returns [n] bytes. *)
Definition scrypt_sized : Prop :=
  forall password salt n key, scrypt password salt n = inr key -> length key = n.

(** The key derivation does not fail. *)
Definition scrypt_available : Prop :=
  forall password salt n, exists key, scrypt password salt n = inr key.

(** The process after a read of the entropy source that left it in [e]. *)
Definition after_read (p : Process) (e : Entropy) : Process :=
  {| entropy := e; console := console p |}.

End Provider_contract.

(** The process in which the examples run: counter at 0, empty console. *)
Definition p0 : @Process counter_provider := @start_process counter_provider 0%nat.

(* ================================================================= *)
(** * Properties *)

(** ** Known answers *)

(** The AES-256 example vector of FIPS 197, appendix C.3. *)
Example aes256_fips197 :
  AES.encrypt_block (map N.of_nat (seq 0 32))
    [0x00; 0x11; 0x22; 0x33; 0x44; 0x55; 0x66; 0x77;
     0x88; 0x99; 0xaa; 0xbb; 0xcc; 0xdd; 0xee; 0xff]
  = [0x8e; 0xa2; 0xb7; 0xca; 0x51; 0x67; 0x45; 0xbf;
     0xea; 0xfc; 0x49; 0x90; 0x4b; 0x49; 0x60; 0x89].
Proof. vm_compute. reflexivity. Qed.

(** AES-256-CBC with PKCS#7 padding of "test" under the key of 32 letters A
    and the IV of 16 letters A, as OpenSSL computes it. *)
Example aes256_cbc_test :
  Hex.encode (cbc_pkcs7 (lit "AAAAAAAAAAAAAAAAAAAAAAAAAAAAAAAA")
                (lit "AAAAAAAAAAAAAAAA") (Utf8.encode (lit "test")))
  = lit "7a58e9d802d0cc12aee75ff93643e77f".
Proof. vm_compute. reflexivity. Qed.

Example base64_text :
  Base64.encode (lit "Many hands make light work.")
  = lit "TWFueSBoYW5kcyBtYWtlIGxpZ2h0IHdvcmsu".
Proof. reflexivity. Qed.

Example base64_padding :
  Base64.encode (lit "a") = lit "YQ==" /\ Base64.encode (lit "ab") = lit "YWI=".
Proof. split; reflexivity. Qed.

(** U+20AC takes three bytes, the pair D83D DE00 (U+1F600) four, and a
    surrogate outside a pair becomes U+FFFD. *)
Example utf8_encode_samples :
  Utf8.encode [0x20AC] = [0xE2; 0x82; 0xAC] /\
  Utf8.encode [0xD83D; 0xDE00] = [0xF0; 0x9F; 0x98; 0x80] /\
  Utf8.encode [0xDE00] = [0xEF; 0xBF; 0xBD].
Proof. repeat split; reflexivity. Qed.

(** A truncated sequence and a stray continuation byte each decode to one
    U+FFFD. *)
Example utf8_decode_samples :
  Utf8.decode [0xE2; 0x82; 0xAC; 0x61] = [0x20AC; 0x61] /\
  Utf8.decode [0xE2; 0x82; 0x61] = [0xFFFD; 0x61] /\
  Utf8.decode [0x80; 0x61] = [0xFFFD; 0x61] /\
  Utf8.decode [0xF0; 0x9F; 0x98] = [0xFFFD].
Proof. repeat split; reflexivity. Qed.

(** A run of the program with the counting provider: eight console lines,
    the last one the two results joined by a comma. *)
Example index_run :
  let p := snd (Index.run p0) in
  length (console p) = 8%nat /\
  last (console p) [] = lit "result: 29f2e598ec5a205e8082492928ce6f3f,test".
Proof. vm_compute. split; reflexivity. Qed.

(** [decryption] on three texts: a text of odd length is refused by
    [update]; of a code unit only the low 8 bits are decoded, so that U+0132
    reads as the digit 2; four bytes do not make a block. *)
Example decryption_hex_texts :
  let decipher := fresh_decipher (lit "SB0Zr+zyAXVbkhyT/ootPXB3foWMk5qh")
                    (lit "q9D1Gj9kia7T+B1C") in
  CryptographProcessor.decryption decipher
    (lit "29f2e598ec5a205e8082492928ce6f3fa") p0
  = (Throw InvalidArgValue, p0) /\
  CryptographProcessor.decryption decipher
    (0x132 :: lit "9f2e598ec5a205e8082492928ce6f3f") p0
  = (Ok (lit "test"), p0) /\
  CryptographProcessor.decryption decipher (lit "29f2e598") p0
  = (Throw WrongFinalBlockLength, p0).
Proof.
  cbv zeta.
  split; [vm_compute; reflexivity |].
  split; vm_compute; reflexivity.
Qed.

(** ** Generic list facts *)


Lemma substring_0 s n : substring s 0 n = firstn n s.
Proof. unfold substring. rewrite Nat.max_0_l, Nat.min_0_l, Nat.sub_0_r. reflexivity. Qed.

Ltac cases_cmp :=
  repeat match goal with
         | |- context [?a <? ?b] => destruct (N.ltb_spec a b); try lia
         | |- context [?a <=? ?b] => destruct (N.leb_spec a b); try lia
         | |- context [?a =? ?b] => destruct (N.eqb_spec a b); try lia
         end.

Lemma list_pair_ind {A} (P : list A -> Prop) :
  P [] -> (forall a, P [a]) ->
  (forall a b l, P l -> P (b :: l) -> P (a :: b :: l)) ->
  forall l, P l.
Proof.
  intros H0 H1 H2.
  assert (forall l, P l /\ forall a, P (a :: l)) as H.
  { induction l as [| b l [IH1 IH2]]; split; auto. }
  intro l. apply H.
Qed.

Lemma is_bytes_app a b : is_bytes a -> is_bytes b -> is_bytes (a ++ b).
Proof. unfold is_bytes. intros. apply Forall_app. now split. Qed.

Lemma forallb_eqb_repeat n : forall l,
  forallb (N.eqb n) l = true -> l = repeat n (length l).
Proof.
  induction l as [| x l IH]; [reflexivity |].
  cbn [forallb length repeat]. intro H. apply andb_prop in H.
  destruct H as [Hx Hl]. apply N.eqb_eq in Hx. subst x. now rewrite <- IH.
Qed.

(** ** Hexadecimal *)

Lemma hex_value_digit d : d < 16 -> Hex.value (Hex.digit d) = Some d.
Proof.
  intro H. unfold Hex.value, Hex.digit.
  cases_cmp; cbn [andb]; cases_cmp; cbn [andb]; f_equal; lia.
Qed.

Lemma hex_digit_low d : d < 16 -> Hex.digit d mod 256 = Hex.digit d.
Proof. intro H. apply N.mod_small. unfold Hex.digit. cases_cmp; lia. Qed.

Lemma hex_decode_encode b : is_bytes b -> Hex.decode (Hex.encode b) = b.
Proof.
  induction 1 as [| x b Hx _ IH]; [reflexivity |].
  cbn [Hex.encode flat_map Hex.of_byte app Hex.decode].
  rewrite !hex_digit_low, !hex_value_digit by lia.
  fold (Hex.encode b). rewrite IH. f_equal. lia.
Qed.

Lemma hex_encode_app a b : Hex.encode (a ++ b) = Hex.encode a ++ Hex.encode b.
Proof. apply flat_map_app. Qed.

Lemma hex_encode_length b : length (Hex.encode b) = (2 * length b)%nat.
Proof. induction b; simpl; [reflexivity | rewrite IHb; lia]. Qed.

Lemma hex_encode_even b : Nat.even (length (Hex.encode b)) = true.
Proof. rewrite hex_encode_length, Nat.even_mul. reflexivity. Qed.

Lemma hex_digit_char d : d < 16 -> hex_char (Hex.digit d).
Proof.
  intro H.
  assert (forallb (fun d => existsb (N.eqb (Hex.digit d)) (lit "0123456789abcdef"))
            (map N.of_nat (seq 0 16)) = true) as Hall by reflexivity.
  rewrite forallb_forall in Hall.
  assert (In d (map N.of_nat (seq 0 16))) as Hin.
  { apply in_map_iff. exists (N.to_nat d). split; [apply N2Nat.id |].
    apply in_seq. lia. }
  specialize (Hall d Hin). apply existsb_exists in Hall.
  destruct Hall as (c & Hc & E). apply N.eqb_eq in E. unfold hex_char.
  now rewrite E.
Qed.

Lemma hex_encode_chars b : is_bytes b -> Forall hex_char (Hex.encode b).
Proof.
  induction 1 as [| x b Hx _ IH]; [constructor |].
  cbn [Hex.encode flat_map Hex.of_byte app].
  constructor; [apply hex_digit_char; lia |].
  constructor; [apply hex_digit_char; lia | exact IH].
Qed.

Lemma hex_value_lt c v : Hex.value c = Some v -> v < 16.
Proof.
  unfold Hex.value.
  destruct (N.leb_spec 48 c); destruct (N.leb_spec c 57); cbn [andb];
    try (intros [= <-]; lia);
    destruct (N.leb_spec 97 c); destruct (N.leb_spec c 102); cbn [andb];
    try (intros [= <-]; lia);
    destruct (N.leb_spec 65 c); destruct (N.leb_spec c 70); cbn [andb];
    try (intros [= <-]; lia); discriminate.
Qed.

Lemma hex_decode_bytes : forall s, is_bytes (Hex.decode s).
Proof.
  induction s as [| h | h l s IH _] using list_pair_ind; try constructor.
  cbn [Hex.decode].
  destruct (Hex.value (h mod 256)) as [a |] eqn:Ha; [| constructor].
  destruct (Hex.value (l mod 256)) as [b |] eqn:Hb; [| constructor].
  apply hex_value_lt in Ha, Hb. constructor; [lia | exact IH].
Qed.

(** The two letter cases of a hexadecimal digit have one value. *)
Lemma hex_value_upper c :
  Hex.value (ascii_upper c mod 256) = Hex.value (c mod 256).
Proof.
  unfold ascii_upper.
  destruct ((97 <=? c) && (c <=? 122)) eqn:E; [| reflexivity].
  apply andb_prop in E. destruct E as [E1 E2]. apply N.leb_le in E1, E2.
  rewrite !N.mod_small by lia.
  unfold Hex.value.
  cases_cmp; cbn [andb]; try reflexivity; f_equal; lia.
Qed.

Lemma hex_decode_upper : forall s, Hex.decode (map ascii_upper s) = Hex.decode s.
Proof.
  induction s as [| h | h l s IH _] using list_pair_ind; try reflexivity.
  cbn [map Hex.decode]. now rewrite !hex_value_upper, IH.
Qed.



(** ** Base64 *)

Lemma base64_char_char v : base64_char (Base64.char v).
Proof.
  unfold base64_char, Base64.char.
  destruct (nth_in_or_default (N.to_nat v) Base64.alphabet 65) as [H | H].
  - exact H.
  - rewrite H. vm_compute. tauto.
Qed.

Lemma base64_char_ascii c : base64_char c -> c < 128 /\ c <> Base64.pad.
Proof.
  unfold base64_char. intro H.
  assert (forallb (fun c => (c <? 128) && negb (c =? Base64.pad)) Base64.alphabet = true)
    as Hall by (vm_compute; reflexivity).
  rewrite forallb_forall in Hall. specialize (Hall c H).
  apply andb_prop in Hall. destruct Hall as [H1 H2].
  split; [now apply N.ltb_lt |].
  apply negb_true_iff in H2. now apply N.eqb_neq.
Qed.

(** The characters before the last group of the encoding are alphabet
    characters: padding only occurs in the last group. *)
Lemma base64_encode_prefix : forall n b,
  (4 * n <= 4 * (length b / 3))%nat ->
  Forall base64_char (firstn (4 * n) (Base64.encode b)).
Proof.
  induction n as [| n IH]; intros b Hn; [constructor |].
  destruct b as [| x [| y [| z rest]]].
  1-3: cbn in Hn; lia.
  assert (length (x :: y :: z :: rest) / 3 = S (length rest / 3))%nat as E.
  { change (length (x :: y :: z :: rest)) with (1 * 3 + length rest)%nat.
    rewrite Nat.div_add_l by discriminate. reflexivity. }
  rewrite E in Hn.
  replace (4 * S n)%nat with (S (S (S (S (4 * n))))) by lia.
  cbn [Base64.encode firstn].
  repeat (constructor; [apply base64_char_char |]).
  apply IH. lia.
Qed.

Lemma base64_encode_length_ge : forall n b,
  (4 * n <= 4 * (length b / 3))%nat -> (4 * n <= length (Base64.encode b))%nat.
Proof.
  induction n as [| n IH]; intros b Hn; [lia |].
  destruct b as [| x [| y [| z rest]]].
  1-3: cbn in Hn; lia.
  assert (length (x :: y :: z :: rest) / 3 = S (length rest / 3))%nat as E.
  { change (length (x :: y :: z :: rest)) with (1 * 3 + length rest)%nat.
    rewrite Nat.div_add_l by discriminate. reflexivity. }
  rewrite E in Hn. cbn [Base64.encode length].
  specialize (IH rest). lia.
Qed.

(** The first [4 * n] characters of the Base64 text of at least [3 * n]
    bytes: that many alphabet characters. *)
Lemma base64_prefix n b :
  (3 * n <= length b)%nat ->
  length (firstn (4 * n) (Base64.encode b)) = (4 * n)%nat /\
  Forall base64_char (firstn (4 * n) (Base64.encode b)).
Proof.
  intro H.
  assert (4 * n <= 4 * (length b / 3))%nat as Hn.
  { apply Nat.mul_le_mono_l. apply Nat.div_le_lower_bound; lia. }
  split.
  - apply firstn_length_le. now apply base64_encode_length_ge.
  - now apply base64_encode_prefix.
Qed.

(** ** UTF-8 *)

Lemma utf8_write_app : forall a b st,
  Utf8.write st (a ++ b) =
  (fst (Utf8.write st a) ++ fst (Utf8.write (snd (Utf8.write st a)) b),
   snd (Utf8.write (snd (Utf8.write st a)) b)).
Proof.
  induction a as [| x a IH]; intros b st.
  - cbn. now destruct (Utf8.write st b).
  - cbn [app Utf8.write]. destruct (Utf8.step st x) as [o1 st1].
    rewrite IH. destruct (Utf8.write st1 a) as [o2 st2]. cbn [fst snd].
    destruct (Utf8.write st2 b) as [o3 st3]. cbn [fst snd].
    now rewrite app_assoc.
Qed.

Lemma utf8_write_cons st b rest :
  Utf8.write st (b :: rest) =
  (fst (Utf8.step st b) ++ fst (Utf8.write (snd (Utf8.step st b)) rest),
   snd (Utf8.write (snd (Utf8.step st b)) rest)).
Proof.
  cbn [Utf8.write]. destruct (Utf8.step st b) as [o1 st1]. cbn [fst snd].
  now destruct (Utf8.write st1 rest).
Qed.

Lemma utf8_start_ascii b : b < 0x80 -> Utf8.start b = ([b], Utf8.Idle).
Proof. intro H. unfold Utf8.start. cases_cmp. reflexivity. Qed.

Lemma utf8_start_lead2 b :
  0xC2 <= b <= 0xDF ->
  Utf8.start b = ([], Utf8.Pending 1 (b - 0xC0) 0x80 0xBF).
Proof. intro H. unfold Utf8.start. cases_cmp. reflexivity. Qed.

Lemma utf8_start_lead3 b :
  0xE0 <= b <= 0xEF ->
  Utf8.start b =
  ([], Utf8.Pending 2 (b - 0xE0) (if b =? 0xE0 then 0xA0 else 0x80)
         (if b =? 0xED then 0x9F else 0xBF)).
Proof.
  intro H. unfold Utf8.start.
  destruct (N.ltb_spec b 0x80); [lia |].
  destruct (N.leb_spec 0xC2 b); [| lia].
  destruct (N.leb_spec b 0xDF); [lia |].
  destruct (N.leb_spec 0xE0 b); [| lia].
  destruct (N.leb_spec b 0xEF); [| lia].
  reflexivity.
Qed.

Lemma utf8_start_lead4 b :
  0xF0 <= b <= 0xF4 ->
  Utf8.start b =
  ([], Utf8.Pending 3 (b - 0xF0) (if b =? 0xF0 then 0x90 else 0x80)
         (if b =? 0xF4 then 0x8F else 0xBF)).
Proof.
  intro H. unfold Utf8.start.
  destruct (N.ltb_spec b 0x80); [lia |].
  destruct (N.leb_spec 0xC2 b); [| lia].
  destruct (N.leb_spec b 0xDF); [lia |].
  destruct (N.leb_spec 0xE0 b); [| lia].
  destruct (N.leb_spec b 0xEF); [lia |].
  destruct (N.leb_spec 0xF0 b); [| lia].
  destruct (N.leb_spec b 0xF4); [| lia].
  reflexivity.
Qed.

Lemma utf8_step_continue need acc lo hi b :
  lo <= b <= hi ->
  Utf8.step (Utf8.Pending need acc lo hi) b =
  match need with
  | S (S n) => ([], Utf8.Pending (S n) (acc * 64 + (b - 0x80)) 0x80 0xBF)
  | _ => (Utf8.units (acc * 64 + (b - 0x80)), Utf8.Idle)
  end.
Proof.
  intro H. cbn [Utf8.step].
  destruct (N.leb_spec lo b); [| lia].
  destruct (N.leb_spec b hi); [| lia].
  reflexivity.
Qed.

Ltac in_range :=
  repeat match goal with
         | |- context [?a =? ?b] => destruct (N.eqb_spec a b)
         end; lia.

Lemma utf8_write_code_point cp rest :
  scalar cp ->
  Utf8.write Utf8.Idle (Utf8.of_code_point cp ++ rest) =
  (Utf8.units cp ++ fst (Utf8.write Utf8.Idle rest),
   snd (Utf8.write Utf8.Idle rest)).
Proof.
  intros [Hmax Hsur]. unfold Utf8.of_code_point.
  destruct (N.ltb_spec cp 0x80); [| destruct (N.ltb_spec cp 0x800);
    [| destruct (N.ltb_spec cp 0x10000)]]; cbn [app].
  - rewrite utf8_write_cons. cbn [Utf8.step].
    rewrite utf8_start_ascii by lia. cbn [fst snd].
    unfold Utf8.units. destruct (N.ltb_spec cp 0x10000); [reflexivity | lia].
  - rewrite utf8_write_cons. cbn [Utf8.step].
    rewrite utf8_start_lead2 by lia. cbn [fst snd app].
    rewrite utf8_write_cons, utf8_step_continue by lia. cbn [fst snd].
    replace ((192 + cp / 64 - 192) * 64 + (128 + cp mod 64 - 128)) with cp by lia.
    reflexivity.
  - rewrite utf8_write_cons. cbn [Utf8.step].
    rewrite utf8_start_lead3 by lia. cbn [fst snd app].
    rewrite utf8_write_cons, utf8_step_continue by in_range. cbn [fst snd app].
    rewrite utf8_write_cons, utf8_step_continue by lia. cbn [fst snd].
    replace (((224 + cp / 4096 - 224) * 64 + (128 + (cp / 64) mod 64 - 128)) * 64
             + (128 + cp mod 64 - 128)) with cp by lia.
    reflexivity.
  - rewrite utf8_write_cons. cbn [Utf8.step].
    rewrite utf8_start_lead4 by lia. cbn [fst snd app].
    rewrite utf8_write_cons, utf8_step_continue by in_range. cbn [fst snd app].
    rewrite utf8_write_cons, utf8_step_continue by lia. cbn [fst snd app].
    rewrite utf8_write_cons, utf8_step_continue by lia. cbn [fst snd].
    replace ((((240 + cp / 262144 - 240) * 64 + (128 + (cp / 4096) mod 64 - 128)) * 64
              + (128 + (cp / 64) mod 64 - 128)) * 64 + (128 + cp mod 64 - 128))
      with cp by lia.
    reflexivity.
Qed.

Lemma surrogate_pair u l :
  Utf8.is_high_surrogate u = true -> Utf8.is_low_surrogate l = true ->
  scalar (0x10000 + (u - 0xD800) * 1024 + (l - 0xDC00)) /\
  Utf8.units (0x10000 + (u - 0xD800) * 1024 + (l - 0xDC00)) = [u; l].
Proof.
  unfold Utf8.is_high_surrogate, Utf8.is_low_surrogate. intros Hu Hl.
  apply andb_prop in Hu, Hl. destruct Hu as [Hu1 Hu2], Hl as [Hl1 Hl2].
  apply N.leb_le in Hu1, Hu2, Hl1, Hl2.
  split; [unfold scalar; lia |].
  unfold Utf8.units.
  destruct (N.ltb_spec (0x10000 + (u - 0xD800) * 1024 + (l - 0xDC00)) 0x10000);
    [lia |].
  f_equal; [| f_equal]; lia.
Qed.

Lemma not_surrogate_scalar u :
  Utf8.is_high_surrogate u = false -> Utf8.is_low_surrogate u = false ->
  u < 0x10000 -> scalar u.
Proof.
  unfold Utf8.is_high_surrogate, Utf8.is_low_surrogate, scalar. intros Hh Hl Hu.
  apply andb_false_iff in Hh, Hl.
  rewrite !N.leb_gt in Hh, Hl. lia.
Qed.

Lemma utf8_units_bmp u : u < 0x10000 -> Utf8.units u = [u].
Proof. intro H. unfold Utf8.units. destruct (N.ltb_spec u 0x10000); [reflexivity | lia]. Qed.

(** Decoding what [Buffer.from(s, 'utf8')] wrote gives [s] back when [s] has
    no unpaired surrogate. *)
Lemma utf8_write_encode : forall s,
  Utf8.well_formed s = true ->
  forall rest,
    Utf8.write Utf8.Idle (Utf8.encode s ++ rest) =
    (s ++ fst (Utf8.write Utf8.Idle rest), snd (Utf8.write Utf8.Idle rest)).
Proof.
  induction s as [| u | u l s IH1 IH2] using list_pair_ind; intros Hwf rest.
  - cbn. now destruct (Utf8.write Utf8.Idle rest).
  - cbn [Utf8.well_formed Utf8.encode] in *.
    destruct (Utf8.is_high_surrogate u) eqn:Hh; [discriminate |].
    destruct (Utf8.is_low_surrogate u) eqn:Hl; [discriminate |].
    cbn [negb andb] in Hwf. rewrite andb_true_r in Hwf. apply N.ltb_lt in Hwf.
    rewrite app_nil_r, utf8_write_code_point
      by now apply not_surrogate_scalar.
    now rewrite utf8_units_bmp.
  - cbn [Utf8.well_formed Utf8.encode] in Hwf |- *.
    destruct (Utf8.is_high_surrogate u) eqn:Hh.
    + apply andb_prop in Hwf. destruct Hwf as [Hl Hwf]. rewrite Hl.
      destruct (surrogate_pair u l Hh Hl) as [Hsc Hun].
      rewrite <- app_assoc, utf8_write_code_point by exact Hsc.
      rewrite Hun, IH1 by exact Hwf. reflexivity.
    + destruct (Utf8.is_low_surrogate u) eqn:Hl; [discriminate |].
      cbn [negb andb] in Hwf. apply andb_prop in Hwf. destruct Hwf as [Hu Hwf].
      apply N.ltb_lt in Hu.
      rewrite <- app_assoc, utf8_write_code_point
        by now apply not_surrogate_scalar.
      rewrite utf8_units_bmp, IH2 by assumption. reflexivity.
Qed.

Lemma utf8_decode_encode s : Utf8.well_formed s = true -> Utf8.decode (Utf8.encode s) = s.
Proof.
  intro H. unfold Utf8.decode, Utf8.finish.
  rewrite <- (app_nil_r (Utf8.encode s)), utf8_write_encode by exact H.
  cbn. now rewrite !app_nil_r.
Qed.

Lemma well_formed_jsstring : forall s, Utf8.well_formed s = true -> is_jsstring s.
Proof.
  induction s as [| u | u l s IH1 IH2] using list_pair_ind; intro Hwf.
  - constructor.
  - cbn [Utf8.well_formed] in Hwf.
    destruct (Utf8.is_high_surrogate u); [discriminate |].
    rewrite andb_true_r in Hwf. apply andb_prop in Hwf. destruct Hwf as [_ Hu].
    apply N.ltb_lt in Hu. repeat constructor. exact Hu.
  - cbn [Utf8.well_formed] in Hwf.
    destruct (Utf8.is_high_surrogate u) eqn:Hh.
    + apply andb_prop in Hwf. destruct Hwf as [Hl Hwf].
      unfold Utf8.is_high_surrogate in Hh. unfold Utf8.is_low_surrogate in Hl.
      apply andb_prop in Hh, Hl. destruct Hh as [_ Hh], Hl as [_ Hl].
      apply N.leb_le in Hh, Hl.
      constructor; [lia |]. constructor; [lia |]. now apply IH1.
    + apply andb_prop in Hwf. destruct Hwf as [Hu Hwf].
      apply andb_prop in Hu. destruct Hu as [_ Hu]. apply N.ltb_lt in Hu.
      constructor; [exact Hu |]. now apply IH2.
Qed.

Lemma of_code_point_bytes cp : cp < 0x110000 -> is_bytes (Utf8.of_code_point cp).
Proof.
  intro H. unfold Utf8.of_code_point, is_bytes.
  destruct (N.ltb_spec cp 0x80); [| destruct (N.ltb_spec cp 0x800);
    [| destruct (N.ltb_spec cp 0x10000)]]; repeat constructor; lia.
Qed.

Lemma utf8_encode_cons u rest :
  Utf8.encode (u :: rest) =
  if Utf8.is_high_surrogate u then
    match rest with
    | l :: rest' =>
        if Utf8.is_low_surrogate l then
          Utf8.of_code_point (0x10000 + (u - 0xD800) * 1024 + (l - 0xDC00))
            ++ Utf8.encode rest'
        else Utf8.of_code_point Utf8.replacement ++ Utf8.encode rest
    | [] => Utf8.of_code_point Utf8.replacement
    end
  else if Utf8.is_low_surrogate u then
    Utf8.of_code_point Utf8.replacement ++ Utf8.encode rest
  else Utf8.of_code_point u ++ Utf8.encode rest.
Proof. reflexivity. Qed.

Lemma utf8_encode_bytes : forall s, is_jsstring s -> is_bytes (Utf8.encode s).
Proof.
  assert (is_bytes (Utf8.of_code_point Utf8.replacement)) as Hrep
    by (apply of_code_point_bytes; reflexivity).
  induction s as [| u | u l s IH1 IH2] using list_pair_ind; intro Hs.
  - constructor.
  - cbn [Utf8.encode]. inversion Hs; subst.
    destruct (Utf8.is_high_surrogate u); [exact Hrep |].
    destruct (Utf8.is_low_surrogate u); apply is_bytes_app;
      try exact Hrep; try constructor.
    apply of_code_point_bytes. lia.
  - rewrite utf8_encode_cons. inversion Hs as [| ? ? Hu Hs']; subst.
    inversion Hs' as [| ? ? Hl Hs'']; subst.
    destruct (Utf8.is_high_surrogate u) eqn:Hh.
    + destruct (Utf8.is_low_surrogate l) eqn:Hlo.
      * apply is_bytes_app; [| now apply IH1].
        apply of_code_point_bytes. apply (surrogate_pair u l Hh Hlo).
      * apply is_bytes_app; [exact Hrep | now apply IH2].
    + destruct (Utf8.is_low_surrogate u); apply is_bytes_app; auto.
      apply of_code_point_bytes. lia.
Qed.

Lemma scrub_cons u rest :
  scrub (u :: rest) =
  if Utf8.is_high_surrogate u then
    match rest with
    | l :: rest' =>
        if Utf8.is_low_surrogate l then u :: l :: scrub rest'
        else Utf8.replacement :: scrub rest
    | [] => [Utf8.replacement]
    end
  else if Utf8.is_low_surrogate u then Utf8.replacement :: scrub rest
  else u :: scrub rest.
Proof. reflexivity. Qed.

Lemma replacement_scalar : scalar Utf8.replacement.
Proof. unfold scalar, Utf8.replacement. lia. Qed.

(** Decoding what [Buffer.from(s, 'utf8')] wrote gives [s] with its unpaired
    surrogates replaced. *)
Lemma utf8_write_encode_scrub : forall s,
  is_jsstring s ->
  forall rest,
    Utf8.write Utf8.Idle (Utf8.encode s ++ rest) =
    (scrub s ++ fst (Utf8.write Utf8.Idle rest), snd (Utf8.write Utf8.Idle rest)).
Proof.
  assert (forall tail rest,
             Utf8.write Utf8.Idle (Utf8.encode tail ++ rest) =
             (scrub tail ++ fst (Utf8.write Utf8.Idle rest),
              snd (Utf8.write Utf8.Idle rest)) ->
             Utf8.write Utf8.Idle
               ((Utf8.of_code_point Utf8.replacement ++ Utf8.encode tail) ++ rest) =
             ((Utf8.replacement :: scrub tail) ++ fst (Utf8.write Utf8.Idle rest),
              snd (Utf8.write Utf8.Idle rest))) as Hrep.
  { intros tail rest IH.
    rewrite <- app_assoc, utf8_write_code_point by apply replacement_scalar.
    rewrite IH. cbn [fst snd]. now rewrite utf8_units_bmp by reflexivity. }
  induction s as [| u | u l s IH1 IH2] using list_pair_ind; intros Hs rest.
  - cbn. now destruct (Utf8.write Utf8.Idle rest).
  - inversion Hs as [| ? ? Hu _]; subst.
    rewrite utf8_encode_cons, scrub_cons.
    destruct (Utf8.is_high_surrogate u) eqn:Hh;
      [| destruct (Utf8.is_low_surrogate u) eqn:Hl].
    + rewrite <- (app_nil_r (Utf8.of_code_point Utf8.replacement)).
      apply (Hrep [] rest). cbn. now destruct (Utf8.write Utf8.Idle rest).
    + apply (Hrep [] rest). cbn. now destruct (Utf8.write Utf8.Idle rest).
    + cbn [Utf8.encode scrub]. rewrite app_nil_r, utf8_write_code_point
        by now apply not_surrogate_scalar.
      now rewrite utf8_units_bmp.
  - inversion Hs as [| ? ? Hu Hs']; subst.
    inversion Hs' as [| ? ? Hl Hs'']; subst.
    rewrite utf8_encode_cons, scrub_cons.
    destruct (Utf8.is_high_surrogate u) eqn:Hh.
    + destruct (Utf8.is_low_surrogate l) eqn:Hlo.
      * destruct (surrogate_pair u l Hh Hlo) as [Hsc Hun].
        rewrite <- app_assoc, utf8_write_code_point by exact Hsc.
        rewrite Hun, IH1 by exact Hs''. reflexivity.
      * apply Hrep. now apply IH2.
    + destruct (Utf8.is_low_surrogate u) eqn:Hlo.
      * apply Hrep. now apply IH2.
      * rewrite <- app_assoc, utf8_write_code_point
          by now apply not_surrogate_scalar.
        rewrite utf8_units_bmp, IH2 by assumption. reflexivity.
Qed.

Lemma utf8_decode_encode_scrub s :
  is_jsstring s -> Utf8.decode (Utf8.encode s) = scrub s.
Proof.
  intro H. unfold Utf8.decode, Utf8.finish.
  rewrite <- (app_nil_r (Utf8.encode s)), utf8_write_encode_scrub by exact H.
  cbn. now rewrite !app_nil_r.
Qed.

(** Replacing changes the string exactly when there is something to
    replace. *)
Lemma scrub_fixed : forall s,
  is_jsstring s -> (scrub s = s <-> Utf8.well_formed s = true).
Proof.
  induction s as [| u | u l s IH1 IH2] using list_pair_ind; intro Hs.
  - cbn. tauto.
  - inversion Hs as [| ? ? Hu _]; subst.
    rewrite scrub_cons. cbn [Utf8.well_formed].
    destruct (Utf8.is_high_surrogate u) eqn:Hh;
      [| destruct (Utf8.is_low_surrogate u) eqn:Hl].
    + split; [| discriminate]. intros [= E]. rewrite <- E in Hh. discriminate.
    + split; [| discriminate]. intros [= E]. rewrite <- E in Hl. discriminate.
    + cbn. split; [intros _ | reflexivity].
      apply andb_true_intro. split; [now apply N.ltb_lt | reflexivity].
  - inversion Hs as [| ? ? Hu Hs']; subst.
    inversion Hs' as [| ? ? Hl Hs'']; subst.
    rewrite scrub_cons.
    change (Utf8.well_formed (u :: l :: s)) with
      (if Utf8.is_high_surrogate u
       then Utf8.is_low_surrogate l && Utf8.well_formed s
       else negb (Utf8.is_low_surrogate u) && (u <? 0x10000)
            && Utf8.well_formed (l :: s)).
    destruct (Utf8.is_high_surrogate u) eqn:Hh.
    + destruct (Utf8.is_low_surrogate l) eqn:Hlo; cbn [andb].
      * rewrite <- (IH1 Hs''). split; [intros [= E]; exact E | intros ->; reflexivity].
      * split; [| discriminate]. intros [= E _]. rewrite <- E in Hh. discriminate.
    + destruct (Utf8.is_low_surrogate u) eqn:Hlo; cbn [negb andb].
      * split; [| discriminate]. intros [= E _]. rewrite <- E in Hlo. discriminate.
      * apply N.ltb_lt in Hu. rewrite Hu. cbn [andb].
        rewrite <- (IH2 Hs'). split; [intros [= E]; exact E | intros ->; reflexivity].
Qed.

Lemma utf8_encode_ascii : forall s, Forall (fun c => c < 128) s -> Utf8.encode s = s.
Proof.
  induction 1 as [| c s Hc _ IH]; [reflexivity |].
  rewrite utf8_encode_cons.
  unfold Utf8.is_high_surrogate, Utf8.is_low_surrogate, Utf8.of_code_point.
  destruct (N.leb_spec 0xD800 c); [lia |].
  destruct (N.leb_spec 0xDC00 c); [lia |].
  destruct (N.ltb_spec c 0x80); [| lia].
  cbn. now rewrite IH.
Qed.

Lemma base64_chars_ascii s : Forall base64_char s -> Forall (fun c => c < 128) s.
Proof.
  intro H. eapply Forall_impl; [| exact H].
  intros c Hc. now apply base64_char_ascii.
Qed.

Lemma utf8_finish_app st a b :
  fst (Utf8.write st a) ++ Utf8.finish (snd (Utf8.write st a)) b
  = Utf8.finish st (a ++ b).
Proof.
  unfold Utf8.finish. rewrite utf8_write_app.
  destruct (Utf8.write st a) as [o1 s1]. cbn [fst snd].
  destruct (Utf8.write s1 b) as [o2 s2]. cbn [fst snd].
  now rewrite app_assoc.
Qed.

(** ** Decoding without a replacement character is the inverse of encoding *)

Lemma utf8_start_cases b :
  (b < 0x80 /\ Utf8.start b = ([b], Utf8.Idle)) \/
  (0xC2 <= b <= 0xDF /\
   Utf8.start b = ([], Utf8.Pending 1 (b - 0xC0) 0x80 0xBF)) \/
  (0xE0 <= b <= 0xEF /\
   Utf8.start b =
   ([], Utf8.Pending 2 (b - 0xE0) (if b =? 0xE0 then 0xA0 else 0x80)
          (if b =? 0xED then 0x9F else 0xBF))) \/
  (0xF0 <= b <= 0xF4 /\
   Utf8.start b =
   ([], Utf8.Pending 3 (b - 0xF0) (if b =? 0xF0 then 0x90 else 0x80)
          (if b =? 0xF4 then 0x8F else 0xBF))) \/
  Utf8.start b = ([Utf8.replacement], Utf8.Idle).
Proof.
  destruct (N.ltb_spec b 0x80) as [H1 | H1].
  { left. split; [exact H1 | now apply utf8_start_ascii]. }
  destruct (N.ltb_spec b 0xC2) as [H2 | H2].
  { do 4 right. unfold Utf8.start. cases_cmp; reflexivity. }
  destruct (N.leb_spec b 0xDF) as [H3 | H3].
  { right; left. split; [lia | apply utf8_start_lead2; lia]. }
  destruct (N.leb_spec b 0xEF) as [H4 | H4].
  { do 2 right; left. split; [lia | apply utf8_start_lead3; lia]. }
  destruct (N.leb_spec b 0xF4) as [H5 | H5].
  { do 3 right; left. split; [lia | apply utf8_start_lead4; lia]. }
  do 4 right. unfold Utf8.start. cases_cmp; reflexivity.
Qed.

Lemma utf8_step_cases need acc lo hi b :
  (lo <= b <= hi /\
   Utf8.step (Utf8.Pending need acc lo hi) b =
   match need with
   | S (S n) => ([], Utf8.Pending (S n) (acc * 64 + (b - 0x80)) 0x80 0xBF)
   | _ => (Utf8.units (acc * 64 + (b - 0x80)), Utf8.Idle)
   end) \/
  (exists o s,
      Utf8.step (Utf8.Pending need acc lo hi) b = (Utf8.replacement :: o, s)).
Proof.
  destruct (N.leb_spec lo b) as [H1 | H1];
    [destruct (N.leb_spec b hi) as [H2 | H2] |].
  - left. split; [lia | apply utf8_step_continue; lia].
  - right. cbn [Utf8.step].
    destruct (N.leb_spec lo b); [| lia]. destruct (N.leb_spec b hi); [lia |].
    cbn [andb]. destruct (Utf8.start b). eauto.
  - right. cbn [Utf8.step].
    destruct (N.leb_spec lo b); [lia |].
    cbn [andb]. destruct (Utf8.start b). eauto.
Qed.

(** A decoder that is inside a sequence and emits no replacement character
    reads one more continuation byte in the allowed range. *)
Lemma utf8_write_pending need acc lo hi bs out st :
  Utf8.write (Utf8.Pending need acc lo hi) bs = (out, st) ->
  clean (out ++ Utf8.flush st) ->
  exists b rest,
    bs = b :: rest /\ lo <= b <= hi /\
    match need with
    | S (S n) =>
        Utf8.write (Utf8.Pending (S n) (acc * 64 + (b - 0x80)) 0x80 0xBF) rest
        = (out, st)
    | _ =>
        exists out',
          out = Utf8.units (acc * 64 + (b - 0x80)) ++ out' /\
          Utf8.write Utf8.Idle rest = (out', st)
    end.
Proof.
  intros Hw Hc. destruct bs as [| b rest].
  - cbn in Hw. inversion Hw; subst. exfalso. apply Hc. now left.
  - exists b, rest. rewrite utf8_write_cons in Hw.
    destruct (utf8_step_cases need acc lo hi b) as [[Hr E] | (o & s & E)].
    + split; [reflexivity |]. split; [exact Hr |].
      rewrite E in Hw.
      destruct need as [| [| n]]; cbn [fst snd app] in Hw.
      * destruct (Utf8.write Utf8.Idle rest) as [o' s'] eqn:Er.
        cbn [fst snd] in Hw. inversion Hw; subst. eauto.
      * destruct (Utf8.write Utf8.Idle rest) as [o' s'] eqn:Er.
        cbn [fst snd] in Hw. inversion Hw; subst. eauto.
      * destruct (Utf8.write _ rest) as [o' s'] eqn:Er.
        cbn [fst snd] in Hw. inversion Hw; subst. reflexivity.
    + rewrite E in Hw. cbn [fst snd] in Hw. inversion Hw; subst.
      exfalso. apply Hc. now left.
Qed.

Lemma clean_app_r a b : clean (a ++ b) -> clean b.
Proof. unfold clean. intros H Hin. apply H, in_or_app. now right. Qed.

Lemma clean_app_assoc a b c : clean ((a ++ b) ++ c) -> clean (b ++ c).
Proof. rewrite <- app_assoc. apply clean_app_r. Qed.

Lemma utf8_encode_scalar cp s :
  scalar cp ->
  Utf8.encode (Utf8.units cp ++ s) = Utf8.of_code_point cp ++ Utf8.encode s.
Proof.
  intros [Hmax Hsur]. unfold Utf8.units.
  destruct (N.ltb_spec cp 0x10000) as [Hb | Hb]; cbn [app];
    rewrite utf8_encode_cons;
    unfold Utf8.is_high_surrogate, Utf8.is_low_surrogate.
  - destruct (N.leb_spec 0xD800 cp); destruct (N.leb_spec cp 0xDBFF);
      destruct (N.leb_spec 0xDC00 cp); destruct (N.leb_spec cp 0xDFFF);
      cbn [andb]; try reflexivity; lia.
  - destruct (N.leb_spec 0xD800 (0xD800 + (cp - 0x10000) / 1024)); [| lia].
    destruct (N.leb_spec (0xD800 + (cp - 0x10000) / 1024) 0xDBFF); [| lia].
    destruct (N.leb_spec 0xDC00 (0xDC00 + (cp - 0x10000) mod 1024)); [| lia].
    destruct (N.leb_spec (0xDC00 + (cp - 0x10000) mod 1024) 0xDFFF); [| lia].
    cbn [andb]. do 2 f_equal. lia.
Qed.

(** If the decoder emits no replacement character, its input is the
    encoding of its output. *)
Lemma utf8_write_clean : forall n bs out st,
  (length bs <= n)%nat ->
  Utf8.write Utf8.Idle bs = (out, st) ->
  clean (out ++ Utf8.flush st) ->
  st = Utf8.Idle /\ Utf8.encode out = bs.
Proof.
  induction n as [| n IH]; intros bs out st Hn Hw Hc.
  { destruct bs; [| cbn in Hn; lia]. cbn in Hw. inversion Hw. auto. }
  destruct bs as [| b bs]; [cbn in Hw; inversion Hw; auto |].
  cbn [length] in Hn.
  rewrite utf8_write_cons in Hw. cbn [Utf8.step] in Hw.
  destruct (utf8_start_cases b)
    as [[Hb E] | [[Hb E] | [[Hb E] | [[Hb E] | E]]]];
    rewrite E in Hw; cbn [fst snd app] in Hw.
  - (* one byte *)
    destruct (Utf8.write Utf8.Idle bs) as [o s] eqn:Er. cbn [fst snd] in Hw.
    inversion Hw; subst.
    destruct (IH bs o st ltac:(lia) Er (clean_app_r [b] _ Hc)) as [-> Eo].
    split; [reflexivity |].
    change (b :: o) with ([b] ++ o).
    rewrite <- (utf8_units_bmp b) by lia.
    rewrite utf8_encode_scalar by (unfold scalar; lia).
    unfold Utf8.of_code_point. destruct (N.ltb_spec b 0x80); [| lia].
    cbn. now rewrite Eo.
  - (* two bytes *)
    destruct (Utf8.write _ bs) as [o s] eqn:Er. cbn [fst snd] in Hw.
    inversion Hw; subst o s.
    destruct (utf8_write_pending _ _ _ _ _ _ _ Er Hc)
      as (b2 & r & -> & H2 & o' & -> & Er').
    cbn [length] in Hn.
    destruct (IH r o' st ltac:(lia) Er' (clean_app_assoc _ _ _ Hc)) as [-> Eo].
    split; [reflexivity |].
    rewrite utf8_encode_scalar, Eo by (unfold scalar; lia).
    unfold Utf8.of_code_point.
    destruct (N.ltb_spec ((b - 0xC0) * 64 + (b2 - 0x80)) 0x80); [lia |].
    destruct (N.ltb_spec ((b - 0xC0) * 64 + (b2 - 0x80)) 0x800); [| lia].
    cbn [app]. f_equal; [| f_equal]; lia.
  - (* three bytes *)
    destruct (Utf8.write _ bs) as [o s] eqn:Er. cbn [fst snd] in Hw.
    inversion Hw; subst o s.
    destruct (utf8_write_pending _ _ _ _ _ _ _ Er Hc)
      as (b2 & r2 & -> & H2 & Er2).
    destruct (utf8_write_pending _ _ _ _ _ _ _ Er2 Hc)
      as (b3 & r & -> & H3 & o' & -> & Er').
    cbn [length] in Hn.
    destruct (IH r o' st ltac:(lia) Er' (clean_app_assoc _ _ _ Hc)) as [-> Eo].
    split; [reflexivity |].
    assert (0x800 <= ((b - 0xE0) * 64 + (b2 - 0x80)) * 64 + (b3 - 0x80) < 0x10000
            /\ (((b - 0xE0) * 64 + (b2 - 0x80)) * 64 + (b3 - 0x80) < 0xD800
                \/ 0xDFFF < ((b - 0xE0) * 64 + (b2 - 0x80)) * 64 + (b3 - 0x80)))
      as [Hcp Hns].
    { revert H2.
      destruct (N.eqb_spec b 0xE0); destruct (N.eqb_spec b 0xED); intro H2; lia. }
    rewrite utf8_encode_scalar, Eo by (unfold scalar; lia).
    unfold Utf8.of_code_point.
    destruct (N.ltb_spec (((b - 0xE0) * 64 + (b2 - 0x80)) * 64 + (b3 - 0x80)) 0x80);
      [lia |].
    destruct (N.ltb_spec (((b - 0xE0) * 64 + (b2 - 0x80)) * 64 + (b3 - 0x80)) 0x800);
      [lia |].
    destruct (N.ltb_spec (((b - 0xE0) * 64 + (b2 - 0x80)) * 64 + (b3 - 0x80)) 0x10000);
      [| lia].
    assert (0x80 <= b2 <= 0xBF) as H2'
      by (revert H2; destruct (N.eqb_spec b 0xE0); destruct (N.eqb_spec b 0xED);
          intro H2; lia).
    cbn [app]. f_equal; [| f_equal; [| f_equal]]; lia.
  - (* four bytes *)
    destruct (Utf8.write _ bs) as [o s] eqn:Er. cbn [fst snd] in Hw.
    inversion Hw; subst o s.
    destruct (utf8_write_pending _ _ _ _ _ _ _ Er Hc)
      as (b2 & r2 & -> & H2 & Er2).
    destruct (utf8_write_pending _ _ _ _ _ _ _ Er2 Hc)
      as (b3 & r3 & -> & H3 & Er3).
    destruct (utf8_write_pending _ _ _ _ _ _ _ Er3 Hc)
      as (b4 & r & -> & H4 & o' & -> & Er').
    cbn [length] in Hn.
    destruct (IH r o' st ltac:(lia) Er' (clean_app_assoc _ _ _ Hc)) as [-> Eo].
    split; [reflexivity |].
    assert (0x80 <= b2 <= 0xBF /\
            0x10000 <= (((b - 0xF0) * 64 + (b2 - 0x80)) * 64 + (b3 - 0x80)) * 64
                       + (b4 - 0x80) < 0x110000) as [H2' Hcp].
    { revert H2.
      destruct (N.eqb_spec b 0xF0); destruct (N.eqb_spec b 0xF4); intro H2; lia. }
    rewrite utf8_encode_scalar, Eo by (unfold scalar; lia).
    unfold Utf8.of_code_point.
    set (cp := (((b - 0xF0) * 64 + (b2 - 0x80)) * 64 + (b3 - 0x80)) * 64
               + (b4 - 0x80)) in *.
    destruct (N.ltb_spec cp 0x80); [lia |].
    destruct (N.ltb_spec cp 0x800); [lia |].
    destruct (N.ltb_spec cp 0x10000); [lia |].
    subst cp.
    cbn [app]. f_equal; [| f_equal; [| f_equal; [| f_equal]]]; lia.
  - (* not the start of a sequence *)
    destruct (Utf8.write Utf8.Idle bs) as [o s]. cbn [fst snd] in Hw.
    inversion Hw; subst. exfalso. apply Hc. now left.
Qed.

Lemma utf8_decode_clean bs s :
  Utf8.decode bs = s -> clean s -> Utf8.encode s = bs.
Proof.
  unfold Utf8.decode, Utf8.finish. intros E Hc.
  destruct (Utf8.write Utf8.Idle bs) as [o st] eqn:Hw. subst s.
  destruct (utf8_write_clean (length bs) bs o st (le_n _) Hw Hc) as [-> Eo].
  cbn [Utf8.flush]. now rewrite app_nil_r.
Qed.

(** ** AES-256: the block cipher is a permutation of the 16-byte blocks *)

Section AES_facts.

Import AES.

Lemma forall_byte (f : N -> bool) :
  forallb f all_bytes = true -> forall b, b < 256 -> f b = true.
Proof.
  intros H b Hb. rewrite forallb_forall in H. apply H.
  unfold all_bytes. apply in_map_iff. exists (N.to_nat b). split.
  - apply N2Nat.id.
  - apply in_seq. lia.
Qed.

Lemma forall_byte2 (f : N -> N -> bool) :
  forallb (fun a => forallb (f a) all_bytes) all_bytes = true ->
  forall a b, a < 256 -> b < 256 -> f a b = true.
Proof.
  intros H a b Ha Hb.
  apply (forall_byte (f a)); [|exact Hb].
  apply (forall_byte (fun a => forallb (f a) all_bytes)); assumption.
Qed.

Lemma inv_sbox_sbox : forall b, b < 256 -> inv_sbox (sbox b) = b.
Proof.
  intros b H. apply N.eqb_eq. revert b H.
  apply (forall_byte (fun b => inv_sbox (sbox b) =? b)). vm_compute. reflexivity.
Qed.

Lemma sbox_inv_sbox : forall b, b < 256 -> sbox (inv_sbox b) = b.
Proof.
  intros b H. apply N.eqb_eq. revert b H.
  apply (forall_byte (fun b => sbox (inv_sbox b) =? b)). vm_compute. reflexivity.
Qed.

Lemma sbox_lt : forall b, b < 256 -> sbox b < 256.
Proof.
  intros b H. apply N.ltb_lt. revert b H.
  apply (forall_byte (fun b => sbox b <? 256)). vm_compute. reflexivity.
Qed.

Lemma inv_sbox_lt : forall b, b < 256 -> inv_sbox b < 256.
Proof.
  intros b H. apply N.ltb_lt. revert b H.
  apply (forall_byte (fun b => inv_sbox b <? 256)). vm_compute. reflexivity.
Qed.

Lemma xor8_lt a k : xor8 a k < 256.
Proof. unfold xor8. apply N.mod_lt. discriminate. Qed.

Lemma xor8_cancel a k : a < 256 -> xor8 (xor8 a k) k = a.
Proof.
  intros Ha. unfold xor8.
  rewrite <- (N.mod_small a 256) at 2 by exact Ha.
  change 256 with (2 ^ 8).
  apply N.bits_inj. intro i.
  destruct (N.lt_ge_cases i 8) as [Hi | Hi].
  - rewrite !N.mod_pow2_bits_low, N.lxor_spec, N.mod_pow2_bits_low, N.lxor_spec by exact Hi.
    destruct (N.testbit a i), (N.testbit k i); reflexivity.
  - rewrite !N.mod_pow2_bits_high by exact Hi. reflexivity.
Qed.

Lemma lxor_byte a b : a < 256 -> b < 256 -> N.lxor a b < 256.
Proof.
  intros Ha Hb. apply N.ltb_lt. revert a b Ha Hb.
  apply (forall_byte2 (fun a b => N.lxor a b <? 256)). vm_compute. reflexivity.
Qed.

Ltac brute x Hx :=
  revert x Hx;
  match goal with
  | |- forall y, y < 256 -> @eq N (@?l y) (@?r y) =>
      intros x Hx; apply N.eqb_eq; revert x Hx;
      apply (forall_byte (fun y => N.eqb (l y) (r y)));
      vm_compute; reflexivity
  | |- forall y, y < 256 -> N.lt (@?l y) (@?r y) =>
      intros x Hx; apply N.ltb_lt; revert x Hx;
      apply (forall_byte (fun y => N.ltb (l y) (r y)));
      vm_compute; reflexivity
  end.

Ltac brute2 x Hx y Hy :=
  revert x y Hx Hy;
  match goal with
  | |- forall u v, u < 256 -> v < 256 -> @eq N (@?l u v) (@?r u v) =>
      intros x y Hx Hy; apply N.eqb_eq; revert x y Hx Hy;
      apply (forall_byte2 (fun u v => N.eqb (l u v) (r u v)));
      vm_compute; reflexivity
  end.

Lemma gmul2_lt b : b < 256 -> gmul2 b < 256.  Proof. intro H. brute b H. Qed.
Lemma gmul3_lt b : b < 256 -> gmul3 b < 256.  Proof. intro H. brute b H. Qed.
Lemma gmul9_lt b : b < 256 -> gmul9 b < 256.  Proof. intro H. brute b H. Qed.
Lemma gmul11_lt b : b < 256 -> gmul11 b < 256.  Proof. intro H. brute b H. Qed.
Lemma gmul13_lt b : b < 256 -> gmul13 b < 256.  Proof. intro H. brute b H. Qed.
Lemma gmul14_lt b : b < 256 -> gmul14 b < 256.  Proof. intro H. brute b H. Qed.

Lemma gmul2_additive : additive gmul2.
Proof. intros a b Ha Hb. brute2 a Ha b Hb. Qed.
Lemma gmul3_additive : additive gmul3.
Proof. intros a b Ha Hb. brute2 a Ha b Hb. Qed.
Lemma gmul9_additive : additive gmul9.
Proof. intros a b Ha Hb. brute2 a Ha b Hb. Qed.
Lemma gmul11_additive : additive gmul11.
Proof. intros a b Ha Hb. brute2 a Ha b Hb. Qed.
Lemma gmul13_additive : additive gmul13.
Proof. intros a b Ha Hb. brute2 a Ha b Hb. Qed.
Lemma gmul14_additive : additive gmul14.
Proof. intros a b Ha Hb. brute2 a Ha b Hb. Qed.

Lemma additive4 f w x y z :
  additive f -> w < 256 -> x < 256 -> y < 256 -> z < 256 ->
  f (N.lxor (N.lxor (N.lxor w x) y) z) =
  N.lxor (N.lxor (N.lxor (f w) (f x)) (f y)) (f z).
Proof.
  intros Hf Hw Hx Hy Hz.
  rewrite Hf, Hf, Hf; auto using lxor_byte.
Qed.

Lemma lxor_transpose a1 b1 c1 d1 a2 b2 c2 d2 a3 b3 c3 d3 a4 b4 c4 d4 :
  N.lxor (N.lxor (N.lxor
    (N.lxor (N.lxor (N.lxor a1 b1) c1) d1)
    (N.lxor (N.lxor (N.lxor a2 b2) c2) d2))
    (N.lxor (N.lxor (N.lxor a3 b3) c3) d3))
    (N.lxor (N.lxor (N.lxor a4 b4) c4) d4) =
  N.lxor (N.lxor (N.lxor
    (N.lxor (N.lxor (N.lxor a1 a2) a3) a4)
    (N.lxor (N.lxor (N.lxor b1 b2) b3) b4))
    (N.lxor (N.lxor (N.lxor c1 c2) c3) c4))
    (N.lxor (N.lxor (N.lxor d1 d2) d3) d4).
Proof.
  apply N.bits_inj. intro i. rewrite !N.lxor_spec.
  repeat match goal with |- context [N.testbit ?x i] => generalize (N.testbit x i); intro end.
  ring.
Qed.

Ltac close_row a Ha ra b Hb rb c Hc rc d Hd rd :=
  rewrite lxor_transpose;
  match goal with
  | |- N.lxor (N.lxor (N.lxor ?GA ?GB) ?GC) ?GD = _ =>
      replace GA with ra by (symmetry; brute a Ha);
      replace GB with rb by (symmetry; brute b Hb);
      replace GC with rc by (symmetry; brute c Hc);
      replace GD with rd by (symmetry; brute d Hd)
  end;
  rewrite ?N.lxor_0_r, ?N.lxor_0_l; reflexivity.

Create HintDb gf.
#[local] Hint Resolve gmul2_lt gmul3_lt gmul9_lt gmul11_lt gmul13_lt gmul14_lt
  gmul2_additive gmul3_additive gmul9_additive gmul11_additive
  gmul13_additive gmul14_additive : gf.

Lemma inv_mix_column_mix_column a b c d :
  a < 256 -> b < 256 -> c < 256 -> d < 256 ->
  match mix_column a b c d with
  | [w; x; y; z] => inv_mix_column w x y z
  | _ => []
  end = [a; b; c; d].
Proof.
  intros Ha Hb Hc Hd. unfold mix_column, inv_mix_column.
  rewrite !(additive4 gmul14), !(additive4 gmul11), !(additive4 gmul13),
    !(additive4 gmul9) by auto with gf.
  f_equal; [| f_equal; [| f_equal; [| f_equal]]].
  - close_row a Ha a b Hb 0 c Hc 0 d Hd 0.
  - close_row a Ha 0 b Hb b c Hc 0 d Hd 0.
  - close_row a Ha 0 b Hb 0 c Hc c d Hd 0.
  - close_row a Ha 0 b Hb 0 c Hc 0 d Hd d.
Qed.

Lemma mix_column_inv_mix_column a b c d :
  a < 256 -> b < 256 -> c < 256 -> d < 256 ->
  match inv_mix_column a b c d with
  | [w; x; y; z] => mix_column w x y z
  | _ => []
  end = [a; b; c; d].
Proof.
  intros Ha Hb Hc Hd. unfold mix_column, inv_mix_column.
  f_equal; [| f_equal; [| f_equal; [| f_equal]]].
  all: rewrite ?(additive4 gmul2), ?(additive4 gmul3) by auto with gf.
  - close_row a Ha a b Hb 0 c Hc 0 d Hd 0.
  - close_row a Ha 0 b Hb b c Hc 0 d Hd 0.
  - close_row a Ha 0 b Hb 0 c Hc c d Hd 0.
  - close_row a Ha 0 b Hb 0 c Hc 0 d Hd d.
Qed.

Lemma block_inv s :
  is_block s ->
  exists s0 s1 s2 s3 s4 s5 s6 s7 s8 s9 s10 s11 s12 s13 s14 s15,
    s = [s0; s1; s2; s3; s4; s5; s6; s7; s8; s9; s10; s11; s12; s13; s14; s15] /\
    s0 < 256 /\ s1 < 256 /\ s2 < 256 /\ s3 < 256 /\ s4 < 256 /\ s5 < 256 /\
    s6 < 256 /\ s7 < 256 /\ s8 < 256 /\ s9 < 256 /\ s10 < 256 /\ s11 < 256 /\
    s12 < 256 /\ s13 < 256 /\ s14 < 256 /\ s15 < 256.
Proof.
  intros [Hl Hb].
  do 16 (destruct s as [| ? s]; [discriminate |]).
  destruct s; [| discriminate].
  repeat match goal with
         | H : is_bytes (_ :: _) |- _ => inversion H; subst; clear H
         | H : Forall _ (_ :: _) |- _ => inversion H; subst; clear H
         end.
  do 16 eexists. split; [reflexivity |]. repeat split; assumption.
Qed.

Ltac open_block H :=
  let E := fresh "E" in
  destruct (block_inv _ H)
    as (?s & ?s & ?s & ?s & ?s & ?s & ?s & ?s & ?s & ?s & ?s & ?s & ?s & ?s & ?s & ?s
        & E & ? & ? & ? & ? & ? & ? & ? & ? & ? & ? & ? & ? & ? & ? & ? & ?);
  subst.

Ltac block_tac :=
  split; [reflexivity | repeat constructor; auto using lxor_byte with gf].

Lemma sub_bytes_block s : is_block s -> is_block (sub_bytes s).
Proof.
  intros [Hl Hb]. split.
  - unfold sub_bytes. rewrite length_map. exact Hl.
  - unfold sub_bytes, is_bytes. apply Forall_map.
    eapply Forall_impl; [| exact Hb]. intros. now apply sbox_lt.
Qed.

Lemma inv_sub_bytes_block s : is_block s -> is_block (inv_sub_bytes s).
Proof.
  intros [Hl Hb]. split.
  - unfold inv_sub_bytes. rewrite length_map. exact Hl.
  - unfold inv_sub_bytes, is_bytes. apply Forall_map.
    eapply Forall_impl; [| exact Hb]. intros. now apply inv_sbox_lt.
Qed.

Lemma inv_sub_bytes_sub_bytes s : is_bytes s -> inv_sub_bytes (sub_bytes s) = s.
Proof.
  unfold inv_sub_bytes, sub_bytes. induction 1 as [| b s Hb _ IH]; simpl.
  - reflexivity.
  - now rewrite inv_sbox_sbox, IH.
Qed.

Lemma sub_bytes_inv_sub_bytes s : is_bytes s -> sub_bytes (inv_sub_bytes s) = s.
Proof.
  unfold inv_sub_bytes, sub_bytes. induction 1 as [| b s Hb _ IH]; simpl.
  - reflexivity.
  - now rewrite sbox_inv_sbox, IH.
Qed.

Lemma shift_rows_block s : is_block s -> is_block (shift_rows s).
Proof. intro H. open_block H. block_tac. Qed.

Lemma inv_shift_rows_block s : is_block s -> is_block (inv_shift_rows s).
Proof. intro H. open_block H. block_tac. Qed.

Lemma inv_shift_rows_shift_rows s : is_block s -> inv_shift_rows (shift_rows s) = s.
Proof. intro H. open_block H. reflexivity. Qed.

Lemma shift_rows_inv_shift_rows s : is_block s -> shift_rows (inv_shift_rows s) = s.
Proof. intro H. open_block H. reflexivity. Qed.

Lemma mix_columns_block s : is_block s -> is_block (mix_columns s).
Proof.
  intro H. open_block H. cbn [mix_columns app]. unfold mix_column. cbn [app].
  block_tac.
Qed.

Lemma inv_mix_columns_block s : is_block s -> is_block (inv_mix_columns s).
Proof.
  intro H. open_block H. cbn [inv_mix_columns app]. unfold inv_mix_column. cbn [app].
  block_tac.
Qed.

Lemma inv_mix_columns_mix_columns s :
  is_block s -> inv_mix_columns (mix_columns s) = s.
Proof.
  intro H. open_block H. cbn [mix_columns].
  repeat match goal with
  | |- context [mix_column ?a ?b ?c ?d] =>
      let E := fresh "E" in
      pose proof (inv_mix_column_mix_column a b c d) as E;
      destruct (mix_column a b c d) as [| ? [| ? [| ? [| ? [| ? ?]]]]] eqn:?;
      try (exfalso; unfold mix_column in *; discriminate)
  end.
  cbn [inv_mix_columns app].
  repeat match goal with
  | E : _ -> _ -> _ -> _ -> inv_mix_column _ _ _ _ = _ |- _ =>
      rewrite E by assumption; clear E
  end.
  reflexivity.
Qed.

Lemma mix_columns_inv_mix_columns s :
  is_block s -> mix_columns (inv_mix_columns s) = s.
Proof.
  intro H. open_block H. cbn [inv_mix_columns].
  repeat match goal with
  | |- context [inv_mix_column ?a ?b ?c ?d] =>
      let E := fresh "E" in
      pose proof (mix_column_inv_mix_column a b c d) as E;
      destruct (inv_mix_column a b c d) as [| ? [| ? [| ? [| ? [| ? ?]]]]] eqn:?;
      try (exfalso; unfold inv_mix_column in *; discriminate)
  end.
  cbn [mix_columns app].
  repeat match goal with
  | E : _ -> _ -> _ -> _ -> mix_column _ _ _ _ = _ |- _ =>
      rewrite E by assumption; clear E
  end.
  reflexivity.
Qed.

Lemma xor_block_length a k : length (xor_block a k) = length a.
Proof. revert k. induction a; intro k; simpl; [reflexivity | now rewrite IHa]. Qed.

Lemma xor_block_bytes a k : is_bytes (xor_block a k).
Proof.
  revert k. induction a; intro k; simpl; constructor.
  - apply xor8_lt.
  - apply IHa.
Qed.

Lemma xor_block_cancel a k : is_bytes a -> xor_block (xor_block a k) k = a.
Proof.
  intro H. revert k. induction H as [| x a Hx _ IH]; intro k; simpl.
  - reflexivity.
  - now rewrite xor8_cancel, IH.
Qed.

Lemma add_round_key_block s k : is_block s -> is_block (add_round_key s k).
Proof.
  intros [Hl _]. split.
  - unfold add_round_key. now rewrite xor_block_length.
  - apply xor_block_bytes.
Qed.

Lemma add_round_key_cancel s k :
  is_block s -> add_round_key (add_round_key s k) k = s.
Proof. intros [_ Hb]. now apply xor_block_cancel. Qed.

Create HintDb aes.
#[local] Hint Resolve sub_bytes_block inv_sub_bytes_block shift_rows_block
  inv_shift_rows_block mix_columns_block inv_mix_columns_block
  add_round_key_block : aes.

Lemma round_block s k : is_block s -> is_block (round s k).
Proof. unfold round. auto with aes. Qed.
Lemma final_round_block s k : is_block s -> is_block (final_round s k).
Proof. unfold final_round. auto with aes. Qed.
Lemma inv_round_block s k : is_block s -> is_block (inv_round s k).
Proof. unfold inv_round. auto with aes. Qed.
Lemma inv_final_round_block s k : is_block s -> is_block (inv_final_round s k).
Proof. unfold inv_final_round. auto with aes. Qed.

Lemma inv_round_round s k : is_block s -> inv_round (round s k) k = s.
Proof.
  intro H. unfold inv_round, round.
  rewrite add_round_key_cancel, inv_mix_columns_mix_columns,
    inv_shift_rows_shift_rows, inv_sub_bytes_sub_bytes; auto with aes.
  apply H.
Qed.

Lemma round_inv_round s k : is_block s -> round (inv_round s k) k = s.
Proof.
  intro H. unfold inv_round, round.
  rewrite sub_bytes_inv_sub_bytes, shift_rows_inv_shift_rows,
    mix_columns_inv_mix_columns, add_round_key_cancel; auto with aes.
  apply inv_shift_rows_block; auto with aes.
Qed.

Lemma inv_final_round_final_round s k :
  is_block s -> inv_final_round (final_round s k) k = s.
Proof.
  intro H. unfold inv_final_round, final_round.
  rewrite add_round_key_cancel, inv_shift_rows_shift_rows,
    inv_sub_bytes_sub_bytes; auto with aes.
  apply H.
Qed.

Lemma final_round_inv_final_round s k :
  is_block s -> final_round (inv_final_round s k) k = s.
Proof.
  intro H. unfold inv_final_round, final_round.
  rewrite sub_bytes_inv_sub_bytes, shift_rows_inv_shift_rows,
    add_round_key_cancel; auto with aes.
  apply inv_shift_rows_block; auto with aes.
Qed.

#[local] Hint Resolve round_block final_round_block inv_round_block
  inv_final_round_block : aes.

Lemma rounds_block ks : forall s, is_block s -> is_block (rounds ks s).
Proof.
  induction ks as [| k ks IH]; intros s H; [exact H |].
  destruct ks as [| k' ks']; [cbn; auto with aes |].
  change (rounds (k :: k' :: ks') s) with (rounds (k' :: ks') (round s k)).
  auto with aes.
Qed.

Lemma inv_rounds_block ks : forall s, is_block s -> is_block (inv_rounds ks s).
Proof.
  induction ks as [| k ks IH]; intros s H; [exact H |].
  destruct ks as [| k' ks']; [cbn; auto with aes |].
  change (inv_rounds (k :: k' :: ks') s)
    with (inv_round (inv_rounds (k' :: ks') s) k).
  auto with aes.
Qed.

Lemma inv_rounds_rounds ks : forall s, is_block s -> inv_rounds ks (rounds ks s) = s.
Proof.
  induction ks as [| k ks IH]; intros s H; [reflexivity |].
  destruct ks as [| k' ks'].
  - cbn. now apply inv_final_round_final_round.
  - change (rounds (k :: k' :: ks') s) with (rounds (k' :: ks') (round s k)).
    change (inv_rounds (k :: k' :: ks') ?x)
      with (inv_round (inv_rounds (k' :: ks') x) k).
    rewrite IH by auto with aes. now apply inv_round_round.
Qed.

Lemma rounds_inv_rounds ks : forall s, is_block s -> rounds ks (inv_rounds ks s) = s.
Proof.
  induction ks as [| k ks IH]; intros s H; [reflexivity |].
  destruct ks as [| k' ks'].
  - cbn. now apply final_round_inv_final_round.
  - change (inv_rounds (k :: k' :: ks') s)
      with (inv_round (inv_rounds (k' :: ks') s) k).
    change (rounds (k :: k' :: ks') ?x) with (rounds (k' :: ks') (round x k)).
    rewrite round_inv_round by (apply inv_rounds_block; exact H).
    now apply IH.
Qed.

Lemma cipher_block ks s : is_block s -> is_block (cipher ks s).
Proof.
  destruct ks; cbn; [auto |]. intro H. apply rounds_block. auto with aes.
Qed.

Lemma inv_cipher_block ks s : is_block s -> is_block (inv_cipher ks s).
Proof.
  destruct ks; cbn; [auto |]. intro H.
  apply add_round_key_block, inv_rounds_block, H.
Qed.

Lemma inv_cipher_cipher ks s : is_block s -> inv_cipher ks (cipher ks s) = s.
Proof.
  destruct ks; cbn; [auto |]. intro H.
  rewrite inv_rounds_rounds by auto with aes.
  now apply add_round_key_cancel.
Qed.

Lemma cipher_inv_cipher ks s : is_block s -> cipher ks (inv_cipher ks s) = s.
Proof.
  destruct ks; cbn; [auto |]. intro H.
  rewrite add_round_key_cancel by (apply inv_rounds_block; exact H).
  now apply rounds_inv_rounds.
Qed.

Lemma decrypt_encrypt_block key s :
  is_block s -> decrypt_block key (encrypt_block key s) = s.
Proof. apply inv_cipher_cipher. Qed.

Lemma encrypt_decrypt_block key s :
  is_block s -> encrypt_block key (decrypt_block key s) = s.
Proof. apply cipher_inv_cipher. Qed.

Lemma encrypt_block_block key s : is_block s -> is_block (encrypt_block key s).
Proof. apply cipher_block. Qed.

Lemma decrypt_block_block key s : is_block s -> is_block (decrypt_block key s).
Proof. apply inv_cipher_block. Qed.

(** The length of the output does not depend on the bytes being octets. *)
Lemma shift_rows_length s : length s = 16%nat -> length (shift_rows s) = 16%nat.
Proof.
  intro H. do 16 (destruct s as [| ? s]; [discriminate |]).
  destruct s; [reflexivity | discriminate].
Qed.

Lemma mix_columns_length s : length s = 16%nat -> length (mix_columns s) = 16%nat.
Proof.
  intro H. do 16 (destruct s as [| ? s]; [discriminate |]).
  destruct s; [reflexivity | discriminate].
Qed.

Lemma rounds_length ks : forall s, length s = 16%nat -> length (rounds ks s) = 16%nat.
Proof.
  induction ks as [| k ks IH]; intros s H; [exact H |].
  destruct ks as [| k' ks'].
  - cbn. unfold final_round, add_round_key, sub_bytes.
    rewrite xor_block_length. apply shift_rows_length. now rewrite length_map.
  - change (rounds (k :: k' :: ks') s) with (rounds (k' :: ks') (round s k)).
    apply IH. unfold round, add_round_key, sub_bytes.
    rewrite xor_block_length. apply mix_columns_length, shift_rows_length.
    now rewrite length_map.
Qed.

Lemma encrypt_block_length key s :
  length s = 16%nat -> length (encrypt_block key s) = 16%nat.
Proof.
  intro H. unfold encrypt_block, cipher.
  destruct (key_expansion key); [exact H |].
  apply rounds_length. unfold add_round_key. now rewrite xor_block_length.
Qed.

End AES_facts.

(** ** Blocks, chaining and padding *)

Lemma split_blocks_spec : forall data acc,
  (length acc < 16)%nat ->
  acc ++ data = concat (fst (Crypto.split_blocks acc data))
                  ++ snd (Crypto.split_blocks acc data) /\
  Forall block_sized (fst (Crypto.split_blocks acc data)) /\
  (length (snd (Crypto.split_blocks acc data)) < 16)%nat.
Proof.
  induction data as [| b data IH]; intros acc Hacc.
  - cbn. rewrite app_nil_r. auto.
  - cbn [Crypto.split_blocks].
    destruct (Nat.eqb_spec (length (acc ++ [b])) 16) as [E | E].
    + destruct (IH [] ltac:(cbn; lia)) as (H1 & H2 & H3).
      destruct (Crypto.split_blocks [] data) as [bs r]. cbn [fst snd concat] in *.
      repeat split.
      * rewrite <- !app_assoc, <- H1. reflexivity.
      * constructor; [exact E | exact H2].
      * exact H3.
    + assert (length (acc ++ [b]) < 16)%nat as Hlt
        by (rewrite length_app in *; cbn in *; lia).
      destruct (IH (acc ++ [b]) Hlt) as (H1 & H2 & H3).
      rewrite <- app_assoc in H1. auto.
Qed.

Lemma split_blocks_fill : forall x acc data,
  (length acc + length x = 16)%nat -> x <> [] ->
  Crypto.split_blocks acc (x ++ data) =
  ((acc ++ x) :: fst (Crypto.split_blocks [] data),
   snd (Crypto.split_blocks [] data)).
Proof.
  induction x as [| b x IH]; intros acc data Hlen Hx; [congruence |].
  cbn [app Crypto.split_blocks].
  destruct (Nat.eqb_spec (length (acc ++ [b])) 16) as [E | E].
  - rewrite length_app in E. cbn in E, Hlen.
    assert (x = []) by (destruct x; [reflexivity | cbn in Hlen; lia]). subst x.
    cbn [app]. now destruct (Crypto.split_blocks [] data).
  - rewrite length_app in E. cbn in E, Hlen.
    rewrite IH.
    + now rewrite <- app_assoc.
    + rewrite length_app. cbn. lia.
    + destruct x; [cbn in Hlen; lia | discriminate].
Qed.

Lemma split_blocks_concat : forall bs,
  Forall block_sized bs -> Crypto.split_blocks [] (concat bs) = (bs, []).
Proof.
  induction 1 as [| b bs Hb _ IH]; [reflexivity |].
  cbn [concat]. rewrite split_blocks_fill.
  - now rewrite IH.
  - exact Hb.
  - destruct b; [discriminate | discriminate].
Qed.

Lemma cbc_encrypt_app key : forall a b chain,
  Crypto.cbc_encrypt key chain (a ++ b) =
  (fst (Crypto.cbc_encrypt key chain a)
     ++ fst (Crypto.cbc_encrypt key (snd (Crypto.cbc_encrypt key chain a)) b),
   snd (Crypto.cbc_encrypt key (snd (Crypto.cbc_encrypt key chain a)) b)).
Proof.
  unfold Crypto.cbc_encrypt.
  induction a as [| p a IH]; intros b chain.
  - cbn. now destruct (Crypto.cbc_encrypt_with AES.encrypt_block key chain b).
  - cbn [app Crypto.cbc_encrypt_with]. rewrite IH.
    destruct (Crypto.cbc_encrypt_with AES.encrypt_block key
                (AES.encrypt_block key (AES.xor_block p chain)) a) as [cs ch].
    reflexivity.
Qed.

Lemma cbc_encrypt_sized key : forall blocks chain,
  Forall block_sized blocks ->
  Forall block_sized (fst (Crypto.cbc_encrypt key chain blocks)) /\
  length (fst (Crypto.cbc_encrypt key chain blocks)) = length blocks.
Proof.
  unfold Crypto.cbc_encrypt.
  induction blocks as [| p ps IH]; intros chain H; [cbn; auto |].
  inversion H as [| ? ? Hp Hps]; subst.
  cbn [Crypto.cbc_encrypt_with].
  destruct (IH (AES.encrypt_block key (AES.xor_block p chain)) Hps) as [IH1 IH2].
  destruct (Crypto.cbc_encrypt_with AES.encrypt_block key
              (AES.encrypt_block key (AES.xor_block p chain)) ps) as [cs ch].
  cbn [fst length] in *. split; [| now rewrite IH2].
  constructor; [| exact IH1].
  apply encrypt_block_length. rewrite xor_block_length. exact Hp.
Qed.

Lemma cbc_encrypt_bytes key : forall blocks chain,
  Forall block_sized blocks ->
  Forall is_block (fst (Crypto.cbc_encrypt key chain blocks)).
Proof.
  unfold Crypto.cbc_encrypt.
  induction blocks as [| p ps IH]; intros chain H; [constructor |].
  inversion H as [| ? ? Hp Hps]; subst.
  cbn [Crypto.cbc_encrypt_with].
  specialize (IH (AES.encrypt_block key (AES.xor_block p chain)) Hps).
  destruct (Crypto.cbc_encrypt_with AES.encrypt_block key
              (AES.encrypt_block key (AES.xor_block p chain)) ps) as [cs ch].
  cbn [fst] in *. constructor; [| exact IH].
  apply encrypt_block_block. split.
  - rewrite xor_block_length. exact Hp.
  - apply xor_block_bytes.
Qed.

(** Decrypting a chain of blocks undoes encrypting it. *)
Lemma cbc_decrypt_encrypt key : forall blocks chain,
  Forall is_block blocks ->
  fst (Crypto.cbc_decrypt key chain (fst (Crypto.cbc_encrypt key chain blocks)))
  = blocks.
Proof.
  unfold Crypto.cbc_decrypt, Crypto.cbc_encrypt.
  induction blocks as [| p ps IH]; intros chain H; [reflexivity |].
  inversion H as [| ? ? Hp Hps]; subst.
  cbn [Crypto.cbc_encrypt_with].
  specialize (IH (AES.encrypt_block key (AES.xor_block p chain)) Hps).
  destruct (Crypto.cbc_encrypt_with AES.encrypt_block key
              (AES.encrypt_block key (AES.xor_block p chain)) ps) as [cs ch].
  cbn [fst Crypto.cbc_decrypt_with] in *.
  destruct (Crypto.cbc_decrypt_with AES.decrypt_block key
              (AES.encrypt_block key (AES.xor_block p chain)) cs) as [qs ch'].
  cbn [fst] in *. subst qs. f_equal.
  rewrite decrypt_encrypt_block.
  - apply xor_block_cancel. apply Hp.
  - split; [rewrite xor_block_length; apply Hp | apply xor_block_bytes].
Qed.

Lemma pkcs7_pad_length r : (length r < 16)%nat -> block_sized (Crypto.pkcs7_pad r).
Proof.
  intro H. unfold block_sized, Crypto.pkcs7_pad.
  rewrite length_app, repeat_length. lia.
Qed.

Lemma pkcs7_pad_block r : (length r < 16)%nat -> is_bytes r -> is_block (Crypto.pkcs7_pad r).
Proof.
  intros H Hb. split; [now apply pkcs7_pad_length |].
  unfold Crypto.pkcs7_pad. apply is_bytes_app; [exact Hb |].
  apply Forall_forall. intros x Hx. apply repeat_spec in Hx. subst x. lia.
Qed.

Lemma pkcs7_unpad_pad r :
  (length r < 16)%nat -> Crypto.pkcs7_unpad (Crypto.pkcs7_pad r) = Some r.
Proof.
  intro H. unfold Crypto.pkcs7_unpad, Crypto.pkcs7_pad.
  remember (16 - length r)%nat as n eqn:En.
  assert (1 <= n <= 16)%nat as Hn by lia.
  assert (last (r ++ repeat (N.of_nat n) n) 0 = N.of_nat n) as Hlast.
  { destruct n as [| n]; [lia |].
    replace (S n) with (n + 1)%nat at 2 by lia.
    rewrite repeat_app, app_assoc. cbn [repeat]. apply last_last. }
  rewrite Hlast.
  destruct (N.eqb_spec (N.of_nat n) 0); [lia |].
  destruct (N.ltb_spec 16 (N.of_nat n)); [lia |].
  cbn [orb]. rewrite Nat2N.id.
  replace (16 - n)%nat with (length r) by lia.
  rewrite skipn_app, skipn_all, Nat.sub_diag, firstn_app, firstn_all, Nat.sub_diag.
  cbn [skipn firstn app]. rewrite app_nil_r.
  replace (forallb (N.eqb (N.of_nat n)) (repeat (N.of_nat n) n)) with true;
    [reflexivity |].
  symmetry. apply forallb_forall. intros x Hx. apply repeat_spec in Hx. subst x.
  apply N.eqb_refl.
Qed.

Lemma concat_bytes bs : Forall is_block bs -> is_bytes (concat bs).
Proof.
  induction 1 as [| b bs [_ Hb] _ IH]; [constructor |].
  cbn. now apply is_bytes_app.
Qed.

Lemma split_blocks_bytes plain :
  is_bytes plain ->
  Forall is_block (fst (Crypto.split_blocks [] plain)) /\
  is_bytes (snd (Crypto.split_blocks [] plain)).
Proof.
  intro H.
  destruct (split_blocks_spec plain [] ltac:(cbn; lia)) as (E & Hs & _).
  cbn [app] in E. rewrite E in H. unfold is_bytes in H.
  apply Forall_app in H. destruct H as [H1 H2]. split; [| exact H2].
  clear E. induction Hs as [| b bs Hb _ IH]; [constructor |].
  cbn [concat] in H1. apply Forall_app in H1. destruct H1 as [Hb1 Hb2].
  constructor; [split; assumption | now apply IH].
Qed.

Lemma concat_sized bs :
  Forall block_sized bs -> length (concat bs) = (16 * length bs)%nat.
Proof.
  induction 1 as [| b bs Hb _ IH]; [reflexivity |].
  cbn [concat length]. rewrite length_app, IH, Hb. lia.
Qed.

Lemma cbc_decrypt_blocks key : forall cs chain,
  Forall is_block cs ->
  Forall is_block (fst (Crypto.cbc_decrypt key chain cs)) /\
  length (fst (Crypto.cbc_decrypt key chain cs)) = length cs /\
  fst (Crypto.cbc_encrypt key chain (fst (Crypto.cbc_decrypt key chain cs))) = cs.
Proof.
  unfold Crypto.cbc_decrypt, Crypto.cbc_encrypt.
  induction cs as [| c cs IH]; intros chain H; [cbn; auto |].
  inversion H as [| ? ? Hc Hcs]; subst.
  cbn [Crypto.cbc_decrypt_with].
  destruct (IH c Hcs) as (IH1 & IH2 & IH3).
  destruct (Crypto.cbc_decrypt_with AES.decrypt_block key c cs) as [ps ch].
  cbn [fst length Crypto.cbc_encrypt_with] in *.
  assert (is_block (AES.decrypt_block key c)) as Hd
    by now apply decrypt_block_block.
  assert (AES.encrypt_block key
            (AES.xor_block (AES.xor_block (AES.decrypt_block key c) chain) chain)
          = c) as E.
  { rewrite xor_block_cancel by apply Hd. now apply encrypt_decrypt_block. }
  rewrite E.
  destruct (Crypto.cbc_encrypt_with AES.encrypt_block key c ps) as [cs' ch'].
  cbn [fst] in *. subst cs'. repeat split.
  - constructor; [| exact IH1]. split.
    + rewrite xor_block_length. apply Hd.
    + apply xor_block_bytes.
  - now rewrite IH2.
Qed.

Lemma split_blocks_short : forall r acc,
  (length acc + length r < 16)%nat -> Crypto.split_blocks acc r = ([], acc ++ r).
Proof.
  induction r as [| b r IH]; intros acc H.
  - cbn. now rewrite app_nil_r.
  - cbn [Crypto.split_blocks]. cbn [length] in H.
    destruct (Nat.eqb_spec (length (acc ++ [b])) 16) as [E | E].
    + rewrite length_app in E. cbn in E. lia.
    + rewrite IH by (rewrite length_app; cbn; lia).
      now rewrite <- app_assoc.
Qed.

Lemma split_blocks_concat_rest : forall bs r,
  Forall block_sized bs -> (length r < 16)%nat ->
  Crypto.split_blocks [] (concat bs ++ r) = (bs, r).
Proof.
  induction bs as [| b bs IH]; intros r H Hr.
  - cbn [concat app]. now rewrite split_blocks_short.
  - inversion H as [| ? ? Hb Hbs]; subst.
    cbn [concat]. rewrite <- app_assoc, split_blocks_fill.
    + now rewrite IH.
    + exact Hb.
    + destruct b; discriminate.
Qed.

Lemma aligned_blocks raw m :
  length raw = (16 * m)%nat -> is_bytes raw ->
  exists bs, raw = concat bs /\ Forall is_block bs /\ length bs = m.
Proof.
  intros Hl Hb.
  destruct (split_blocks_spec raw [] ltac:(cbn; lia)) as (E & Hs & Hr).
  destruct (split_blocks_bytes raw Hb) as [Hbl _].
  destruct (Crypto.split_blocks [] raw) as [bs rest]. cbn [fst snd app] in *.
  assert (length raw = 16 * length bs + length rest)%nat as El
    by (rewrite E, length_app, concat_sized by exact Hs; reflexivity).
  assert (rest = []) by (destruct rest; [reflexivity | cbn [length] in *; lia]).
  subst rest. rewrite app_nil_r in E. cbn [length] in El.
  exists bs. repeat split; try assumption. lia.
Qed.

Lemma pkcs7_unpad_inv block r :
  length block = 16%nat -> Crypto.pkcs7_unpad block = Some r ->
  block = Crypto.pkcs7_pad r /\ (length r < 16)%nat.
Proof.
  intros Hl. unfold Crypto.pkcs7_unpad.
  set (n := last block 0).
  destruct (N.eqb_spec n 0) as [| Hn0]; [discriminate |].
  destruct (N.ltb_spec 16 n) as [| Hn16]; [discriminate |].
  cbv beta iota delta [orb].
  destruct (forallb (N.eqb n) (skipn (16 - N.to_nat n) block)) eqn:Hall;
    [| discriminate].
  intro H.
  assert (r = firstn (16 - N.to_nat n) block) as -> by congruence. clear H.
  apply forallb_eqb_repeat in Hall. rewrite length_skipn, Hl in Hall.
  assert (length (firstn (16 - N.to_nat n) block) = 16 - N.to_nat n)%nat as Lf
    by (apply firstn_length_le; lia).
  split; [| lia].
  unfold Crypto.pkcs7_pad. rewrite Lf.
  replace (16 - (16 - N.to_nat n))%nat with (N.to_nat n) in * by lia.
  rewrite N2Nat.id, <- Hall. symmetry. apply firstn_skipn.
Qed.

Lemma blocks_unique bs1 r1 bs2 r2 :
  Forall block_sized bs1 -> Forall block_sized bs2 ->
  (length r1 < 16)%nat -> (length r2 < 16)%nat ->
  concat bs1 ++ r1 = concat bs2 ++ r2 -> bs1 = bs2 /\ r1 = r2.
Proof.
  intros H1 H2 L1 L2 E.
  pose proof (split_blocks_concat_rest bs1 r1 H1 L1) as E1.
  pose proof (split_blocks_concat_rest bs2 r2 H2 L2) as E2.
  rewrite E in E1. rewrite E1 in E2. inversion E2. auto.
Qed.




(** ** The cipher output of a plaintext *)

Lemma cbc_pkcs7_length key iv plain :
  length (cbc_pkcs7 key iv plain) = (16 * (length plain / 16 + 1))%nat.
Proof.
  unfold cbc_pkcs7.
  destruct (split_blocks_spec plain [] ltac:(cbn; lia)) as (E & Hsized & Hrest).
  destruct (Crypto.split_blocks [] plain) as [blocks rest]. cbn [fst snd app] in *.
  assert (Forall block_sized (blocks ++ [Crypto.pkcs7_pad rest])) as Hall.
  { apply Forall_app. split; [exact Hsized |].
    constructor; [now apply pkcs7_pad_length | constructor]. }
  destruct (cbc_encrypt_sized key _ iv Hall) as [Hcs Hcl].
  rewrite concat_sized, Hcl, length_app by exact Hcs. cbn [length].
  assert (length plain = 16 * length blocks + length rest)%nat as El
    by (rewrite E, length_app, concat_sized by exact Hsized; reflexivity).
  assert (length plain / 16 = length blocks)%nat as Ed.
  { symmetry. apply (Nat.div_unique _ _ _ (length rest)); lia. }
  lia.
Qed.

Lemma cbc_pkcs7_bytes key iv plain : is_bytes (cbc_pkcs7 key iv plain).
Proof.
  unfold cbc_pkcs7.
  destruct (split_blocks_spec plain [] ltac:(cbn; lia)) as (_ & Hsized & Hrest).
  destruct (Crypto.split_blocks [] plain) as [blocks rest]. cbn [fst snd] in *.
  apply concat_bytes, cbc_encrypt_bytes, Forall_app. split; [exact Hsized |].
  constructor; [now apply pkcs7_pad_length | constructor].
Qed.

(** ** One [update] followed by [final] *)

Lemma eqb_algorithm :
  String.eqb CryptographProcessor.algorithm "aes-256-cbc" = true.
Proof. reflexivity. Qed.

Lemma check_init_ok key iv :
  length (Utf8.encode key) = 32%nat -> length (Utf8.encode iv) = 16%nat ->
  Crypto.check_init CryptographProcessor.algorithm key iv
  = Ok (Utf8.encode key, Utf8.encode iv).
Proof.
  intros Hk Hi. unfold Crypto.check_init.
  rewrite eqb_algorithm, Hk, Hi. reflexivity.
Qed.

Section Pipeline.

Context {provider : CryptoProvider}.

Import CryptographProcessor.

Lemma encryption_fresh key iv target p :
  encryption (fresh_cipher key iv) target p =
  (Ok (Hex.encode (cbc_pkcs7 key iv (Utf8.encode target))), p).
Proof.
  unfold encryption, bind, lift, Crypto.cipher_update, Crypto.validateEncoding,
    Crypto.cipher_handle_update, Crypto.cipher_final, cbc_pkcs7, ret,
    inputEncoding, outputEncoding, Crypto.decoder_write, Crypto.decoder_end,
    Crypto.from_string.
  cbn [fresh_cipher Crypto.cipher_key Crypto.cipher_chain Crypto.cipher_partial
       Crypto.cipher_decoder].
  destruct (Crypto.split_blocks [] (Utf8.encode target)) as [blocks rest].
  rewrite cbc_encrypt_app.
  destruct (Crypto.cbc_encrypt key iv blocks) as [out chain].
  cbn [Crypto.cipher_key Crypto.cipher_chain Crypto.cipher_partial
       Crypto.cipher_decoder fst snd].
  destruct (Crypto.cbc_encrypt key chain [Crypto.pkcs7_pad rest]) as [out' chain'].
  cbn [fst]. now rewrite concat_app, hex_encode_app.
Qed.

Lemma decipher_update_nonempty d data i o bytes :
  Crypto.from_string data i = bytes -> bytes <> [] ->
  Crypto.decipher_handle_update d data i o =
  let (blocks, rest) := Crypto.split_blocks (Crypto.decipher_partial d) bytes in
  let (plain, chain) :=
    Crypto.cbc_decrypt (Crypto.decipher_key d) (Crypto.decipher_chain d) blocks in
  let all := match Crypto.decipher_held d with Some h => h :: plain | None => plain end in
  let emitted := match rest with [] => removelast all | _ => all end in
  let held := match rest with [] => Some (last all []) | _ => None end in
  let (text, dec) :=
    Crypto.decoder_write o (Crypto.decipher_decoder d) (concat emitted) in
  (text, {| Crypto.decipher_key := Crypto.decipher_key d;
            Crypto.decipher_chain := chain;
            Crypto.decipher_partial := rest; Crypto.decipher_held := held;
            Crypto.decipher_decoder := dec |}).
Proof.
  intros E Hne. unfold Crypto.decipher_handle_update. rewrite E.
  destruct bytes; [congruence | reflexivity].
Qed.

(** On a text of even length [update] passes its check and [decryption] is
    what the decipher does with the text, followed by [final]. *)
Lemma decryption_even decipher text p :
  Nat.even (length text) = true ->
  decryption decipher text p =
  (let (decryptionData, decipher') return M jsstring :=
     Crypto.decipher_handle_update decipher text outputEncoding inputEncoding in
   tail <- lift (Crypto.decipher_final decipher' inputEncoding) ;;
   ret (decryptionData ++ tail)) p.
Proof.
  intro H. unfold decryption. unfold bind at 1. unfold lift at 1.
  unfold Crypto.decipher_update, Crypto.validateEncoding, outputEncoding.
  rewrite H. reflexivity.
Qed.

(** On a text of odd length [update] throws and nothing else happens. *)
Lemma decryption_odd decipher text p :
  Nat.even (length text) = false ->
  decryption decipher text p = (Throw InvalidArgValue, p).
Proof.
  intro H. unfold decryption, bind, lift, Crypto.decipher_update,
    Crypto.validateEncoding, outputEncoding.
  rewrite H. reflexivity.
Qed.

(** Decrypting, with a fresh decipher for the same key and IV, the text that
    [encryption] returns gives the UTF-8 decoding of the plaintext bytes. *)
Lemma decryption_fresh key iv plain p :
  is_bytes plain ->
  decryption (fresh_decipher key iv) (Hex.encode (cbc_pkcs7 key iv plain)) p =
  (Ok (Utf8.decode plain), p).
Proof.
  intro Hplain. unfold cbc_pkcs7.
  destruct (split_blocks_spec plain [] ltac:(cbn; lia)) as (E & Hsized & Hrest).
  destruct (split_blocks_bytes plain Hplain) as [Hblocks Hrb].
  destruct (Crypto.split_blocks [] plain) as [blocks rest]. cbn [fst snd app] in *.
  assert (Forall is_block (blocks ++ [Crypto.pkcs7_pad rest])) as Hall.
  { apply Forall_app. split; [exact Hblocks |].
    constructor; [now apply pkcs7_pad_block | constructor]. }
  assert (Forall block_sized (blocks ++ [Crypto.pkcs7_pad rest])) as Hall'.
  { eapply Forall_impl; [| exact Hall]. intros b Hb. apply Hb. }
  pose proof (cbc_decrypt_encrypt key _ iv Hall) as Hdec.
  pose proof (cbc_encrypt_bytes key _ iv Hall') as Hcb.
  destruct (cbc_encrypt_sized key _ iv Hall') as [Hcs Hcl].
  destruct (Crypto.cbc_encrypt key iv (blocks ++ [Crypto.pkcs7_pad rest]))
    as [cblocks chain]. cbn [fst] in *.
  rewrite decryption_even by apply hex_encode_even.
  rewrite (decipher_update_nonempty _ _ _ _ (concat cblocks)).
  - cbn [fresh_decipher Crypto.decipher_key Crypto.decipher_chain
         Crypto.decipher_partial Crypto.decipher_held Crypto.decipher_decoder].
    rewrite split_blocks_concat by exact Hcs.
    destruct (Crypto.cbc_decrypt key iv cblocks) as [plain' chain'].
    cbn [fst] in Hdec. subst plain'.
    rewrite removelast_last, last_last.
    unfold inputEncoding, Crypto.decoder_write.
    pose proof (utf8_finish_app Utf8.Idle (concat blocks) rest) as Hfin.
    destruct (Utf8.write Utf8.Idle (concat blocks)) as [text st].
    cbn [fst snd] in Hfin.
    unfold bind, lift, ret, Crypto.decipher_final.
    cbn [Crypto.decipher_partial Crypto.decipher_held Crypto.decipher_decoder].
    rewrite pkcs7_unpad_pad by exact Hrest.
    unfold Crypto.decoder_end. rewrite Hfin, <- E. reflexivity.
  - unfold outputEncoding, Crypto.from_string.
    apply hex_decode_encode, concat_bytes, Hcb.
  - rewrite length_app in Hcl. cbn in Hcl.
    destruct cblocks as [| c cs]; [cbn in Hcl; lia |].
    inversion Hcs as [| ? ? Hc _]; subst.
    destruct c; [discriminate | discriminate].
Qed.

(** [decryption] depends on its text only through the parity of its length
    and the bytes it encodes. *)
Lemma decryption_decoded decipher text1 text2 p :
  Nat.even (length text1) = Nat.even (length text2) ->
  Hex.decode text1 = Hex.decode text2 ->
  decryption decipher text1 p = decryption decipher text2 p.
Proof.
  intros Hl H.
  unfold decryption, Crypto.decipher_update, Crypto.validateEncoding,
    Crypto.decipher_handle_update, outputEncoding, Crypto.from_string.
  now rewrite Hl, H.
Qed.

(** What [decryption] returns on the text of complete ciphertext blocks. *)
Lemma decryption_aligned key iv cblocks p :
  cblocks <> [] -> Forall is_block cblocks ->
  let plain := fst (Crypto.cbc_decrypt key iv cblocks) in
  decryption (fresh_decipher key iv) (Hex.encode (concat cblocks)) p =
  match Crypto.pkcs7_unpad (last plain []) with
  | Some r => (Ok (Utf8.decode (concat (removelast plain) ++ r)), p)
  | None => (Throw BadDecrypt, p)
  end.
Proof.
  intros Hne Hcb plain.
  assert (Forall block_sized cblocks) as Hcs
    by (eapply Forall_impl; [| exact Hcb]; intros b Hb; apply Hb).
  rewrite decryption_even by apply hex_encode_even.
  rewrite (decipher_update_nonempty _ _ _ _ (concat cblocks)).
  - cbn [fresh_decipher Crypto.decipher_key Crypto.decipher_chain
         Crypto.decipher_partial Crypto.decipher_held Crypto.decipher_decoder].
    rewrite split_blocks_concat by exact Hcs.
    subst plain.
    destruct (Crypto.cbc_decrypt key iv cblocks) as [plain chain']. cbn [fst].
    unfold inputEncoding, Crypto.decoder_write.
    pose proof (utf8_finish_app Utf8.Idle (concat (removelast plain))) as Hfin.
    destruct (Utf8.write Utf8.Idle (concat (removelast plain))) as [text st].
    cbn [fst snd] in Hfin.
    unfold bind, lift, ret, Crypto.decipher_final.
    cbn [Crypto.decipher_partial Crypto.decipher_held Crypto.decipher_decoder].
    destruct (Crypto.pkcs7_unpad (last plain [])) as [r |]; [| reflexivity].
    unfold Crypto.decoder_end. now rewrite Hfin.
  - unfold outputEncoding, Crypto.from_string.
    now apply hex_decode_encode, concat_bytes.
  - destruct cblocks as [| c cs]; [congruence |].
    inversion Hcs as [| ? ? Hc _]; subst. destruct c; discriminate.
Qed.

(** A ciphertext of complete blocks that decrypts to a string without
    replacement character is the ciphertext of that string. *)
Lemma decryption_clean_unique key iv cblocks P p d :
  cblocks <> [] -> Forall is_block cblocks ->
  clean P ->
  decryption (fresh_decipher key iv) (Hex.encode (concat cblocks)) p = (Ok d, p) ->
  d = P ->
  concat cblocks = cbc_pkcs7 key iv (Utf8.encode P).
Proof.
  intros Hne Hcb Hclean Hdec ->.
  rewrite decryption_aligned in Hdec by assumption. cbv zeta in Hdec.
  destruct (cbc_decrypt_blocks key cblocks iv Hcb) as (Hpb & Hpl & Henc).
  set (plain := fst (Crypto.cbc_decrypt key iv cblocks)) in *.
  assert (plain <> []) as Hpne
    by (destruct plain; [destruct cblocks; [congruence | discriminate]
                        | discriminate]).
  destruct (exists_last Hpne) as (front & final & Ep).
  rewrite Ep in Hdec, Hpb, Henc. rewrite removelast_last, last_last in Hdec.
  apply Forall_app in Hpb. destruct Hpb as [Hfb Hlb].
  apply Forall_inv in Hlb. destruct Hlb as [Hfl _].
  destruct (Crypto.pkcs7_unpad final) as [r |] eqn:Hun; [| discriminate].
  assert (Utf8.decode (concat front ++ r) = P) as Hd by congruence.
  clear Hdec.
  destruct (pkcs7_unpad_inv final r Hfl Hun) as [Efinal Hr].
  apply utf8_decode_clean in Hd; [| exact Hclean].
  (* the plaintext bytes split into the same blocks *)
  unfold cbc_pkcs7.
  destruct (split_blocks_spec (Utf8.encode P) [] ltac:(cbn; lia))
    as (E & Hsized & Hrest).
  destruct (Crypto.split_blocks [] (Utf8.encode P)) as [blocks rest].
  cbn [fst snd app] in *.
  assert (Forall block_sized front) as Hfs
    by (eapply Forall_impl; [| exact Hfb]; intros b Hb; apply Hb).
  destruct (blocks_unique front r blocks rest Hfs Hsized Hr Hrest
              ltac:(congruence)) as [Eb Er].
  rewrite <- Eb, <- Er, <- Efinal.
  now rewrite Henc.
Qed.


(** ** The steps of the pipeline *)

Lemma bind_ok {A B} (m : M A) (k : A -> M B) p a p' :
  m p = (Ok a, p') -> bind m k p = k a p'.
Proof. intro H. unfold bind. now rewrite H. Qed.


Lemma createRandomBytes_ok size p bytes e :
  entropy_read size (entropy p) = inr (bytes, e) ->
  createRandomBytes size p =
  (Ok (firstn size (Base64.encode bytes)), after_read p e).
Proof.
  intro H. unfold createRandomBytes, bind, Crypto.randomBytes, ret.
  rewrite H. now rewrite substring_0.
Qed.


Lemma createCommonKey_ok password salt p derived :
  scrypt (Utf8.encode (Password_value password))
         (Utf8.encode (Salt_value salt)) keyLength = inr derived ->
  createCommonKey password salt p =
  (Ok (new_CommonKey (firstn keyLength (Base64.encode derived))), p).
Proof.
  intro H. unfold createCommonKey, bind, lift, ret, Crypto.scryptSync.
  rewrite H. now rewrite substring_0.
Qed.


Lemma createCipher_ok commonKey iv p :
  length (Utf8.encode (CommonKey_value commonKey)) = 32%nat ->
  length (Utf8.encode (InitializationVector_value iv)) = 16%nat ->
  createCipher commonKey iv p =
  (Ok (fresh_cipher (Utf8.encode (CommonKey_value commonKey))
         (Utf8.encode (InitializationVector_value iv))), p).
Proof.
  intros Hk Hi. unfold createCipher, lift, Crypto.createCipheriv.
  now rewrite check_init_ok.
Qed.

Lemma createDecipher_ok commonKey iv p :
  length (Utf8.encode (CommonKey_value commonKey)) = 32%nat ->
  length (Utf8.encode (InitializationVector_value iv)) = 16%nat ->
  createDecipher commonKey iv p =
  (Ok (fresh_decipher (Utf8.encode (CommonKey_value commonKey))
         (Utf8.encode (InitializationVector_value iv))), p).
Proof.
  intros Hk Hi. unfold createDecipher, lift, Crypto.createDecipheriv.
  now rewrite check_init_ok.
Qed.

(** The text cut from the Base64 form of [3 * n] or more bytes is [4 * n]
    ASCII characters, hence [4 * n] bytes of key material. *)
Lemma material n bytes :
  (3 * n <= length bytes)%nat ->
  let s := firstn (4 * n) (Base64.encode bytes) in
  length s = (4 * n)%nat /\ Forall base64_char s /\ Utf8.encode s = s.
Proof.
  intros H s. destruct (base64_prefix n bytes H) as [Hl Hc].
  repeat split; try assumption.
  now apply utf8_encode_ascii, base64_chars_ascii.
Qed.

(** A complete run, given what the provider returns at each call. *)
Lemma main_run target p b1 e1 b2 e2 b3 e3 derived :
  is_jsstring target ->
  entropy_read 16 (entropy p) = inr (b1, e1) ->
  entropy_read 16 e1 = inr (b2, e2) ->
  entropy_read 16 e2 = inr (b3, e3) ->
  length b1 = 16%nat -> length b2 = 16%nat -> length b3 = 16%nat ->
  let password := firstn 16 (Base64.encode b1) in
  let salt := firstn 16 (Base64.encode b2) in
  let iv := firstn 16 (Base64.encode b3) in
  scrypt (Utf8.encode password) (Utf8.encode salt) 32 = inr derived ->
  length derived = 32%nat ->
  let key := firstn 32 (Base64.encode derived) in
  let encrypted := Hex.encode (cbc_pkcs7 key iv (Utf8.encode target)) in
  let decrypted := Utf8.decode (Utf8.encode target) in
  main target p =
  (Ok [encrypted; decrypted],
   {| entropy := e3;
      console := console p
                   ++ log_lines password salt iv key encrypted decrypted |}).
Proof.
  intros Ht H1 H2 H3 L1 L2 L3 password salt iv Hs Ld key encrypted decrypted.
  destruct (material 4 b3 ltac:(lia)) as (Li & _ & Ei).
  destruct (material 8 derived ltac:(lia)) as (Lk & _ & Ek).
  change (4 * 4)%nat with 16%nat in *. change (4 * 8)%nat with 32%nat in *.
  fold iv in Li, Ei. fold key in Lk, Ek.
  unfold main.
  rewrite (bind_ok _ _ _ _ _ (createRandomBytes_ok 16 p b1 e1 H1)).
  rewrite (bind_ok _ _ _ _ _ (createRandomBytes_ok 16 (after_read p e1) b2 e2 H2)).
  rewrite (bind_ok _ _ _ _ _
             (createRandomBytes_ok 16 (after_read (after_read p e1) e2) b3 e3 H3)).
  cbn [Password_value Salt_value InitializationVector_value].
  fold password salt iv.
  unfold bind at 1. unfold console_log at 1. cbv beta iota.
  unfold bind at 1. unfold console_log at 1. cbv beta iota.
  unfold bind at 1. unfold console_log at 1. cbv beta iota.
  erewrite bind_ok;
    [| apply (createCommonKey_ok (new_Password password) (new_Salt salt));
       exact Hs].
  fold key. cbn [CommonKey_value].
  unfold bind at 1. unfold console_log at 1. cbv beta iota.
  erewrite bind_ok;
    [| apply (createCipher_ok (new_CommonKey key) (new_InitializationVector iv));
       cbn [CommonKey_value InitializationVector_value]; congruence].
  cbn [CommonKey_value InitializationVector_value]. rewrite Ek, Ei.
  erewrite bind_ok; [| apply encryption_fresh].
  fold encrypted.
  erewrite bind_ok;
    [| apply (createDecipher_ok (new_CommonKey key) (new_InitializationVector iv));
       cbn [CommonKey_value InitializationVector_value]; congruence].
  cbn [CommonKey_value InitializationVector_value]. rewrite Ek, Ei.
  erewrite bind_ok;
    [| apply decryption_fresh; now apply utf8_encode_bytes].
  fold decrypted.
  unfold bind, console_log, ret, log_lines, after_read.
  cbn [entropy console]. rewrite <- !app_assoc. reflexivity.
Qed.

(** A run of [main] with a provider that keeps its contract: the values it
    generates, what it logs and what it returns. *)
Lemma main_material target (p : Process) :
  entropy_sized -> entropy_available -> scrypt_sized -> scrypt_available ->
  is_jsstring target ->
  exists password salt iv key p',
    main target p =
    (Ok [Hex.encode (cbc_pkcs7 key iv (Utf8.encode target));
         Utf8.decode (Utf8.encode target)], p') /\
    console p' =
    console p ++ log_lines password salt iv key
                   (Hex.encode (cbc_pkcs7 key iv (Utf8.encode target)))
                   (Utf8.decode (Utf8.encode target)) /\
    (length password = 16%nat /\ Forall base64_char password /\
     Utf8.encode password = password) /\
    (length salt = 16%nat /\ Forall base64_char salt /\
     Utf8.encode salt = salt) /\
    (length iv = 16%nat /\ Forall base64_char iv /\ Utf8.encode iv = iv) /\
    (length key = 32%nat /\ Forall base64_char key /\ Utf8.encode key = key).
Proof.
  intros Hes Hea Hss Hsa Ht.
  destruct (Hea 16%nat (entropy p)) as (b1 & e1 & H1).
  destruct (Hea 16%nat e1) as (b2 & e2 & H2).
  destruct (Hea 16%nat e2) as (b3 & e3 & H3).
  destruct (Hsa (Utf8.encode (firstn 16 (Base64.encode b1)))
                (Utf8.encode (firstn 16 (Base64.encode b2))) 32%nat)
    as (derived & Hd).
  pose proof (Hes _ _ _ _ H1) as L1. pose proof (Hes _ _ _ _ H2) as L2.
  pose proof (Hes _ _ _ _ H3) as L3. pose proof (Hss _ _ _ _ Hd) as Ld.
  pose proof (main_run target p b1 e1 b2 e2 b3 e3 derived Ht H1 H2 H3
                L1 L2 L3 Hd Ld) as Hrun.
  cbv zeta in Hrun.
  exists (firstn 16 (Base64.encode b1)), (firstn 16 (Base64.encode b2)),
    (firstn 16 (Base64.encode b3)), (firstn 32 (Base64.encode derived)).
  eexists. split; [exact Hrun |]. split; [reflexivity |].
  repeat apply conj.
  all: try apply (material 4 b1 ltac:(lia)).
  all: try apply (material 4 b2 ltac:(lia)).
  all: try apply (material 4 b3 ltac:(lia)).
  all: apply (material 8 derived ltac:(lia)).
Qed.

(** ** Failures of the provider *)






End Pipeline.

(** ** The providers used in the examples keep the contract *)

Lemma counter_entropy_sized : @entropy_sized counter_provider.
Proof.
  intros n e bytes e' H. cbn in H. inversion H; subst.
  unfold counter_bytes. now rewrite length_map, length_seq.
Qed.

Lemma counter_entropy_available : @entropy_available counter_provider.
Proof. intros n e. cbn. eauto. Qed.

Lemma counter_scrypt_sized : @scrypt_sized counter_provider.
Proof.
  intros pw s n key H. cbn in H. inversion H; subst.
  unfold mix_kdf. now rewrite length_map, length_seq.
Qed.

Lemma counter_scrypt_available : @scrypt_available counter_provider.
Proof. intros pw s n. cbn. eauto. Qed.

(* ================================================================= *)
(** * The claims *)

Section Claims.

Context {provider : CryptoProvider}.

Import CryptographProcessor.

(** C1, as amended: for every plaintext string P and every key and IV that
    the cipher accepts (32 and 16 bytes, as the pipeline produces them),
    encrypting P with [update] then [final] and decrypting the result with a
    freshly constructed decipher for the same key and IV returns P with
    every unpaired surrogate replaced by U+FFFD; what is returned is P
    exactly if and only if P has no unpaired surrogate. *)
Theorem C1_round_trip commonKey iv P (p : Process) :
  valid_pair commonKey iv ->
  is_jsstring P ->
  exists cipher decipher encrypted,
    createCipher commonKey iv p = (Ok cipher, p) /\
    encryption cipher P p = (Ok encrypted, p) /\
    createDecipher commonKey iv p = (Ok decipher, p) /\
    decryption decipher encrypted p = (Ok (scrub P), p) /\
    (scrub P = P <-> Utf8.well_formed P = true).
Proof.
  intros [Hk Hi] HP.
  exists (fresh_cipher (Utf8.encode (CommonKey_value commonKey))
            (Utf8.encode (InitializationVector_value iv))).
  exists (fresh_decipher (Utf8.encode (CommonKey_value commonKey))
            (Utf8.encode (InitializationVector_value iv))).
  eexists. split; [now apply createCipher_ok |].
  split; [apply encryption_fresh |].
  split; [now apply createDecipher_ok |].
  split; [| now apply scrub_fixed].
  rewrite decryption_fresh by now apply utf8_encode_bytes.
  now rewrite utf8_decode_encode_scrub.
Qed.

(** C2, as amended: for every input string, [main] returns exactly two
    strings, first the hexadecimal text of the cipher output, then the
    recovered plaintext, which is the input with every unpaired surrogate
    replaced by U+FFFD; it equals the input if and only if the input has no
    unpaired surrogate (the provider being one that does not fail and
    returns buffers of the requested size). *)
Theorem C2_main_returns target (p : Process) :
  entropy_sized -> entropy_available -> scrypt_sized -> scrypt_available ->
  is_jsstring target ->
  (exists key iv p',
      main target p =
      (Ok [Hex.encode (cbc_pkcs7 key iv (Utf8.encode target)); scrub target], p')) /\
  (scrub target = target <-> Utf8.well_formed target = true).
Proof.
  intros Hes Hea Hss Hsa Ht. split; [| now apply scrub_fixed].
  destruct (Hea 16%nat (entropy p)) as (b1 & e1 & H1).
  destruct (Hea 16%nat e1) as (b2 & e2 & H2).
  destruct (Hea 16%nat e2) as (b3 & e3 & H3).
  destruct (Hsa (Utf8.encode (firstn 16 (Base64.encode b1)))
                (Utf8.encode (firstn 16 (Base64.encode b2))) 32%nat)
    as (derived & Hd).
  pose proof (main_run target p b1 e1 b2 e2 b3 e3 derived Ht H1 H2 H3
                (Hes _ _ _ _ H1) (Hes _ _ _ _ H2) (Hes _ _ _ _ H3)
                Hd (Hss _ _ _ _ Hd)) as Hrun.
  cbv zeta in Hrun. rewrite utf8_decode_encode_scrub in Hrun by exact Ht.
  eauto.
Qed.

(** C3: on every invocation the generated Password, Salt and
    InitializationVector are 16 bytes long and the derived CommonKey is 32
    bytes long.  The two generating operations return values of these sizes,
    and in a run of [main] the four values (the ones it logs) have them. *)
Theorem C3_material_lengths target (p : Process) :
  entropy_sized -> entropy_available -> scrypt_sized -> scrypt_available ->
  is_jsstring target ->
  (forall q, exists s q',
      createRandomBytes 16 q = (Ok s, q') /\
      length s = 16%nat /\ length (Utf8.encode s) = 16%nat) /\
  (forall password salt q, exists commonKey,
      createCommonKey password salt q = (Ok commonKey, q) /\
      length (CommonKey_value commonKey) = 32%nat /\
      length (Utf8.encode (CommonKey_value commonKey)) = 32%nat) /\
  exists password salt iv key encrypted decrypted p',
    main target p = (Ok [encrypted; decrypted], p') /\
    console p' = console p ++ log_lines password salt iv key encrypted decrypted /\
    length (Utf8.encode password) = 16%nat /\
    length (Utf8.encode salt) = 16%nat /\
    length (Utf8.encode iv) = 16%nat /\
    length (Utf8.encode key) = 32%nat.
Proof.
  intros Hes Hea Hss Hsa Ht. split; [| split].
  - intro q. destruct (Hea 16%nat (entropy q)) as (b & e & Hb).
    destruct (material 4 b ltac:(rewrite (Hes _ _ _ _ Hb); lia)) as (L & _ & E).
    do 2 eexists. split; [apply (createRandomBytes_ok 16 q b e Hb) |].
    change (4 * 4)%nat with 16%nat in *. rewrite E. auto.
  - intros password salt q.
    destruct (Hsa (Utf8.encode (Password_value password))
                  (Utf8.encode (Salt_value salt)) keyLength) as (d & Hd).
    destruct (material 8 d ltac:(rewrite (Hss _ _ _ _ Hd); unfold keyLength; lia))
      as (L & _ & E).
    eexists. split; [apply (createCommonKey_ok password salt q d Hd) |].
    cbn [CommonKey_value]. change (4 * 8)%nat with 32%nat in *.
    unfold keyLength. rewrite E. auto.
  - destruct (main_material target p Hes Hea Hss Hsa Ht)
      as (password & salt & iv & key & p' & Hrun & Hlog
          & (L1 & _ & E1) & (L2 & _ & E2) & (L3 & _ & E3) & (L4 & _ & E4)).
    exists password, salt, iv, key. do 3 eexists.
    split; [exact Hrun |]. split; [exact Hlog |].
    rewrite E1, E2, E3, E4. auto.
Qed.

(** C5: the scenario with plaintext "test", password "0123456789abcdef",
    salt "fedcba9876543210" and an IV of 16 zero bytes.  The derivation gives
    one key whatever the process state, encryption with that key gives one
    hexadecimal string (the text of 16 bytes), and decrypting that string
    returns "test". *)
Theorem C5_scenario :
  scrypt_sized -> scrypt_available ->
  let password := new_Password (lit "0123456789abcdef") in
  let salt := new_Salt (lit "fedcba9876543210") in
  let iv := new_InitializationVector (repeat 0 16) in
  exists commonKey encrypted raw,
    (forall p : Process, createCommonKey password salt p = (Ok commonKey, p)) /\
    (forall p : Process, exists cipher,
        createCipher commonKey iv p = (Ok cipher, p) /\
        encryption cipher (lit "test") p = (Ok encrypted, p)) /\
    encrypted = Hex.encode raw /\ length raw = 16%nat /\
    length encrypted = 32%nat /\
    (forall p : Process, exists decipher,
        createDecipher commonKey iv p = (Ok decipher, p) /\
        decryption decipher encrypted p = (Ok (lit "test"), p)).
Proof.
  intros Hss Hsa password salt iv.
  destruct (Hsa (Utf8.encode (Password_value password))
                (Utf8.encode (Salt_value salt)) keyLength) as (d & Hd).
  destruct (material 8 d ltac:(rewrite (Hss _ _ _ _ Hd); unfold keyLength; lia))
    as (L & _ & E).
  change (4 * 8)%nat with 32%nat in *.
  set (key := firstn 32 (Base64.encode d)) in *.
  assert (valid_pair (new_CommonKey key) iv) as [Hk Hi].
  { split; cbn [CommonKey_value]; [now rewrite E | reflexivity]. }
  exists (new_CommonKey key).
  exists (Hex.encode (cbc_pkcs7 (Utf8.encode key)
                        (Utf8.encode (InitializationVector_value iv))
                        (Utf8.encode (lit "test")))).
  eexists. split; [| split; [| split; [reflexivity | split; [| split]]]].
  - intro p. apply (createCommonKey_ok password salt p d Hd).
  - intro p. eexists. split; [now apply createCipher_ok |].
    apply encryption_fresh.
  - rewrite cbc_pkcs7_length. reflexivity.
  - rewrite hex_encode_length, cbc_pkcs7_length. reflexivity.
  - intro p. eexists. split; [now apply createDecipher_ok |].
    rewrite decryption_fresh.
    + reflexivity.
    + repeat constructor.
Qed.



(** C8, as amended: a run of [main] returns its two results and, besides
    reading the entropy source, appends six lines to the console: the
    password, the salt and the IV that the three calls of
    [createRandomBytes] returned and the key that [createCommonKey] derived
    from that password and salt, each after its label, then the ciphertext
    made with that key and IV and the recovered plaintext. *)
Theorem C8_main_effects target (p : Process) :
  entropy_sized -> entropy_available -> scrypt_sized -> scrypt_available ->
  is_jsstring target ->
  exists password salt iv key encrypted decrypted q1 q2 q3,
    createRandomBytes 16 p = (Ok password, q1) /\
    createRandomBytes 16 q1 = (Ok salt, q2) /\
    createRandomBytes 16 q2 = (Ok iv, q3) /\
    createCommonKey (new_Password password) (new_Salt salt) q3
    = (Ok (new_CommonKey key), q3) /\
    encrypted = Hex.encode (cbc_pkcs7 key iv (Utf8.encode target)) /\
    decrypted = scrub target /\
    main target p =
    (Ok [encrypted; decrypted],
     {| entropy := entropy q3;
        console := console p ++
          [ lit "password.value: " ++ password;
            lit "salt.value: " ++ salt;
            lit "iv.value: " ++ iv;
            lit "commonKey: " ++ key;
            label_encrypted ++ encrypted;
            label_decrypted ++ decrypted ] |}).
Proof.
  intros Hes Hea Hss Hsa Ht.
  destruct (Hea 16%nat (entropy p)) as (b1 & e1 & H1).
  destruct (Hea 16%nat e1) as (b2 & e2 & H2).
  destruct (Hea 16%nat e2) as (b3 & e3 & H3).
  destruct (Hsa (Utf8.encode (firstn 16 (Base64.encode b1)))
                (Utf8.encode (firstn 16 (Base64.encode b2))) 32%nat)
    as (derived & Hd).
  pose proof (main_run target p b1 e1 b2 e2 b3 e3 derived Ht H1 H2 H3
                (Hes _ _ _ _ H1) (Hes _ _ _ _ H2) (Hes _ _ _ _ H3)
                Hd (Hss _ _ _ _ Hd)) as Hrun.
  cbv zeta in Hrun. rewrite utf8_decode_encode_scrub in Hrun by exact Ht.
  exists (firstn 16 (Base64.encode b1)), (firstn 16 (Base64.encode b2)),
    (firstn 16 (Base64.encode b3)), (firstn 32 (Base64.encode derived)).
  do 2 eexists.
  exists (after_read p e1), (after_read (after_read p e1) e2),
    (after_read (after_read (after_read p e1) e2) e3).
  split; [apply (createRandomBytes_ok 16 p b1 e1 H1) |].
  split; [apply (createRandomBytes_ok 16 (after_read p e1) b2 e2 H2) |].
  split; [apply (createRandomBytes_ok 16 (after_read (after_read p e1) e2) b3 e3 H3) |].
  split; [apply (createCommonKey_ok (new_Password _) (new_Salt _) _ derived Hd) |].
  split; [reflexivity |]. split; [reflexivity |].
  exact Hrun.
Qed.

(** C9: every character of the generated Password, Salt and IV strings and
    of the derived CommonKey string is one of the 64 characters of the
    Base64 alphabet (A-Z, a-z, 0-9, '+', '/'); the padding character '='
    does not occur, because the text is cut before the last group.  This
    holds for what the two generating operations return and for the four
    values of a run of [main]. *)
Theorem C9_material_alphabet target (p : Process) :
  entropy_sized -> entropy_available -> scrypt_sized -> scrypt_available ->
  is_jsstring target ->
  length Base64.alphabet = 64%nat /\
  (forall q, exists s q',
      createRandomBytes 16 q = (Ok s, q') /\ Forall base64_char s) /\
  (forall password salt q, exists commonKey,
      createCommonKey password salt q = (Ok commonKey, q) /\
      Forall base64_char (CommonKey_value commonKey)) /\
  exists password salt iv key encrypted decrypted p',
    main target p = (Ok [encrypted; decrypted], p') /\
    console p' = console p ++ log_lines password salt iv key encrypted decrypted /\
    Forall base64_char password /\ Forall base64_char salt /\
    Forall base64_char iv /\ Forall base64_char key.
Proof.
  intros Hes Hea Hss Hsa Ht. split; [reflexivity |]. split; [| split].
  - intro q. destruct (Hea 16%nat (entropy q)) as (b & e & Hb).
    destruct (material 4 b ltac:(rewrite (Hes _ _ _ _ Hb); lia)) as (_ & C & _).
    do 2 eexists. split; [apply (createRandomBytes_ok 16 q b e Hb) | exact C].
  - intros password salt q.
    destruct (Hsa (Utf8.encode (Password_value password))
                  (Utf8.encode (Salt_value salt)) keyLength) as (d & Hd).
    destruct (material 8 d ltac:(rewrite (Hss _ _ _ _ Hd); unfold keyLength; lia))
      as (_ & C & _).
    eexists. split; [apply (createCommonKey_ok password salt q d Hd) | exact C].
  - destruct (main_material target p Hes Hea Hss Hsa Ht)
      as (password & salt & iv & key & p' & Hrun & Hlog
          & (_ & C1 & _) & (_ & C2 & _) & (_ & C3 & _) & (_ & C4 & _)).
    exists password, salt, iv, key. do 3 eexists.
    split; [exact Hrun |]. split; [exact Hlog |]. auto.
Qed.

(** C10: for a plaintext whose UTF-8 encoding has [L] bytes, the text that
    [encryption] returns is a string of hexadecimal digits with
    [32 * (L / 16 + 1)] characters, a positive multiple of 32: one block of
    32 digits for each complete block of the plaintext and one more for the
    padded block, also when [L] is a multiple of 16. *)
Theorem C10_ciphertext_length commonKey iv target (p p' : Process) cipher :
  createCipher commonKey iv p = (Ok cipher, p') ->
  exists encrypted,
    encryption cipher target p' = (Ok encrypted, p') /\
    Forall hex_char encrypted /\
    length encrypted = (32 * (length (Utf8.encode target) / 16 + 1))%nat /\
    (0 < length (Utf8.encode target) / 16 + 1)%nat.
Proof.
  unfold createCipher, lift, Crypto.createCipheriv. intro H.
  destruct (Crypto.check_init algorithm (CommonKey_value commonKey)
              (InitializationVector_value iv)) as [[k v] | e];
    [| discriminate].
  inversion H; subst. eexists. split; [apply encryption_fresh |].
  split; [apply hex_encode_chars, cbc_pkcs7_bytes |].
  split; [| lia].
  rewrite hex_encode_length, cbc_pkcs7_length. lia.
Qed.

End Claims.

(* ================================================================= *)
(** * The claims at concrete inputs *)

(** C1, as stated, fails: the string made of the single unpaired surrogate
    U+D800 is encrypted as the bytes of U+FFFD, and decryption returns
    U+FFFD. *)
Lemma C1_counterexample :
  let commonKey := new_CommonKey (lit "SB0Zr+zyAXVbkhyT/ootPXB3foWMk5qh") in
  let iv := new_InitializationVector (lit "q9D1Gj9kia7T+B1C") in
  let P := [0xD800] in
  exists cipher decipher encrypted,
    CryptographProcessor.createCipher commonKey iv p0 = (Ok cipher, p0) /\
    CryptographProcessor.encryption cipher P p0 = (Ok encrypted, p0) /\
    CryptographProcessor.createDecipher commonKey iv p0 = (Ok decipher, p0) /\
    CryptographProcessor.decryption decipher encrypted p0 = (Ok [0xFFFD], p0) /\
    [0xFFFD] <> P.
Proof.
  cbv zeta. do 3 eexists.
  split; [vm_compute; reflexivity |].
  split; [vm_compute; reflexivity |].
  split; [vm_compute; reflexivity |].
  split; [vm_compute; reflexivity | discriminate].
Qed.

Lemma C1_witness :
  let commonKey := new_CommonKey (lit "SB0Zr+zyAXVbkhyT/ootPXB3foWMk5qh") in
  let iv := new_InitializationVector (lit "q9D1Gj9kia7T+B1C") in
  valid_pair commonKey iv /\
  is_jsstring (lit "test") /\
  exists cipher decipher encrypted,
    CryptographProcessor.createCipher commonKey iv p0 = (Ok cipher, p0) /\
    CryptographProcessor.encryption cipher (lit "test") p0 = (Ok encrypted, p0) /\
    CryptographProcessor.createDecipher commonKey iv p0 = (Ok decipher, p0) /\
    CryptographProcessor.decryption decipher encrypted p0
    = (Ok (scrub (lit "test")), p0) /\
    (scrub (lit "test") = lit "test" <-> Utf8.well_formed (lit "test") = true).
Proof.
  cbv zeta.
  assert (valid_pair (new_CommonKey (lit "SB0Zr+zyAXVbkhyT/ootPXB3foWMk5qh"))
            (new_InitializationVector (lit "q9D1Gj9kia7T+B1C"))) as Hv
    by (split; reflexivity).
  assert (is_jsstring (lit "test")) as Ht by (repeat constructor).
  split; [exact Hv |]. split; [exact Ht |].
  apply (C1_round_trip _ _ (lit "test") p0 Hv Ht).
Defined.

(** C2, as stated, fails: on the input made of the unpaired surrogate U+D800
    [main] returns U+FFFD as the recovered plaintext. *)
Lemma C2_counterexample :
  exists encrypted p',
    CryptographProcessor.main [0xD800] p0 = (Ok [encrypted; [0xFFFD]], p') /\
    [0xFFFD] <> [0xD800].
Proof.
  do 2 eexists. split; [vm_compute; reflexivity | discriminate].
Qed.

Lemma C2_witness :
  (@entropy_sized counter_provider /\ @entropy_available counter_provider /\
   @scrypt_sized counter_provider /\ @scrypt_available counter_provider /\
   is_jsstring (lit "test")) /\
  (exists key iv p',
      CryptographProcessor.main (lit "test") p0 =
      (Ok [Hex.encode (cbc_pkcs7 key iv (Utf8.encode (lit "test")));
           scrub (lit "test")], p')) /\
  (scrub (lit "test") = lit "test" <-> Utf8.well_formed (lit "test") = true).
Proof.
  assert (is_jsstring (lit "test")) as Ht by (repeat constructor).
  split.
  - repeat split;
      auto using counter_entropy_sized, counter_entropy_available,
        counter_scrypt_sized, counter_scrypt_available.
  - apply (C2_main_returns (lit "test") p0
             counter_entropy_sized counter_entropy_available
             counter_scrypt_sized counter_scrypt_available Ht).
Defined.

Lemma C3_witness :
  (@entropy_sized counter_provider /\ @entropy_available counter_provider /\
   @scrypt_sized counter_provider /\ @scrypt_available counter_provider /\
   is_jsstring (lit "test")) /\
  exists password salt iv key encrypted decrypted p',
    CryptographProcessor.main (lit "test") p0 = (Ok [encrypted; decrypted], p') /\
    console p' = console p0 ++
      log_lines password salt iv key encrypted decrypted /\
    length (Utf8.encode password) = 16%nat /\
    length (Utf8.encode salt) = 16%nat /\
    length (Utf8.encode iv) = 16%nat /\
    length (Utf8.encode key) = 32%nat.
Proof.
  assert (is_jsstring (lit "test")) as Ht by (repeat constructor).
  split.
  - repeat split;
      auto using counter_entropy_sized, counter_entropy_available,
        counter_scrypt_sized, counter_scrypt_available.
  - apply (proj2 (proj2 (C3_material_lengths (lit "test") p0
             counter_entropy_sized counter_entropy_available
             counter_scrypt_sized counter_scrypt_available Ht))).
Defined.

Lemma C5_witness :
  (@scrypt_sized counter_provider /\ @scrypt_available counter_provider) /\
  exists commonKey encrypted raw,
    (forall p : @Process counter_provider,
        CryptographProcessor.createCommonKey
          (new_Password (lit "0123456789abcdef"))
          (new_Salt (lit "fedcba9876543210")) p = (Ok commonKey, p)) /\
    (forall p : @Process counter_provider, exists cipher,
        CryptographProcessor.createCipher commonKey
          (new_InitializationVector (repeat 0 16)) p = (Ok cipher, p) /\
        CryptographProcessor.encryption cipher (lit "test") p = (Ok encrypted, p)) /\
    encrypted = Hex.encode raw /\ length raw = 16%nat /\
    length encrypted = 32%nat /\
    (forall p : @Process counter_provider, exists decipher,
        CryptographProcessor.createDecipher commonKey
          (new_InitializationVector (repeat 0 16)) p = (Ok decipher, p) /\
        CryptographProcessor.decryption decipher encrypted p
        = (Ok (lit "test"), p)).
Proof.
  split.
  - split; [apply counter_scrypt_sized | apply counter_scrypt_available].
  - apply (@C5_scenario counter_provider
             counter_scrypt_sized counter_scrypt_available).
Defined.





(** C8, as stated, fails: a run of [main] leaves the password and the
    derived key on the console. *)
Lemma C8_counterexample :
  exists results p',
    CryptographProcessor.main (lit "test") p0 = (Ok results, p') /\
    console p' <> console p0 /\
    In (lit "password.value: CzBVep/E6Q4zWH2i") (console p') /\
    In (lit "commonKey: SB0Zr+zyAXVbkhyT/ootPXB3foWMk5qh") (console p').
Proof.
  do 2 eexists. split; [vm_compute; reflexivity |].
  split; [discriminate |].
  split; [left; reflexivity | right; right; right; left; reflexivity].
Qed.

Lemma C8_witness :
  (@entropy_sized counter_provider /\ @entropy_available counter_provider /\
   @scrypt_sized counter_provider /\ @scrypt_available counter_provider /\
   is_jsstring (lit "test")) /\
  exists password salt iv key encrypted decrypted q1 q2 q3,
    CryptographProcessor.createRandomBytes 16 p0 = (Ok password, q1) /\
    CryptographProcessor.createRandomBytes 16 q1 = (Ok salt, q2) /\
    CryptographProcessor.createRandomBytes 16 q2 = (Ok iv, q3) /\
    CryptographProcessor.createCommonKey (new_Password password) (new_Salt salt) q3
    = (Ok (new_CommonKey key), q3) /\
    encrypted = Hex.encode (cbc_pkcs7 key iv (Utf8.encode (lit "test"))) /\
    decrypted = scrub (lit "test") /\
    CryptographProcessor.main (lit "test") p0 =
    (Ok [encrypted; decrypted],
     {| entropy := entropy q3;
        console := console p0 ++
          [ lit "password.value: " ++ password;
            lit "salt.value: " ++ salt;
            lit "iv.value: " ++ iv;
            lit "commonKey: " ++ key;
            CryptographProcessor.label_encrypted ++ encrypted;
            CryptographProcessor.label_decrypted ++ decrypted ] |}).
Proof.
  assert (is_jsstring (lit "test")) as Ht by (repeat constructor).
  split.
  - repeat split;
      auto using counter_entropy_sized, counter_entropy_available,
        counter_scrypt_sized, counter_scrypt_available.
  - apply (C8_main_effects (lit "test") p0
             counter_entropy_sized counter_entropy_available
             counter_scrypt_sized counter_scrypt_available Ht).
Defined.

Lemma C9_witness :
  (@entropy_sized counter_provider /\ @entropy_available counter_provider /\
   @scrypt_sized counter_provider /\ @scrypt_available counter_provider /\
   is_jsstring (lit "test")) /\
  exists password salt iv key encrypted decrypted p',
    CryptographProcessor.main (lit "test") p0 = (Ok [encrypted; decrypted], p') /\
    console p' = console p0 ++
      log_lines password salt iv key encrypted decrypted /\
    Forall base64_char password /\ Forall base64_char salt /\
    Forall base64_char iv /\ Forall base64_char key.
Proof.
  assert (is_jsstring (lit "test")) as Ht by (repeat constructor).
  split.
  - repeat split;
      auto using counter_entropy_sized, counter_entropy_available,
        counter_scrypt_sized, counter_scrypt_available.
  - apply (proj2 (proj2 (proj2 (C9_material_alphabet (lit "test") p0
             counter_entropy_sized counter_entropy_available
             counter_scrypt_sized counter_scrypt_available Ht)))).
Defined.

Lemma C10_witness :
  let commonKey := new_CommonKey (lit "SB0Zr+zyAXVbkhyT/ootPXB3foWMk5qh") in
  let iv := new_InitializationVector (lit "q9D1Gj9kia7T+B1C") in
  let cipher := fresh_cipher (lit "SB0Zr+zyAXVbkhyT/ootPXB3foWMk5qh")
                  (lit "q9D1Gj9kia7T+B1C") in
  CryptographProcessor.createCipher commonKey iv p0 = (Ok cipher, p0) /\
  exists encrypted,
    CryptographProcessor.encryption cipher (lit "test") p0 = (Ok encrypted, p0) /\
    Forall hex_char encrypted /\
    length encrypted = (32 * (length (Utf8.encode (lit "test")) / 16 + 1))%nat /\
    (0 < length (Utf8.encode (lit "test")) / 16 + 1)%nat.
Proof.
  cbv zeta.
  assert (CryptographProcessor.createCipher
            (new_CommonKey (lit "SB0Zr+zyAXVbkhyT/ootPXB3foWMk5qh"))
            (new_InitializationVector (lit "q9D1Gj9kia7T+B1C")) p0
          = (Ok (fresh_cipher (lit "SB0Zr+zyAXVbkhyT/ootPXB3foWMk5qh")
                   (lit "q9D1Gj9kia7T+B1C")), p0)) as H by reflexivity.
  split; [exact H |].
  apply (C10_ciphertext_length _ _ (lit "test") p0 p0 _ H).
Defined.

(* ================================================================= *)
(** * Further properties of the class *)

(** ** Base64 text cut to a length *)

(** Cutting the Base64 text of [b] to no more characters than [b] has bytes
    leaves alphabet characters only: the padding lies behind the cut. *)
Lemma base64_firstn_chars : forall m b n,
  (length b <= m)%nat -> (n <= length b)%nat ->
  length (firstn n (Base64.encode b)) = n /\
  Forall base64_char (firstn n (Base64.encode b)).
Proof.
  assert (forall l, Forall base64_char l -> forall v,
             Forall base64_char (Base64.char v :: l)) as Hc
    by (intros l Hl v; constructor; [apply base64_char_char | exact Hl]).
  induction m as [| m IH]; intros b n Hm Hn.
  { destruct b; [| cbn in Hm; lia]. destruct n; [| cbn in Hn; lia].
    cbn. auto. }
  destruct b as [| x [| y [| z rest]]].
  - destruct n; [| cbn in Hn; lia]. cbn. auto.
  - destruct n as [| [| n]]; [| | cbn in Hn; lia]; cbn [Base64.encode firstn];
      (split; [reflexivity | auto]).
  - destruct n as [| [| [| n]]]; [| | | cbn in Hn; lia];
      cbn [Base64.encode firstn]; (split; [reflexivity | auto]).
  - cbn [length] in Hm, Hn.
    destruct n as [| [| [| [| n]]]]; cbn [Base64.encode firstn].
    1-4: split; [reflexivity | auto].
    destruct (IH rest n ltac:(lia) ltac:(lia)) as [L C].
    split; [cbn [length]; now rewrite L | auto].
Qed.

(** The first [4 * k] characters are the Base64 text of the first [3 * k]
    bytes. *)
Lemma base64_firstn_encode : forall k b,
  (3 * k <= length b)%nat ->
  firstn (4 * k) (Base64.encode b) = Base64.encode (firstn (3 * k) b).
Proof.
  induction k as [| k IH]; intros b H; [reflexivity |].
  destruct b as [| x [| y [| z rest]]]; try (cbn in H; lia).
  replace (4 * S k)%nat with (S (S (S (S (4 * k))))) by lia.
  replace (3 * S k)%nat with (S (S (S (3 * k)))) by lia.
  cbn [length] in H.
  cbn [Base64.encode firstn]. now rewrite IH by lia.
Qed.

(** ** The size of a UTF-8 encoding *)

Lemma of_code_point_length cp :
  (1 <= length (Utf8.of_code_point cp))%nat /\
  (length (Utf8.of_code_point cp) = 1%nat -> cp < 128).
Proof.
  unfold Utf8.of_code_point.
  destruct (N.ltb_spec cp 0x80); [cbn; split; [lia | auto] |].
  destruct (N.ltb_spec cp 0x800); [cbn; split; [lia | discriminate] |].
  destruct (N.ltb_spec cp 0x10000); cbn; split; try lia; discriminate.
Qed.

Lemma of_code_point_pair_length cp :
  0x10000 <= cp -> length (Utf8.of_code_point cp) = 4%nat.
Proof.
  intro H. unfold Utf8.of_code_point.
  destruct (N.ltb_spec cp 0x80); [lia |].
  destruct (N.ltb_spec cp 0x800); [lia |].
  destruct (N.ltb_spec cp 0x10000); [lia | reflexivity].
Qed.

(** A string has at least as many UTF-8 bytes as code units, and exactly as
    many only when it is ASCII. *)
Lemma utf8_encode_length : forall s,
  (length s <= length (Utf8.encode s))%nat /\
  (length (Utf8.encode s) = length s -> ascii_string s).
Proof.
  assert (length (Utf8.of_code_point Utf8.replacement) = 3%nat) as Hrep
    by reflexivity.
  induction s as [| u | u l s IH1 IH2] using list_pair_ind.
  - cbn. split; [lia | constructor].
  - rewrite utf8_encode_cons.
    destruct (Utf8.is_high_surrogate u); [| destruct (Utf8.is_low_surrogate u)];
      cbn [Utf8.encode]; rewrite ?app_nil_r, ?length_app, ?Hrep; cbn [length].
    + split; [lia | intro; lia].
    + split; [lia | intro; lia].
    + destruct (of_code_point_length u) as [H1 H2].
      split; [lia |]. intro E. constructor; [now apply H2 | constructor].
  - rewrite utf8_encode_cons.
    destruct IH1 as [IH1a IH1b]. destruct IH2 as [IH2a IH2b].
    cbn [length] in *.
    destruct (Utf8.is_high_surrogate u) eqn:Hh.
    + destruct (Utf8.is_low_surrogate l) eqn:Hl; rewrite length_app.
      * destruct (surrogate_pair u l Hh Hl) as [_ Hun].
        rewrite of_code_point_pair_length.
        -- split; [lia | intro; lia].
        -- unfold Utf8.is_high_surrogate, Utf8.is_low_surrogate in Hh, Hl.
           apply andb_prop in Hh, Hl. destruct Hh as [Hh _], Hl as [Hl _].
           apply N.leb_le in Hh, Hl. lia.
      * rewrite Hrep. split; [lia | intro; lia].
    + destruct (Utf8.is_low_surrogate u); rewrite length_app.
      * rewrite Hrep. split; [lia | intro; lia].
      * destruct (of_code_point_length u) as [H1 H2].
        split; [lia |]. intro E.
        constructor; [apply H2; lia | apply IH2b; lia].
Qed.

Lemma utf8_encode_scrub : forall s, Utf8.encode (scrub s) = Utf8.encode s.
Proof.
  assert (forall t, Utf8.encode (Utf8.replacement :: t)
                    = Utf8.of_code_point Utf8.replacement ++ Utf8.encode t)
    as Hrep by (intro t; now rewrite utf8_encode_cons).
  induction s as [| u | u l s IH1 IH2] using list_pair_ind.
  - reflexivity.
  - rewrite scrub_cons, utf8_encode_cons.
    destruct (Utf8.is_high_surrogate u) eqn:Hh;
      [| destruct (Utf8.is_low_surrogate u) eqn:Hl].
    + reflexivity.
    + reflexivity.
    + cbn [scrub]. rewrite utf8_encode_cons, Hh, Hl. reflexivity.
  - rewrite scrub_cons, (utf8_encode_cons u (l :: s)).
    destruct (Utf8.is_high_surrogate u) eqn:Hh.
    + destruct (Utf8.is_low_surrogate l) eqn:Hl.
      * rewrite utf8_encode_cons, Hh, Hl, IH1. reflexivity.
      * rewrite Hrep, IH2. reflexivity.
    + destruct (Utf8.is_low_surrogate u) eqn:Hl.
      * rewrite Hrep, IH2. reflexivity.
      * rewrite utf8_encode_cons, Hh, Hl, IH2. reflexivity.
Qed.

Section Material.

Context {provider : CryptoProvider}.

Import CryptographProcessor.

(** X1: For every size, [createRandomBytes] returns a string of exactly [size]
    characters, all from the 64-character Base64 alphabet, which is [size]
    bytes in UTF-8. *)
Theorem createRandomBytes_size size (p : Process) bytes e :
  entropy_read size (entropy p) = inr (bytes, e) ->
  length bytes = size ->
  exists s,
    createRandomBytes size p = (Ok s, after_read p e) /\
    length s = size /\ Forall base64_char s /\
    length (Utf8.encode s) = size.
Proof.
  intros H L.
  destruct (base64_firstn_chars (length bytes) bytes size (le_n _)
              ltac:(lia)) as [Hl Hc].
  eexists. split; [apply (createRandomBytes_ok _ _ _ _ H) |].
  split; [exact Hl |]. split; [exact Hc |].
  rewrite utf8_encode_ascii by now apply base64_chars_ascii.
  exact Hl.
Qed.

(** X2: The string of [4 * k] characters that [createRandomBytes] returns is the
    Base64 text of the first [3 * k] bytes read: the last [k] random bytes
    do not reach it. *)
Theorem createRandomBytes_uses_three_quarters k (p : Process) bytes e :
  entropy_read (4 * k) (entropy p) = inr (bytes, e) ->
  length bytes = (4 * k)%nat ->
  createRandomBytes (4 * k) p =
  (Ok (Base64.encode (firstn (3 * k) bytes)), after_read p e).
Proof.
  intros H L.
  rewrite (createRandomBytes_ok _ _ _ _ H).
  now rewrite base64_firstn_encode by lia.
Qed.

(** X3: The common key is the Base64 text of the first 24 of the 32 bytes that
    scrypt derives. *)
Theorem createCommonKey_uses_24_bytes password salt (p : Process) derived :
  scrypt (Utf8.encode (Password_value password))
         (Utf8.encode (Salt_value salt)) keyLength = inr derived ->
  length derived = 32%nat ->
  createCommonKey password salt p =
  (Ok (new_CommonKey (Base64.encode (firstn 24 derived))), p).
Proof.
  intros H L.
  rewrite (createCommonKey_ok _ _ _ _ H). unfold keyLength.
  now rewrite (base64_firstn_encode 8) by lia.
Qed.

(** X4: A key of 32 characters and an IV of 16 characters are accepted by
    [createCipher] and [createDecipher] exactly when both are ASCII: the
    lengths that count are those of the UTF-8 bytes.  An IV that is not
    ASCII is reported first, as an invalid IV, then a key that is not ASCII,
    as an invalid key length. *)
Theorem createCipher_accepts_ascii commonKey iv (p : Process) :
  length (CommonKey_value commonKey) = 32%nat ->
  length (InitializationVector_value iv) = 16%nat ->
  let key := CommonKey_value commonKey in
  let vec := InitializationVector_value iv in
  (ascii_string key -> ascii_string vec ->
   createCipher commonKey iv p = (Ok (fresh_cipher key vec), p) /\
   createDecipher commonKey iv p = (Ok (fresh_decipher key vec), p)) /\
  (~ ascii_string vec ->
   createCipher commonKey iv p = (Throw InvalidIV, p) /\
   createDecipher commonKey iv p = (Throw InvalidIV, p)) /\
  (ascii_string vec -> ~ ascii_string key ->
   createCipher commonKey iv p = (Throw InvalidKeyLength, p) /\
   createDecipher commonKey iv p = (Throw InvalidKeyLength, p)).
Proof.
  intros Lk Li key vec.
  assert (forall s n, length s = n -> ~ ascii_string s ->
                      (length (Utf8.encode s) =? n)%nat = false) as Hno.
  { intros s n Ls Hs. apply Nat.eqb_neq. intro E. apply Hs.
    apply utf8_encode_length. congruence. }
  assert (forall s n, length s = n -> ascii_string s ->
                      (length (Utf8.encode s) =? n)%nat = true) as Hyes.
  { intros s n Ls Hs. apply Nat.eqb_eq. now rewrite utf8_encode_ascii. }
  unfold createCipher, createDecipher, lift, Crypto.createCipheriv,
    Crypto.createDecipheriv, Crypto.check_init.
  fold key vec. rewrite eqb_algorithm. cbn [negb].
  repeat split.
  - rewrite (Hyes vec 16%nat), (Hyes key 32%nat) by assumption. cbn [negb].
    subst key vec. now rewrite !utf8_encode_ascii.
  - rewrite (Hyes vec 16%nat), (Hyes key 32%nat) by assumption. cbn [negb].
    subst key vec. now rewrite !utf8_encode_ascii.
  - now rewrite (Hno vec 16%nat).
  - now rewrite (Hno vec 16%nat).
  - rewrite (Hyes vec 16%nat), (Hno key 32%nat) by assumption. reflexivity.
  - rewrite (Hyes vec 16%nat), (Hno key 32%nat) by assumption. reflexivity.
Qed.

End Material.

(** ** Blocks and the IV *)

Lemma xor8_comm a k : AES.xor8 a k = AES.xor8 k a.
Proof. unfold AES.xor8. now rewrite N.lxor_comm. Qed.

Lemma xor8_inj a k1 k2 :
  k1 < 256 -> k2 < 256 -> AES.xor8 a k1 = AES.xor8 a k2 -> k1 = k2.
Proof.
  intros H1 H2 E.
  rewrite <- (xor8_cancel k1 a H1), <- (xor8_cancel k2 a H2).
  now rewrite (xor8_comm k1 a), (xor8_comm k2 a), E.
Qed.

Lemma xor_block_inj : forall p v1 v2,
  length v1 = length p -> length v2 = length p ->
  is_bytes v1 -> is_bytes v2 ->
  AES.xor_block p v1 = AES.xor_block p v2 -> v1 = v2.
Proof.
  induction p as [| x p IH]; intros v1 v2 L1 L2 B1 B2 E.
  - destruct v1, v2; try discriminate. reflexivity.
  - destruct v1 as [| a v1], v2 as [| b v2]; try discriminate.
    cbn [AES.xor_block hd tl] in E. injection E as E0 E1.
    inversion B1; inversion B2; subst.
    cbn [length] in L1, L2.
    f_equal; [now apply (xor8_inj x) | apply IH; auto].
Qed.

Lemma aligned_sized raw k :
  length raw = (16 * k)%nat ->
  exists bs, raw = concat bs /\ Forall block_sized bs /\ length bs = k.
Proof.
  intro Hl.
  destruct (split_blocks_spec raw [] ltac:(cbn; lia)) as (E & Hs & Hr).
  destruct (Crypto.split_blocks [] raw) as [bs rest]. cbn [fst snd app] in *.
  assert (length raw = 16 * length bs + length rest)%nat as El
    by (rewrite E, length_app, concat_sized by exact Hs; reflexivity).
  assert (rest = []) by (destruct rest; [reflexivity | cbn [length] in *; lia]).
  subst rest. rewrite app_nil_r in E. cbn [length] in El.
  exists bs. repeat split; try assumption. lia.
Qed.

Lemma split_blocks_app_aligned : forall bs data,
  Forall block_sized bs ->
  Crypto.split_blocks [] (concat bs ++ data) =
  (bs ++ fst (Crypto.split_blocks [] data), snd (Crypto.split_blocks [] data)).
Proof.
  induction bs as [| b bs IH]; intros data H.
  - cbn. now destruct (Crypto.split_blocks [] data).
  - inversion H as [| ? ? Hb Hbs]; subst.
    cbn [concat]. rewrite <- app_assoc, split_blocks_fill.
    + rewrite IH by exact Hbs. reflexivity.
    + exact Hb.
    + destruct b; discriminate.
Qed.

Lemma concat_sized_inj bs1 bs2 :
  Forall block_sized bs1 -> Forall block_sized bs2 ->
  concat bs1 = concat bs2 -> bs1 = bs2.
Proof.
  intros H1 H2 E.
  apply (blocks_unique bs1 [] bs2 [] H1 H2); cbn; try lia.
  now rewrite !app_nil_r.
Qed.

Lemma cbc_encrypt_with_head (enc : list N -> list N -> list N) key chain b bs :
  fst (Crypto.cbc_encrypt_with enc key chain (b :: bs)) =
  enc key (AES.xor_block b chain)
    :: fst (Crypto.cbc_encrypt_with enc key (enc key (AES.xor_block b chain)) bs).
Proof.
  cbn [Crypto.cbc_encrypt_with].
  now destruct (Crypto.cbc_encrypt_with enc key (enc key (AES.xor_block b chain)) bs).
Qed.

Lemma cons_head_eq {A} (a b : A) l m : a :: l = b :: m -> a = b.
Proof. congruence. Qed.

(** Under one key, two IVs that chain the same blocks to the same
    ciphertext are equal. *)
Lemma cbc_encrypt_iv_inj key v1 v2 blocks :
  blocks <> [] -> Forall block_sized blocks ->
  is_block v1 -> is_block v2 ->
  fst (Crypto.cbc_encrypt key v1 blocks) = fst (Crypto.cbc_encrypt key v2 blocks) ->
  v1 = v2.
Proof.
  intros Hne Hs [L1 B1] [L2 B2] E.
  destruct blocks as [| b bs]; [congruence |].
  pose proof (Forall_inv Hs) as Hb. unfold block_sized in Hb.
  unfold Crypto.cbc_encrypt in E. rewrite !cbc_encrypt_with_head in E.
  apply cons_head_eq in E.
  apply (f_equal (AES.decrypt_block key)) in E.
  rewrite !decrypt_encrypt_block in E
    by (split; [rewrite xor_block_length; exact Hb | apply xor_block_bytes]).
  apply (xor_block_inj b); auto; rewrite Hb; assumption.
Qed.

Lemma cbc_pkcs7_iv_inj key v1 v2 plain :
  is_block v1 -> is_block v2 ->
  cbc_pkcs7 key v1 plain = cbc_pkcs7 key v2 plain -> v1 = v2.
Proof.
  intros H1 H2. unfold cbc_pkcs7.
  destruct (split_blocks_spec plain [] ltac:(cbn; lia)) as (_ & Hsized & Hrest).
  destruct (Crypto.split_blocks [] plain) as [blocks rest]. cbn [fst snd] in *.
  assert (Forall block_sized (blocks ++ [Crypto.pkcs7_pad rest])) as Hall.
  { apply Forall_app. split; [exact Hsized |].
    constructor; [now apply pkcs7_pad_length | constructor]. }
  intro E.
  apply concat_sized_inj in E; try apply cbc_encrypt_sized; try exact Hall.
  assert (blocks ++ [Crypto.pkcs7_pad rest] <> []) as Hne
    by (intro Hnil; apply app_eq_nil in Hnil; destruct Hnil; discriminate).
  exact (cbc_encrypt_iv_inj key v1 v2 (blocks ++ [Crypto.pkcs7_pad rest])
           Hne Hall H1 H2 E).
Qed.

(** ** What [decryption] does with any text *)

Section Decryption.

Context {provider : CryptoProvider}.

Import CryptographProcessor.

Lemma createCipher_inv commonKey iv (p p' : Process) cipher :
  createCipher commonKey iv p = (Ok cipher, p') ->
  valid_pair commonKey iv /\ p' = p /\
  cipher = fresh_cipher (Utf8.encode (CommonKey_value commonKey))
             (Utf8.encode (InitializationVector_value iv)).
Proof.
  unfold createCipher, lift, Crypto.createCipheriv, Crypto.check_init, valid_pair.
  destruct (negb _); [discriminate |].
  destruct (Nat.eqb_spec (length (Utf8.encode (InitializationVector_value iv))) 16);
    [| discriminate].
  destruct (Nat.eqb_spec (length (Utf8.encode (CommonKey_value commonKey))) 32);
    [| discriminate].
  cbn [negb]. intros [= <- <-]. auto.
Qed.

Lemma createDecipher_inv commonKey iv (p p' : Process) decipher :
  createDecipher commonKey iv p = (Ok decipher, p') ->
  valid_pair commonKey iv /\ p' = p /\
  decipher = fresh_decipher (Utf8.encode (CommonKey_value commonKey))
               (Utf8.encode (InitializationVector_value iv)).
Proof.
  unfold createDecipher, lift, Crypto.createDecipheriv, Crypto.check_init,
    valid_pair.
  destruct (negb _); [discriminate |].
  destruct (Nat.eqb_spec (length (Utf8.encode (InitializationVector_value iv))) 16);
    [| discriminate].
  destruct (Nat.eqb_spec (length (Utf8.encode (CommonKey_value commonKey))) 32);
    [| discriminate].
  cbn [negb]. intros [= <- <-]. auto.
Qed.

(** No bytes, or bytes that do not fill whole blocks: [final] reports a
    wrong final block length. *)
Lemma decryption_unaligned key iv text (p : Process) :
  Nat.even (length text) = true ->
  Hex.decode text = [] \/ (length (Hex.decode text) mod 16 <> 0)%nat ->
  decryption (fresh_decipher key iv) text p = (Throw WrongFinalBlockLength, p).
Proof.
  intros Hev H. rewrite decryption_even by exact Hev.
  destruct (Hex.decode text) as [| b bs] eqn:E.
  - unfold Crypto.decipher_handle_update, outputEncoding, Crypto.from_string.
    rewrite E. reflexivity.
  - destruct H as [H | H]; [discriminate |].
    rewrite (decipher_update_nonempty _ _ _ _ (b :: bs)); [| exact E | discriminate].
    cbn [fresh_decipher Crypto.decipher_key Crypto.decipher_chain
         Crypto.decipher_partial Crypto.decipher_held Crypto.decipher_decoder].
    destruct (split_blocks_spec (b :: bs) [] ltac:(cbn; lia)) as (Es & Hs & Hr).
    destruct (Crypto.split_blocks [] (b :: bs)) as [blocks rest].
    cbn [fst snd app] in *.
    assert (length (b :: bs) = 16 * length blocks + length rest)%nat as El
      by (rewrite Es, length_app, concat_sized by exact Hs; reflexivity).
    destruct rest as [| r rest].
    { exfalso. apply H. rewrite El. cbn [length].
      rewrite Nat.add_0_r, Nat.mul_comm. apply Nat.Div0.mod_mul. }
    destruct (Crypto.cbc_decrypt key iv blocks) as [plain chain].
    destruct (Crypto.decoder_write inputEncoding Utf8.Idle (concat plain))
      as [out dec].
    reflexivity.
Qed.

(** Every text takes [decryption] to one of four results. *)
Lemma decryption_cases key iv text (p : Process) :
  Nat.even (length text) = false /\
  decryption (fresh_decipher key iv) text p = (Throw InvalidArgValue, p)
  \/
  Nat.even (length text) = true /\
  (Hex.decode text = [] \/ (length (Hex.decode text) mod 16 <> 0)%nat) /\
  decryption (fresh_decipher key iv) text p = (Throw WrongFinalBlockLength, p)
  \/
  Nat.even (length text) = true /\
  exists cblocks,
    Hex.decode text = concat cblocks /\ cblocks <> [] /\
    Forall is_block cblocks /\
    decryption (fresh_decipher key iv) text p =
    match Crypto.pkcs7_unpad
            (last (fst (Crypto.cbc_decrypt key iv cblocks)) []) with
    | Some r =>
        (Ok (Utf8.decode
               (concat (removelast (fst (Crypto.cbc_decrypt key iv cblocks)))
                  ++ r)), p)
    | None => (Throw BadDecrypt, p)
    end.
Proof.
  destruct (Nat.even (length text)) eqn:Hev;
    [| left; split; [reflexivity | now apply decryption_odd]].
  right.
  destruct (Nat.eq_dec (length (Hex.decode text) mod 16) 0) as [Hm | Hm];
    [destruct (Hex.decode text) as [| b bs] eqn:E |].
  - left. split; [reflexivity |]. split; [now left |].
    apply decryption_unaligned; [exact Hev | now left].
  - right. split; [reflexivity |]. rewrite <- E in *.
    assert (length (Hex.decode text)
            = 16 * (length (Hex.decode text) / 16))%nat as Hl.
    { rewrite (Nat.div_mod_eq (length (Hex.decode text)) 16) at 1. lia. }
    destruct (aligned_blocks _ _ Hl (hex_decode_bytes text))
      as (cblocks & Ec & Hcb & Hcl).
    assert (cblocks <> []) as Hne.
    { intro; subst cblocks. rewrite Ec in E. discriminate. }
    exists cblocks. repeat split; try assumption.
    assert (decryption (fresh_decipher key iv) text p
            = decryption (fresh_decipher key iv)
                (Hex.encode (concat cblocks)) p) as ->.
    { apply decryption_decoded.
      - now rewrite hex_encode_even, Hev.
      - rewrite hex_decode_encode; [exact Ec | now apply concat_bytes]. }
    now apply decryption_aligned.
  - left. split; [reflexivity |]. split; [now right |].
    apply decryption_unaligned; [exact Hev | now right].
Qed.

End Decryption.

(** ** Hexadecimal text *)

Lemma hex_encode_firstn : forall n b,
  firstn (2 * n) (Hex.encode b) = Hex.encode (firstn n b).
Proof.
  induction n as [| n IH]; intro b; [reflexivity |].
  destruct b as [| x b]; [reflexivity |].
  replace (2 * S n)%nat with (S (S (2 * n))) by lia.
  cbn [firstn Hex.encode flat_map Hex.of_byte app].
  fold (Hex.encode b). fold (Hex.encode (firstn n b)). now rewrite IH.
Qed.

(** ** Whole blocks at the head of the plaintext *)

Lemma cbc_pkcs7_app key iv bs data :
  Forall block_sized bs ->
  cbc_pkcs7 key iv (concat bs ++ data) =
  concat (fst (Crypto.cbc_encrypt key iv bs))
    ++ cbc_pkcs7 key (snd (Crypto.cbc_encrypt key iv bs)) data.
Proof.
  intro H. unfold cbc_pkcs7. rewrite split_blocks_app_aligned by exact H.
  destruct (Crypto.split_blocks [] data) as [blocks rest]. cbn [fst snd].
  rewrite <- app_assoc, cbc_encrypt_app. cbn [fst]. apply concat_app.
Qed.

Lemma cbc_pkcs7_firstn key iv plain1 plain2 k :
  (16 * k <= length plain1)%nat -> (16 * k <= length plain2)%nat ->
  firstn (16 * k) plain1 = firstn (16 * k) plain2 ->
  firstn (16 * k) (cbc_pkcs7 key iv plain1) =
  firstn (16 * k) (cbc_pkcs7 key iv plain2).
Proof.
  intros L1 L2 E.
  destruct (aligned_sized (firstn (16 * k) plain1) k) as (bs & Eb & Hs & Hl).
  { rewrite firstn_length_le; [reflexivity | exact L1]. }
  assert (forall plain, firstn (16 * k) plain = concat bs ->
            firstn (16 * k) (cbc_pkcs7 key iv plain)
            = concat (fst (Crypto.cbc_encrypt key iv bs))) as Hcut.
  { intros plain Ep.
    rewrite <- (firstn_skipn (16 * k) plain) at 1. rewrite Ep.
    rewrite cbc_pkcs7_app by exact Hs.
    destruct (cbc_encrypt_sized key bs iv Hs) as [Hcs Hcl].
    rewrite firstn_app, concat_sized, Hcl, Hl, Nat.sub_diag by exact Hcs.
    cbn [firstn]. rewrite app_nil_r. apply firstn_all2.
    rewrite concat_sized, Hcl, Hl by exact Hcs. lia. }
  rewrite (Hcut plain1 Eb), (Hcut plain2); [reflexivity | now rewrite <- E].
Qed.

(** ** The cipher as the class uses it *)

Section Engine.

Context {provider : CryptoProvider}.

Import CryptographProcessor.

(** X5: The text that [encryption] returns consists of lower-case hexadecimal
    digits only, two for each byte of the cipher output, and it is the
    hexadecimal text of the bytes it decodes to. *)
Theorem encryption_hex_text commonKey iv target (p p' : Process) cipher :
  createCipher commonKey iv p = (Ok cipher, p') ->
  exists encrypted,
    encryption cipher target p' = (Ok encrypted, p') /\
    Forall hex_char encrypted /\
    Hex.encode (Hex.decode encrypted) = encrypted /\
    is_bytes (Hex.decode encrypted) /\
    length encrypted = (2 * length (Hex.decode encrypted))%nat.
Proof.
  intro H. apply createCipher_inv in H. destruct H as (_ & _ & ->).
  eexists. split; [apply encryption_fresh |].
  pose proof (cbc_pkcs7_bytes (Utf8.encode (CommonKey_value commonKey))
                (Utf8.encode (InitializationVector_value iv))
                (Utf8.encode target)) as Hb.
  rewrite (hex_decode_encode _ Hb).
  repeat split; auto using hex_encode_chars, hex_encode_length.
Qed.

(** X6: Two plaintexts encrypted by ciphers made for the same key and IV give
    the same text exactly when the plaintexts are equal once every unpaired
    surrogate is replaced by U+FFFD: distinct well-formed strings never
    collide, and strings that differ only in unpaired surrogates always
    do. *)
Theorem encryption_collisions commonKey iv P1 P2 (p q p' q' : Process)
    cipher1 cipher2 c1 c2 :
  createCipher commonKey iv p = (Ok cipher1, p') ->
  createCipher commonKey iv q = (Ok cipher2, q') ->
  is_jsstring P1 -> is_jsstring P2 ->
  encryption cipher1 P1 p' = (Ok c1, p') ->
  encryption cipher2 P2 q' = (Ok c2, q') ->
  (c1 = c2 <-> scrub P1 = scrub P2).
Proof.
  intros H1 H2 J1 J2.
  apply createCipher_inv in H1, H2.
  destruct H1 as (_ & _ & ->), H2 as (_ & _ & ->).
  rewrite !encryption_fresh. intros E1 E2.
  assert (c1 = Hex.encode (cbc_pkcs7 (Utf8.encode (CommonKey_value commonKey))
                             (Utf8.encode (InitializationVector_value iv))
                             (Utf8.encode P1))) as -> by congruence.
  assert (c2 = Hex.encode (cbc_pkcs7 (Utf8.encode (CommonKey_value commonKey))
                             (Utf8.encode (InitializationVector_value iv))
                             (Utf8.encode P2))) as -> by congruence.
  clear E1 E2. split; intro E.
  - pose proof (decryption_fresh (Utf8.encode (CommonKey_value commonKey))
                  (Utf8.encode (InitializationVector_value iv))
                  (Utf8.encode P1) p (utf8_encode_bytes P1 J1)) as D1.
    pose proof (decryption_fresh (Utf8.encode (CommonKey_value commonKey))
                  (Utf8.encode (InitializationVector_value iv))
                  (Utf8.encode P2) p (utf8_encode_bytes P2 J2)) as D2.
    rewrite E, D2 in D1.
    rewrite <- (utf8_decode_encode_scrub P1 J1), <- (utf8_decode_encode_scrub P2 J2).
    congruence.
  - now rewrite <- (utf8_encode_scrub P1), <- (utf8_encode_scrub P2), E.
Qed.

(** X7: Chaining starts from the IV: when the UTF-8 bytes of two plaintexts
    agree on their first [k] blocks, the texts that ciphers for the same key
    and IV return agree on their first [32 * k] characters. *)
Theorem encryption_common_prefix commonKey iv P1 P2 k (p q p' q' : Process)
    cipher1 cipher2 c1 c2 :
  createCipher commonKey iv p = (Ok cipher1, p') ->
  createCipher commonKey iv q = (Ok cipher2, q') ->
  (16 * k <= length (Utf8.encode P1))%nat ->
  (16 * k <= length (Utf8.encode P2))%nat ->
  firstn (16 * k) (Utf8.encode P1) = firstn (16 * k) (Utf8.encode P2) ->
  encryption cipher1 P1 p' = (Ok c1, p') ->
  encryption cipher2 P2 q' = (Ok c2, q') ->
  firstn (32 * k) c1 = firstn (32 * k) c2.
Proof.
  intros H1 H2 L1 L2 E.
  apply createCipher_inv in H1, H2.
  destruct H1 as (_ & _ & ->), H2 as (_ & _ & ->).
  rewrite !encryption_fresh. intros E1 E2.
  assert (c1 = Hex.encode (cbc_pkcs7 (Utf8.encode (CommonKey_value commonKey))
                             (Utf8.encode (InitializationVector_value iv))
                             (Utf8.encode P1))) as -> by congruence.
  assert (c2 = Hex.encode (cbc_pkcs7 (Utf8.encode (CommonKey_value commonKey))
                             (Utf8.encode (InitializationVector_value iv))
                             (Utf8.encode P2))) as -> by congruence.
  replace (32 * k)%nat with (2 * (16 * k))%nat by lia.
  rewrite !hex_encode_firstn. f_equal. now apply cbc_pkcs7_firstn.
Qed.

(** X8: [decryption] throws the argument error of [update] exactly when
    the text has an odd number of characters, and the wrong-final-block-
    length error exactly when the text has an even number of characters and
    decodes to no bytes at all (the empty string, or a text that does not
    start with two hexadecimal digits) or to a number of bytes that is not a
    multiple of 16; for every other text it throws bad decrypt or returns a
    string.  The process state is unchanged in every case. *)
Theorem decryption_wrong_final_block commonKey iv text (p p' : Process) decipher :
  createDecipher commonKey iv p = (Ok decipher, p') ->
  (decryption decipher text p' = (Throw InvalidArgValue, p') <->
   Nat.even (length text) = false) /\
  (decryption decipher text p' = (Throw WrongFinalBlockLength, p') <->
   Nat.even (length text) = true /\
   (Hex.decode text = [] \/ (length (Hex.decode text) mod 16 <> 0)%nat)) /\
  (decryption decipher text p' = (Throw InvalidArgValue, p') \/
   decryption decipher text p' = (Throw WrongFinalBlockLength, p') \/
   decryption decipher text p' = (Throw BadDecrypt, p') \/
   exists d, decryption decipher text p' = (Ok d, p')).
Proof.
  intro H. apply createDecipher_inv in H. destruct H as (_ & _ & ->).
  destruct (decryption_cases (Utf8.encode (CommonKey_value commonKey))
              (Utf8.encode (InitializationVector_value iv)) text p')
    as [[Hodd Hd] | [(Hev & Hu & Hd) | (Hev & cblocks & Ec & Hne & Hcb & Hd)]].
  - rewrite Hd, Hodd. repeat split; auto; try discriminate.
    intros [? _]; discriminate.
  - rewrite Hd, Hev. repeat split; auto; discriminate.
  - assert (Hex.decode text <> [] /\ (length (Hex.decode text) mod 16 = 0)%nat)
      as [Hn Hm].
    { rewrite Ec. split.
      - destruct cblocks as [| c cs]; [congruence |].
        destruct (Forall_inv Hcb) as [Hl _].
        destruct c; [discriminate | discriminate].
      - rewrite concat_sized
          by (eapply Forall_impl; [| exact Hcb]; intros a [Ha _]; exact Ha).
        rewrite Nat.mul_comm. apply Nat.Div0.mod_mul. }
    rewrite Hev.
    destruct (Crypto.pkcs7_unpad _) as [r |] in Hd; rewrite Hd.
    + split; [split; discriminate |].
      split; [| right; right; right; eauto].
      split; [discriminate | intros [_ [? | ?]]; contradiction].
    + split; [split; discriminate |].
      split; [| right; right; now left].
      split; [discriminate | intros [_ [? | ?]]; contradiction].
Qed.

(** X9: only the length and the bytes of the text matter to [decryption]:
    for a text of ASCII characters, its upper-case form gives the same
    result, value or error, as the text itself. *)
Theorem decryption_ignores_case decipher text (p : Process) :
  ascii_string text ->
  decryption decipher (map ascii_upper text) p = decryption decipher text p.
Proof.
  intros _. apply decryption_decoded.
  - now rewrite length_map.
  - apply hex_decode_upper.
Qed.

(** X10: for a well-formed plaintext P without U+FFFD, [decryption]
    returns P for exactly the texts of even length that decode to the cipher
    output for P: no other sequence of bytes decrypts to P under the same key
    and IV. *)
Theorem decryption_returns_plaintext commonKey iv P text (p p' : Process) decipher :
  createDecipher commonKey iv p = (Ok decipher, p') ->
  is_jsstring P -> clean P -> Utf8.well_formed P = true ->
  (decryption decipher text p' = (Ok P, p') <->
   Nat.even (length text) = true /\
   Hex.decode text =
   cbc_pkcs7 (Utf8.encode (CommonKey_value commonKey))
     (Utf8.encode (InitializationVector_value iv)) (Utf8.encode P)).
Proof.
  intros H HP Hclean Hwf. apply createDecipher_inv in H.
  destruct H as (_ & _ & ->).
  set (key := Utf8.encode (CommonKey_value commonKey)).
  set (vec := Utf8.encode (InitializationVector_value iv)).
  split.
  - intro Hd.
    destruct (decryption_cases key vec text p')
      as [[_ Hthrow] | [(_ & _ & Hthrow) | (Hev & cblocks & Ec & Hne & Hcb & _)]];
      [congruence | congruence |].
    split; [exact Hev |]. rewrite Ec.
    apply (decryption_clean_unique key vec cblocks P p' P Hne Hcb Hclean);
      [| reflexivity].
    rewrite <- Hd. apply decryption_decoded.
    + now rewrite hex_encode_even, Hev.
    + rewrite hex_decode_encode; [now symmetry | now apply concat_bytes].
  - intros [Hev E].
    assert (decryption (fresh_decipher key vec) text p'
            = decryption (fresh_decipher key vec)
                (Hex.encode (cbc_pkcs7 key vec (Utf8.encode P))) p') as ->.
    { apply decryption_decoded.
      - now rewrite hex_encode_even, Hev.
      - rewrite hex_decode_encode; [exact E | apply cbc_pkcs7_bytes]. }
    rewrite decryption_fresh by now apply utf8_encode_bytes.
    rewrite utf8_decode_encode_scrub by exact HP.
    now rewrite (proj2 (scrub_fixed P HP) Hwf).
Qed.

(** X11: A decipher made for the same key and another IV does not recover the
    plaintext: on the text that [encryption] returned for a plaintext P
    without U+FFFD, [decryption] throws bad decrypt or returns a string
    different from P. *)
Theorem decryption_other_iv commonKey iv1 iv2 P (p q p' q' : Process)
    cipher decipher encrypted :
  createCipher commonKey iv1 p = (Ok cipher, p') ->
  createDecipher commonKey iv2 q = (Ok decipher, q') ->
  is_jsstring (InitializationVector_value iv1) ->
  is_jsstring (InitializationVector_value iv2) ->
  Utf8.encode (InitializationVector_value iv1)
  <> Utf8.encode (InitializationVector_value iv2) ->
  clean P ->
  encryption cipher P p' = (Ok encrypted, p') ->
  decryption decipher encrypted q' = (Throw BadDecrypt, q') \/
  exists d, decryption decipher encrypted q' = (Ok d, q') /\ d <> P.
Proof.
  intros H1 H2 J1 J2 Hne Hclean.
  apply createCipher_inv in H1. apply createDecipher_inv in H2.
  destruct H1 as ([_ Hl1] & _ & ->), H2 as ([_ Hl2] & _ & ->).
  set (key := Utf8.encode (CommonKey_value commonKey)) in *.
  set (v1 := Utf8.encode (InitializationVector_value iv1)) in *.
  set (v2 := Utf8.encode (InitializationVector_value iv2)) in *.
  rewrite encryption_fresh. intro E.
  assert (encrypted = Hex.encode (cbc_pkcs7 key v1 (Utf8.encode P))) as ->
    by congruence.
  clear E.
  assert (Hex.decode (Hex.encode (cbc_pkcs7 key v1 (Utf8.encode P)))
          = cbc_pkcs7 key v1 (Utf8.encode P)) as Hraw
    by (apply hex_decode_encode, cbc_pkcs7_bytes).
  destruct (decryption_cases key v2
              (Hex.encode (cbc_pkcs7 key v1 (Utf8.encode P))) q')
    as [[Hodd _] | [(_ & Hu & _) | (_ & cblocks & Ec & Hnn & Hcb & Hd)]].
  - rewrite hex_encode_even in Hodd. discriminate.
  - exfalso. rewrite Hraw in Hu.
    pose proof (cbc_pkcs7_length key v1 (Utf8.encode P)) as Hlen.
    destruct Hu as [Hu | Hu].
    + rewrite Hu in Hlen. cbn [length] in Hlen. lia.
    + apply Hu. rewrite Hlen, Nat.mul_comm. apply Nat.Div0.mod_mul.
  - rewrite Hraw in Ec. rewrite Ec in Hd |- *.
    destruct (Crypto.pkcs7_unpad _) as [r |] in Hd; [| now left].
    right. eexists. split; [exact Hd |]. intro Heq.
    apply Hne.
    apply (cbc_pkcs7_iv_inj key v1 v2 (Utf8.encode P)).
    + split; [exact Hl1 | now apply utf8_encode_bytes].
    + split; [exact Hl2 | now apply utf8_encode_bytes].
    + rewrite Ec.
      exact (decryption_clean_unique key v2 cblocks P q' _ Hnn Hcb Hclean Hd Heq).
Qed.

(** X13: the values that [main] generates do not depend on the plaintext.
    From a given process state the password, the salt and the IV are the
    first 16 Base64 characters of three reads of 16 bytes from the entropy
    source, and the key is the first 32 Base64 characters of the one
    derivation from that password and salt; with them [main] encrypts
    whatever string it is given, and it leaves the entropy source after the
    third read. *)
Theorem main_material_fixed (p : Process) :
  entropy_sized -> entropy_available -> scrypt_sized -> scrypt_available ->
  exists b1 e1 b2 e2 b3 e3 derived,
    entropy_read 16 (entropy p) = inr (b1, e1) /\
    entropy_read 16 e1 = inr (b2, e2) /\
    entropy_read 16 e2 = inr (b3, e3) /\
    let password := firstn 16 (Base64.encode b1) in
    let salt := firstn 16 (Base64.encode b2) in
    let iv := firstn 16 (Base64.encode b3) in
    scrypt (Utf8.encode password) (Utf8.encode salt) keyLength = inr derived /\
    let key := firstn 32 (Base64.encode derived) in
    forall target, is_jsstring target ->
      let encrypted := Hex.encode (cbc_pkcs7 key iv (Utf8.encode target)) in
      main target p =
      (Ok [encrypted; scrub target],
       {| entropy := e3;
          console := console p
                       ++ log_lines password salt iv key encrypted
                            (scrub target) |}).
Proof.
  intros Hes Hea Hss Hsa.
  destruct (Hea 16%nat (entropy p)) as (b1 & e1 & H1).
  destruct (Hea 16%nat e1) as (b2 & e2 & H2).
  destruct (Hea 16%nat e2) as (b3 & e3 & H3).
  destruct (Hsa (Utf8.encode (firstn 16 (Base64.encode b1)))
                (Utf8.encode (firstn 16 (Base64.encode b2))) 32%nat)
    as (derived & Hd).
  exists b1, e1, b2, e2, b3, e3, derived.
  split; [exact H1 |]. split; [exact H2 |]. split; [exact H3 |].
  cbv zeta. split; [exact Hd |].
  intros target Ht.
  pose proof (main_run target p b1 e1 b2 e2 b3 e3 derived Ht H1 H2 H3
                (Hes _ _ _ _ H1) (Hes _ _ _ _ H2) (Hes _ _ _ _ H3)
                Hd (Hss _ _ _ _ Hd)) as Hrun.
  cbv zeta in Hrun. rewrite utf8_decode_encode_scrub in Hrun by exact Ht.
  exact Hrun.
Qed.

(** X14: The program [index.ts] logs the line with its input first and then runs
    [main] on it.  When [main] throws, the error leaves the program and the
    result line is not logged; when [main] returns, the program logs the two
    results joined by a comma.  With a provider that keeps its contract the
    console receives eight lines, the last one being the label, the 32
    hexadecimal digits of the one block and the input. *)
Theorem index_run_console (p : Process) :
  let started :=
    {| entropy := entropy p;
       console := console p ++ [Index.label_input ++ Index.input] |} in
  (forall e p', main Index.input started = (Throw e, p') ->
      Index.run p = (Throw e, p')) /\
  (forall result p', main Index.input started = (Ok result, p') ->
      Index.run p =
      (Ok tt, {| entropy := entropy p';
                 console := console p'
                              ++ [lit "result: " ++ Index.join result] |})) /\
  (entropy_sized -> entropy_available -> scrypt_sized -> scrypt_available ->
   exists password salt iv key encrypted p',
     Index.run p = (Ok tt, p') /\
     encrypted = Hex.encode (cbc_pkcs7 key iv (lit "test")) /\
     length encrypted = 32%nat /\
     console p' =
     console p ++ [Index.label_input ++ lit "test"]
       ++ log_lines password salt iv key encrypted (lit "test")
       ++ [lit "result: " ++ encrypted ++ lit ",test"]).
Proof.
  intro started.
  assert (forall e p', main Index.input started = (Throw e, p') ->
            Index.run p = (Throw e, p')) as Hthrow.
  { intros e p' H.
    change (Index.run p)
      with (bind (main Index.input)
              (fun result => console_log (lit "result: " ++ Index.join result))
              started).
    unfold bind. now rewrite H. }
  assert (forall result p', main Index.input started = (Ok result, p') ->
            Index.run p =
            (Ok tt, {| entropy := entropy p';
                       console := console p'
                                    ++ [lit "result: " ++ Index.join result] |}))
    as Hok.
  { intros result p' H.
    change (Index.run p)
      with (bind (main Index.input)
              (fun result => console_log (lit "result: " ++ Index.join result))
              started).
    unfold bind. rewrite H. reflexivity. }
  split; [exact Hthrow |]. split; [exact Hok |].
  intros Hes Hea Hss Hsa.
  destruct (Hea 16%nat (entropy started)) as (b1 & e1 & H1).
  destruct (Hea 16%nat e1) as (b2 & e2 & H2).
  destruct (Hea 16%nat e2) as (b3 & e3 & H3).
  destruct (Hsa (Utf8.encode (firstn 16 (Base64.encode b1)))
                (Utf8.encode (firstn 16 (Base64.encode b2))) 32%nat)
    as (derived & Hd).
  assert (is_jsstring Index.input) as Ht by (repeat constructor).
  pose proof (main_run Index.input started b1 e1 b2 e2 b3 e3 derived Ht H1 H2 H3
                (Hes _ _ _ _ H1) (Hes _ _ _ _ H2) (Hes _ _ _ _ H3)
                Hd (Hss _ _ _ _ Hd)) as Hrun.
  cbv zeta in Hrun.
  change (Utf8.decode (Utf8.encode Index.input)) with (lit "test") in Hrun.
  change (Utf8.encode Index.input) with (lit "test") in Hrun.
  exists (firstn 16 (Base64.encode b1)), (firstn 16 (Base64.encode b2)),
    (firstn 16 (Base64.encode b3)), (firstn 32 (Base64.encode derived)).
  do 2 eexists.
  split; [apply (Hok _ _ Hrun) |]. split; [reflexivity |].
  split.
  - rewrite hex_encode_length, cbc_pkcs7_length. reflexivity.
  - cbn [console started]. rewrite <- !app_assoc. reflexivity.
Qed.

(** X12: What [decryption] recovers is encrypted to the same text again: a
    cipher for the same key and IV maps the recovered string to the text it
    was recovered from, also when the plaintext had unpaired surrogates and
    the recovered string differs from it. *)
Theorem encryption_of_recovered commonKey iv P (p q r p' q' r' : Process)
    cipher1 decipher cipher2 encrypted recovered :
  createCipher commonKey iv p = (Ok cipher1, p') ->
  createDecipher commonKey iv q = (Ok decipher, q') ->
  createCipher commonKey iv r = (Ok cipher2, r') ->
  is_jsstring P ->
  encryption cipher1 P p' = (Ok encrypted, p') ->
  decryption decipher encrypted q' = (Ok recovered, q') ->
  encryption cipher2 recovered r' = (Ok encrypted, r').
Proof.
  intros H1 H2 H3 HP.
  apply createCipher_inv in H1, H3. apply createDecipher_inv in H2.
  destruct H1 as (_ & _ & ->), H2 as (_ & _ & ->), H3 as (_ & _ & ->).
  rewrite !encryption_fresh. intro E.
  assert (encrypted
          = Hex.encode (cbc_pkcs7 (Utf8.encode (CommonKey_value commonKey))
                          (Utf8.encode (InitializationVector_value iv))
                          (Utf8.encode P))) as -> by congruence.
  rewrite decryption_fresh by now apply utf8_encode_bytes.
  rewrite utf8_decode_encode_scrub by exact HP. intro D.
  assert (recovered = scrub P) as -> by congruence.
  now rewrite utf8_encode_scrub.
Qed.

End Engine.

(* ================================================================= *)
(** * Further properties at concrete inputs *)

(** The values used below are those of a run from [p0]: the key
    "SB0Zr+zyAXVbkhyT/ootPXB3foWMk5qh" and the IV "q9D1Gj9kia7T+B1C". *)

Lemma createRandomBytes_size_witness :
  (@entropy_read counter_provider 16 (entropy p0)
   = inr (counter_bytes 16 0, 16%nat) /\
   length (counter_bytes 16 0) = 16%nat) /\
  exists s,
    CryptographProcessor.createRandomBytes 16 p0 = (Ok s, after_read p0 16%nat) /\
    length s = 16%nat /\ Forall base64_char s /\
    length (Utf8.encode s) = 16%nat.
Proof.
  split; [split; reflexivity |].
  apply (createRandomBytes_size 16 p0 (counter_bytes 16 0) 16%nat); reflexivity.
Defined.

Lemma createRandomBytes_uses_three_quarters_witness :
  (@entropy_read counter_provider (4 * 4) (entropy p0)
   = inr (counter_bytes 16 0, 16%nat) /\
   length (counter_bytes 16 0) = (4 * 4)%nat) /\
  CryptographProcessor.createRandomBytes (4 * 4) p0
  = (Ok (Base64.encode (firstn (3 * 4) (counter_bytes 16 0))),
     after_read p0 16%nat).
Proof.
  split; [split; reflexivity |].
  apply (createRandomBytes_uses_three_quarters 4 p0 (counter_bytes 16 0) 16%nat);
    reflexivity.
Defined.

Lemma createCommonKey_uses_24_bytes_witness :
  let password := new_Password (lit "0123456789abcdef") in
  let salt := new_Salt (lit "fedcba9876543210") in
  let derived := mix_kdf (lit "0123456789abcdef") (lit "fedcba9876543210") 32 in
  (@scrypt counter_provider (Utf8.encode (Password_value password))
     (Utf8.encode (Salt_value salt)) CryptographProcessor.keyLength
   = inr derived /\
   length derived = 32%nat) /\
  CryptographProcessor.createCommonKey password salt p0
  = (Ok (new_CommonKey (Base64.encode (firstn 24 derived))), p0).
Proof.
  cbv zeta. split; [split; reflexivity |].
  apply (createCommonKey_uses_24_bytes
           (new_Password (lit "0123456789abcdef"))
           (new_Salt (lit "fedcba9876543210")) p0
           (mix_kdf (lit "0123456789abcdef") (lit "fedcba9876543210") 32));
    reflexivity.
Defined.

Lemma createCipher_accepts_ascii_witness :
  let key := lit "SB0Zr+zyAXVbkhyT/ootPXB3foWMk5qh" in
  let vec := lit "q9D1Gj9kia7T+B1C" in
  (length key = 32%nat /\ length vec = 16%nat /\
   ascii_string key /\ ascii_string vec) /\
  CryptographProcessor.createCipher (new_CommonKey key)
    (new_InitializationVector vec) p0 = (Ok (fresh_cipher key vec), p0) /\
  CryptographProcessor.createDecipher (new_CommonKey key)
    (new_InitializationVector vec) p0 = (Ok (fresh_decipher key vec), p0).
Proof.
  cbv zeta.
  assert (ascii_string (lit "SB0Zr+zyAXVbkhyT/ootPXB3foWMk5qh")) as Hk
    by (repeat constructor).
  assert (ascii_string (lit "q9D1Gj9kia7T+B1C")) as Hv by (repeat constructor).
  split; [repeat split; assumption || reflexivity |].
  apply (proj1 (createCipher_accepts_ascii
                  (new_CommonKey (lit "SB0Zr+zyAXVbkhyT/ootPXB3foWMk5qh"))
                  (new_InitializationVector (lit "q9D1Gj9kia7T+B1C")) p0
                  eq_refl eq_refl) Hk Hv).
Defined.

Lemma encryption_hex_text_witness :
  let commonKey := new_CommonKey (lit "SB0Zr+zyAXVbkhyT/ootPXB3foWMk5qh") in
  let iv := new_InitializationVector (lit "q9D1Gj9kia7T+B1C") in
  let cipher := fresh_cipher (lit "SB0Zr+zyAXVbkhyT/ootPXB3foWMk5qh")
                  (lit "q9D1Gj9kia7T+B1C") in
  CryptographProcessor.createCipher commonKey iv p0 = (Ok cipher, p0) /\
  exists encrypted,
    CryptographProcessor.encryption cipher (lit "test") p0 = (Ok encrypted, p0) /\
    Forall hex_char encrypted /\
    Hex.encode (Hex.decode encrypted) = encrypted /\
    is_bytes (Hex.decode encrypted) /\
    length encrypted = (2 * length (Hex.decode encrypted))%nat.
Proof.
  cbv zeta.
  assert (CryptographProcessor.createCipher
            (new_CommonKey (lit "SB0Zr+zyAXVbkhyT/ootPXB3foWMk5qh"))
            (new_InitializationVector (lit "q9D1Gj9kia7T+B1C")) p0
          = (Ok (fresh_cipher (lit "SB0Zr+zyAXVbkhyT/ootPXB3foWMk5qh")
                   (lit "q9D1Gj9kia7T+B1C")), p0)) as H by reflexivity.
  split; [exact H |].
  apply (encryption_hex_text _ _ (lit "test") p0 p0 _ H).
Defined.

Lemma encryption_collisions_witness :
  let key := lit "SB0Zr+zyAXVbkhyT/ootPXB3foWMk5qh" in
  let vec := lit "q9D1Gj9kia7T+B1C" in
  let cipher := fresh_cipher key vec in
  let c1 := Hex.encode (cbc_pkcs7 key vec (Utf8.encode [0xD800])) in
  let c2 := Hex.encode (cbc_pkcs7 key vec (Utf8.encode [0xDC00])) in
  (CryptographProcessor.createCipher (new_CommonKey key)
     (new_InitializationVector vec) p0 = (Ok cipher, p0) /\
   is_jsstring [0xD800] /\ is_jsstring [0xDC00] /\
   CryptographProcessor.encryption cipher [0xD800] p0 = (Ok c1, p0) /\
   CryptographProcessor.encryption cipher [0xDC00] p0 = (Ok c2, p0)) /\
  (c1 = c2 <-> scrub [0xD800] = scrub [0xDC00]).
Proof.
  cbv zeta.
  assert (CryptographProcessor.createCipher
            (new_CommonKey (lit "SB0Zr+zyAXVbkhyT/ootPXB3foWMk5qh"))
            (new_InitializationVector (lit "q9D1Gj9kia7T+B1C")) p0
          = (Ok (fresh_cipher (lit "SB0Zr+zyAXVbkhyT/ootPXB3foWMk5qh")
                   (lit "q9D1Gj9kia7T+B1C")), p0)) as H by reflexivity.
  assert (is_jsstring [0xD800]) as J1 by (repeat constructor).
  assert (is_jsstring [0xDC00]) as J2 by (repeat constructor).
  split; [repeat apply conj; try assumption; apply encryption_fresh |].
  apply (encryption_collisions _ _ [0xD800] [0xDC00] p0 p0 p0 p0 _ _ _ _
           H H J1 J2 (encryption_fresh _ _ _ _) (encryption_fresh _ _ _ _)).
Defined.

Lemma encryption_common_prefix_witness :
  let key := lit "SB0Zr+zyAXVbkhyT/ootPXB3foWMk5qh" in
  let vec := lit "q9D1Gj9kia7T+B1C" in
  let cipher := fresh_cipher key vec in
  let P1 := lit "0123456789abcdefX" in
  let P2 := lit "0123456789abcdefYZ" in
  let c1 := Hex.encode (cbc_pkcs7 key vec (Utf8.encode P1)) in
  let c2 := Hex.encode (cbc_pkcs7 key vec (Utf8.encode P2)) in
  (CryptographProcessor.createCipher (new_CommonKey key)
     (new_InitializationVector vec) p0 = (Ok cipher, p0) /\
   (16 * 1 <= length (Utf8.encode P1))%nat /\
   (16 * 1 <= length (Utf8.encode P2))%nat /\
   firstn (16 * 1) (Utf8.encode P1) = firstn (16 * 1) (Utf8.encode P2) /\
   CryptographProcessor.encryption cipher P1 p0 = (Ok c1, p0) /\
   CryptographProcessor.encryption cipher P2 p0 = (Ok c2, p0)) /\
  firstn (32 * 1) c1 = firstn (32 * 1) c2.
Proof.
  cbv zeta.
  assert (CryptographProcessor.createCipher
            (new_CommonKey (lit "SB0Zr+zyAXVbkhyT/ootPXB3foWMk5qh"))
            (new_InitializationVector (lit "q9D1Gj9kia7T+B1C")) p0
          = (Ok (fresh_cipher (lit "SB0Zr+zyAXVbkhyT/ootPXB3foWMk5qh")
                   (lit "q9D1Gj9kia7T+B1C")), p0)) as H by reflexivity.
  assert (16 * 1 <= length (Utf8.encode (lit "0123456789abcdefX")))%nat as L1
    by (apply Nat.leb_le; reflexivity).
  assert (16 * 1 <= length (Utf8.encode (lit "0123456789abcdefYZ")))%nat as L2
    by (apply Nat.leb_le; reflexivity).
  assert (firstn (16 * 1) (Utf8.encode (lit "0123456789abcdefX"))
          = firstn (16 * 1) (Utf8.encode (lit "0123456789abcdefYZ"))) as E
    by (vm_compute; reflexivity).
  split; [repeat apply conj; try assumption; apply encryption_fresh |].
  apply (encryption_common_prefix _ _ (lit "0123456789abcdefX")
           (lit "0123456789abcdefYZ") 1 p0 p0 p0 p0 _ _ _ _
           H H L1 L2 E (encryption_fresh _ _ _ _) (encryption_fresh _ _ _ _)).
Defined.

Lemma decryption_wrong_final_block_witness :
  let commonKey := new_CommonKey (lit "SB0Zr+zyAXVbkhyT/ootPXB3foWMk5qh") in
  let iv := new_InitializationVector (lit "q9D1Gj9kia7T+B1C") in
  let decipher := fresh_decipher (lit "SB0Zr+zyAXVbkhyT/ootPXB3foWMk5qh")
                    (lit "q9D1Gj9kia7T+B1C") in
  let text := lit "29f2e598e" in
  CryptographProcessor.createDecipher commonKey iv p0 = (Ok decipher, p0) /\
  (CryptographProcessor.decryption decipher text p0
   = (Throw InvalidArgValue, p0) <->
   Nat.even (length text) = false) /\
  (CryptographProcessor.decryption decipher text p0
   = (Throw WrongFinalBlockLength, p0) <->
   Nat.even (length text) = true /\
   (Hex.decode text = [] \/ (length (Hex.decode text) mod 16 <> 0)%nat)) /\
  (CryptographProcessor.decryption decipher text p0
   = (Throw InvalidArgValue, p0) \/
   CryptographProcessor.decryption decipher text p0
   = (Throw WrongFinalBlockLength, p0) \/
   CryptographProcessor.decryption decipher text p0 = (Throw BadDecrypt, p0) \/
   exists d, CryptographProcessor.decryption decipher text p0 = (Ok d, p0)).
Proof.
  cbv zeta.
  assert (CryptographProcessor.createDecipher
            (new_CommonKey (lit "SB0Zr+zyAXVbkhyT/ootPXB3foWMk5qh"))
            (new_InitializationVector (lit "q9D1Gj9kia7T+B1C")) p0
          = (Ok (fresh_decipher (lit "SB0Zr+zyAXVbkhyT/ootPXB3foWMk5qh")
                   (lit "q9D1Gj9kia7T+B1C")), p0)) as H by reflexivity.
  split; [exact H |].
  apply (decryption_wrong_final_block _ _ (lit "29f2e598e") p0 p0 _ H).
Defined.

Lemma decryption_ignores_case_witness :
  let decipher := fresh_decipher (lit "SB0Zr+zyAXVbkhyT/ootPXB3foWMk5qh")
                    (lit "q9D1Gj9kia7T+B1C") in
  let text := lit "29f2e598ec5a205e8082492928ce6f3f" in
  ascii_string text /\
  map ascii_upper text = lit "29F2E598EC5A205E8082492928CE6F3F" /\
  CryptographProcessor.decryption decipher (map ascii_upper text) p0
  = CryptographProcessor.decryption decipher text p0.
Proof.
  cbv zeta.
  assert (ascii_string (lit "29f2e598ec5a205e8082492928ce6f3f")) as Ha
    by (repeat constructor).
  split; [exact Ha |]. split; [reflexivity |].
  apply (decryption_ignores_case _ (lit "29f2e598ec5a205e8082492928ce6f3f") p0 Ha).
Defined.

Lemma decryption_returns_plaintext_witness :
  let key := lit "SB0Zr+zyAXVbkhyT/ootPXB3foWMk5qh" in
  let vec := lit "q9D1Gj9kia7T+B1C" in
  let decipher := fresh_decipher key vec in
  let text := lit "29F2E598EC5A205E8082492928CE6F3F" in
  (CryptographProcessor.createDecipher (new_CommonKey key)
     (new_InitializationVector vec) p0 = (Ok decipher, p0) /\
   is_jsstring (lit "test") /\ clean (lit "test") /\
   Utf8.well_formed (lit "test") = true) /\
  (CryptographProcessor.decryption decipher text p0 = (Ok (lit "test"), p0) <->
   Nat.even (length text) = true /\
   Hex.decode text = cbc_pkcs7 (Utf8.encode key) (Utf8.encode vec)
                       (Utf8.encode (lit "test"))).
Proof.
  cbv zeta.
  assert (CryptographProcessor.createDecipher
            (new_CommonKey (lit "SB0Zr+zyAXVbkhyT/ootPXB3foWMk5qh"))
            (new_InitializationVector (lit "q9D1Gj9kia7T+B1C")) p0
          = (Ok (fresh_decipher (lit "SB0Zr+zyAXVbkhyT/ootPXB3foWMk5qh")
                   (lit "q9D1Gj9kia7T+B1C")), p0)) as H by reflexivity.
  assert (is_jsstring (lit "test")) as Ht by (repeat constructor).
  assert (clean (lit "test")) as Hc.
  { intro Hin. vm_compute in Hin.
    repeat (destruct Hin as [Hin | Hin]; [discriminate Hin |]). exact Hin. }
  assert (Utf8.well_formed (lit "test") = true) as Hw by reflexivity.
  split; [repeat apply conj; assumption |].
  apply (decryption_returns_plaintext
           (new_CommonKey (lit "SB0Zr+zyAXVbkhyT/ootPXB3foWMk5qh"))
           (new_InitializationVector (lit "q9D1Gj9kia7T+B1C"))
           (lit "test") (lit "29F2E598EC5A205E8082492928CE6F3F") p0 p0 _
           H Ht Hc Hw).
Defined.

Lemma decryption_other_iv_witness :
  let key := lit "SB0Zr+zyAXVbkhyT/ootPXB3foWMk5qh" in
  let vec1 := lit "q9D1Gj9kia7T+B1C" in
  let vec2 := lit "0000000000000000" in
  let cipher := fresh_cipher key vec1 in
  let decipher := fresh_decipher key vec2 in
  let encrypted := Hex.encode (cbc_pkcs7 key vec1 (Utf8.encode (lit "test"))) in
  (CryptographProcessor.createCipher (new_CommonKey key)
     (new_InitializationVector vec1) p0 = (Ok cipher, p0) /\
   CryptographProcessor.createDecipher (new_CommonKey key)
     (new_InitializationVector vec2) p0 = (Ok decipher, p0) /\
   is_jsstring vec1 /\ is_jsstring vec2 /\
   Utf8.encode vec1 <> Utf8.encode vec2 /\
   clean (lit "test") /\
   CryptographProcessor.encryption cipher (lit "test") p0 = (Ok encrypted, p0)) /\
  (CryptographProcessor.decryption decipher encrypted p0 = (Throw BadDecrypt, p0) \/
   exists d,
     CryptographProcessor.decryption decipher encrypted p0 = (Ok d, p0) /\
     d <> lit "test").
Proof.
  cbv zeta.
  assert (CryptographProcessor.createCipher
            (new_CommonKey (lit "SB0Zr+zyAXVbkhyT/ootPXB3foWMk5qh"))
            (new_InitializationVector (lit "q9D1Gj9kia7T+B1C")) p0
          = (Ok (fresh_cipher (lit "SB0Zr+zyAXVbkhyT/ootPXB3foWMk5qh")
                   (lit "q9D1Gj9kia7T+B1C")), p0)) as H1 by reflexivity.
  assert (CryptographProcessor.createDecipher
            (new_CommonKey (lit "SB0Zr+zyAXVbkhyT/ootPXB3foWMk5qh"))
            (new_InitializationVector (lit "0000000000000000")) p0
          = (Ok (fresh_decipher (lit "SB0Zr+zyAXVbkhyT/ootPXB3foWMk5qh")
                   (lit "0000000000000000")), p0)) as H2 by reflexivity.
  assert (is_jsstring (lit "q9D1Gj9kia7T+B1C")) as J1 by (repeat constructor).
  assert (is_jsstring (lit "0000000000000000")) as J2 by (repeat constructor).
  assert (Utf8.encode (lit "q9D1Gj9kia7T+B1C")
          <> Utf8.encode (lit "0000000000000000")) as Hne
    by (vm_compute; discriminate).
  assert (clean (lit "test")) as Hc.
  { intro Hin. vm_compute in Hin.
    repeat (destruct Hin as [Hin | Hin]; [discriminate Hin |]). exact Hin. }
  split; [repeat apply conj; try assumption; apply encryption_fresh |].
  apply (decryption_other_iv
           (new_CommonKey (lit "SB0Zr+zyAXVbkhyT/ootPXB3foWMk5qh"))
           (new_InitializationVector (lit "q9D1Gj9kia7T+B1C"))
           (new_InitializationVector (lit "0000000000000000"))
           (lit "test") p0 p0 p0 p0 _ _ _ H1 H2 J1 J2 Hne Hc
           (encryption_fresh _ _ _ _)).
Defined.

Lemma encryption_of_recovered_witness :
  let key := lit "SB0Zr+zyAXVbkhyT/ootPXB3foWMk5qh" in
  let vec := lit "q9D1Gj9kia7T+B1C" in
  let cipher := fresh_cipher key vec in
  let decipher := fresh_decipher key vec in
  let encrypted := Hex.encode (cbc_pkcs7 key vec (Utf8.encode [0xD800])) in
  (CryptographProcessor.createCipher (new_CommonKey key)
     (new_InitializationVector vec) p0 = (Ok cipher, p0) /\
   CryptographProcessor.createDecipher (new_CommonKey key)
     (new_InitializationVector vec) p0 = (Ok decipher, p0) /\
   is_jsstring [0xD800] /\
   CryptographProcessor.encryption cipher [0xD800] p0 = (Ok encrypted, p0) /\
   CryptographProcessor.decryption decipher encrypted p0
   = (Ok [Utf8.replacement], p0)) /\
  CryptographProcessor.encryption cipher [Utf8.replacement] p0
  = (Ok encrypted, p0).
Proof.
  cbv zeta.
  assert (CryptographProcessor.createCipher
            (new_CommonKey (lit "SB0Zr+zyAXVbkhyT/ootPXB3foWMk5qh"))
            (new_InitializationVector (lit "q9D1Gj9kia7T+B1C")) p0
          = (Ok (fresh_cipher (lit "SB0Zr+zyAXVbkhyT/ootPXB3foWMk5qh")
                   (lit "q9D1Gj9kia7T+B1C")), p0)) as H1 by reflexivity.
  assert (CryptographProcessor.createDecipher
            (new_CommonKey (lit "SB0Zr+zyAXVbkhyT/ootPXB3foWMk5qh"))
            (new_InitializationVector (lit "q9D1Gj9kia7T+B1C")) p0
          = (Ok (fresh_decipher (lit "SB0Zr+zyAXVbkhyT/ootPXB3foWMk5qh")
                   (lit "q9D1Gj9kia7T+B1C")), p0)) as H2 by reflexivity.
  assert (is_jsstring [0xD800]) as J by (repeat constructor).
  assert (CryptographProcessor.decryption
            (fresh_decipher (lit "SB0Zr+zyAXVbkhyT/ootPXB3foWMk5qh")
               (lit "q9D1Gj9kia7T+B1C"))
            (Hex.encode (cbc_pkcs7 (lit "SB0Zr+zyAXVbkhyT/ootPXB3foWMk5qh")
                           (lit "q9D1Gj9kia7T+B1C") (Utf8.encode [0xD800]))) p0
          = (Ok [Utf8.replacement], p0)) as D
    by (rewrite decryption_fresh;
        [vm_compute; reflexivity | apply utf8_encode_bytes; exact J]).
  split; [repeat apply conj; try assumption; apply encryption_fresh |].
  apply (encryption_of_recovered
           (new_CommonKey (lit "SB0Zr+zyAXVbkhyT/ootPXB3foWMk5qh"))
           (new_InitializationVector (lit "q9D1Gj9kia7T+B1C"))
           [0xD800] p0 p0 p0 p0 p0 p0 _ _ _ _ _ H1 H2 H1 J
           (encryption_fresh _ _ _ _) D).
Defined.

Lemma main_material_fixed_witness :
  (@entropy_sized counter_provider /\ @entropy_available counter_provider /\
   @scrypt_sized counter_provider /\ @scrypt_available counter_provider) /\
  exists b1 b2 b3 derived,
    @entropy_read counter_provider 16 (entropy p0) = inr (b1, 16%nat) /\
    @entropy_read counter_provider 16 16%nat = inr (b2, 32%nat) /\
    @entropy_read counter_provider 16 32%nat = inr (b3, 48%nat) /\
    @scrypt counter_provider (Utf8.encode (firstn 16 (Base64.encode b1)))
      (Utf8.encode (firstn 16 (Base64.encode b2))) 32 = inr derived /\
    forall target, is_jsstring target ->
      CryptographProcessor.main target p0 =
      (Ok [Hex.encode (cbc_pkcs7 (firstn 32 (Base64.encode derived))
                         (firstn 16 (Base64.encode b3)) (Utf8.encode target));
           scrub target],
       @Build_Process counter_provider 48%nat
         (console p0
            ++ log_lines (firstn 16 (Base64.encode b1))
                 (firstn 16 (Base64.encode b2))
                 (firstn 16 (Base64.encode b3))
                 (firstn 32 (Base64.encode derived))
                 (Hex.encode (cbc_pkcs7 (firstn 32 (Base64.encode derived))
                                (firstn 16 (Base64.encode b3))
                                (Utf8.encode target)))
                 (scrub target))).
Proof.
  split.
  - repeat split;
      auto using counter_entropy_sized, counter_entropy_available,
        counter_scrypt_sized, counter_scrypt_available.
  - destruct (main_material_fixed p0
                counter_entropy_sized counter_entropy_available
                counter_scrypt_sized counter_scrypt_available)
      as (b1 & e1 & b2 & e2 & b3 & e3 & derived & H1 & H2 & H3 & Hd & H).
    assert (e1 = 16%nat) as -> by (cbn in H1; congruence).
    assert (e2 = 32%nat) as -> by (cbn in H2; congruence).
    assert (e3 = 48%nat) as -> by (cbn in H3; congruence).
    exists b1, b2, b3, derived.
    split; [exact H1 |]. split; [exact H2 |]. split; [exact H3 |].
    split; [exact Hd |]. exact H.
Defined.

Lemma index_run_console_witness :
  (@entropy_sized counter_provider /\ @entropy_available counter_provider /\
   @scrypt_sized counter_provider /\ @scrypt_available counter_provider) /\
  exists password salt iv key encrypted p',
    Index.run p0 = (Ok tt, p') /\
    encrypted = Hex.encode (cbc_pkcs7 key iv (lit "test")) /\
    length encrypted = 32%nat /\
    console p' =
    console p0 ++ [Index.label_input ++ lit "test"]
      ++ log_lines password salt iv key encrypted (lit "test")
      ++ [lit "result: " ++ encrypted ++ lit ",test"].
Proof.
  split.
  - repeat split;
      auto using counter_entropy_sized, counter_entropy_available,
        counter_scrypt_sized, counter_scrypt_available.
  - apply (proj2 (proj2 (index_run_console p0))
             counter_entropy_sized counter_entropy_available
             counter_scrypt_sized counter_scrypt_available).
Defined.
